(** * aws-maze-game: the client-side stage and movement state machine

    A shallow embedding of [app/maze_game.py] (class [MazeGame], the
    API-backed client) and of the parts of [app/maze_game_local.py] that
    differ from it (the SQLite-backed development client), followed by the
    properties of the movement validator, the stage loader and the game
    session.  The level service behind the API
    ([lambda/lambda_function.py]) and the client that calls it
    ([app/api_client.py]) are embedded in the modules [Lambda] and
    [APIClient], with their properties at the end.

    Conventions of the embedding:
    - a Python [str] is the list of its code points ([list N]); a Python
      [int] is a [Z]; a Python [float] is a binary64 [float];
    - [list] indexing follows Python (negative indices wrap, anything else
      out of range raises [IndexError]);
    - a method that only reads [self] is a function of the object; a method
      that mutates [self] or talks to the outside world (the clock, the level
      API, the analytics queue) is a computation in the monad [M], a state
      monad over [World] whose results may be a raised exception. *)

From Stdlib Require Import ZArith NArith List Bool Lia String Ascii PrimFloat
  DecimalString.
Import ListNotations.
Open Scope Z_scope.

(* ================================================================== *)
(** ** Python strings *)

Module PyStr.

Definition char := N.
Definition str := list char.

(** Code point of a character literal, and the [str] of a literal. *)
Definition chr (a : ascii) : char := N_of_ascii a.

Fixpoint lit (s : string) : str :=
  match s with
  | EmptyString => []
  | String a s' => chr a :: lit s'
  end.

Definition NL : char := 10%N.        (* '\n' *)
Definition HASH : char := 35%N.      (* '#'  *)

(** [str.isspace] on one code point: the characters [str.strip()] removes
    when called without an argument. *)
Definition isspace (c : char) : bool :=
  ((9 <=? c) && (c <=? 13) || (28 <=? c) && (c <=? 32)
   || (c =? 133) || (c =? 160) || (c =? 5760)
   || (8192 <=? c) && (c <=? 8202)
   || (c =? 8232) || (c =? 8233) || (c =? 8239) || (c =? 8287)
   || (c =? 12288))%N.

Fixpoint lstrip (s : str) : str :=
  match s with
  | [] => []
  | c :: s' => if isspace c then lstrip s' else s
  end.

Definition rstrip (s : str) : str := rev (lstrip (rev s)).

(** [s.strip()]: leading white space is skipped first, then trailing. *)
Definition strip (s : str) : str := rstrip (lstrip s).

(** [s.split('\n')], as the first row and the rows after it: the result of
    [split] is never empty. *)
Fixpoint split_rows (s : str) : str * list str :=
  match s with
  | [] => ([], [])
  | c :: s' =>
      let (r, rs) := split_rows s' in
      if (c =? NL)%N then ([], r :: rs) else (c :: r, rs)
  end.

Definition split_nl (s : str) : list str :=
  let (r, rs) := split_rows s in r :: rs.

(** ['\n'.join(rows)] *)
Fixpoint join_nl (rows : list str) : str :=
  match rows with
  | [] => []
  | [r] => r
  | r :: rs => r ++ NL :: join_nl rs
  end.

Definition count_nl (s : str) : nat := count_occ N.eq_dec s NL.

(** A string is blank when every character of it is white space. *)
Definition blank (s : str) : bool := forallb isspace s.

End PyStr.
Import PyStr.

(* ================================================================== *)
(** ** Exceptions and Python list indexing *)

Inductive PyExn := IndexError.

Inductive Res (A : Type) : Type :=
| Ok (a : A)
| Raise (e : PyExn).
Arguments Ok {A} a.
Arguments Raise {A} e.

Definition len {A} (l : list A) : Z := Z.of_nat (List.length l).

(** [l[i]] *)
Definition py_index {A} (l : list A) (i : Z) : Res A :=
  let j := if i <? 0 then i + len l else i in
  if (j <? 0) || (j >=? len l) then Raise IndexError
  else match nth_error l (Z.to_nat j) with
       | Some a => Ok a
       | None => Raise IndexError
       end.

(* ================================================================== *)
(** ** The maze grid *)

Definition Maze := list (list char).

(** The layout loop of [load_stage]:
<<
    self.maze = []
    lines = self.stage_data['layout'].strip().split('\n')
    for line in lines:
        self.maze.append(list(line))
>> *)
Definition parse_layout (layout : str) : Maze :=
  let lines := split_nl (strip layout) in
  fold_left (fun maze line => maze ++ [line]) lines [].

(** The cell a pair of coordinates addresses, when it is inside the grid:
    row [y] exists and has a column [x]. *)
Definition cell_at (maze : Maze) (x y : Z) : option char :=
  if (x <? 0) || (y <? 0) then None
  else match nth_error maze (Z.to_nat y) with
       | Some row => nth_error row (Z.to_nat x)
       | None => None
       end.

(* ================================================================== *)
(** ** Game objects *)

(** The level record [get_level_data] / [get_stage] hand to the game; the
    game reads [layout], [start_x], [start_y], [end_x] and [end_y]. *)
Record StageData := mkStageData {
  sd_stage_number : Z;
  sd_layout : str;
  sd_width : Z;
  sd_height : Z;
  sd_start_x : Z;
  sd_start_y : Z;
  sd_end_x : Z;
  sd_end_y : Z
}.

Inductive GameState :=
| STATE_PLAYING
| STATE_STAGE_COMPLETE
| STATE_GAME_COMPLETE.

Definition GameState_eqb (a b : GameState) : bool :=
  match a, b with
  | STATE_PLAYING, STATE_PLAYING
  | STATE_STAGE_COMPLETE, STATE_STAGE_COMPLETE
  | STATE_GAME_COMPLETE, STATE_GAME_COMPLETE => true
  | _, _ => false
  end.

(** [pygame.Rect(left, top, width, height)] *)
Record Rect := mkRect {
  rect_left : Z;
  rect_top : Z;
  rect_width : Z;
  rect_height : Z
}.

(** A [Rect] is true when its area is not zero. *)
Definition rect_truthy (r : Rect) : bool :=
  negb (rect_width r =? 0) && negb (rect_height r =? 0).

Definition collidepoint (r : Rect) (pos : Z * Z) : bool :=
  let (x, y) := pos in
  (rect_left r <=? x) && (x <? rect_left r + rect_width r)
  && (rect_top r <=? y) && (y <? rect_top r + rect_height r).

(** The attributes of a [MazeGame] that carry game state (the pygame
    surface, clock and fonts are left out). *)
Record MazeGame := mkMazeGame {
  current_stage : Z;
  total_stages : Z;
  stage_data : option StageData;
  maze : Maze;
  player_x : Z;
  player_y : Z;
  end_x : Z;
  end_y : Z;
  game_state : GameState;
  running : bool;
  stage_start_time : float;
  stage_moves : Z;
  total_moves : Z;
  game_start_time : float;
  continue_button : option Rect
}.

(** Attribute assignment, [self.f = v]. *)
Definition set_current_stage (v : Z) (g : MazeGame) : MazeGame :=
  let 'mkMazeGame _ b c d e f h i j k l m n o p := g in
  mkMazeGame v b c d e f h i j k l m n o p.
Definition set_stage_data (v : option StageData) (g : MazeGame) : MazeGame :=
  let 'mkMazeGame a b _ d e f h i j k l m n o p := g in
  mkMazeGame a b v d e f h i j k l m n o p.
Definition set_maze (v : Maze) (g : MazeGame) : MazeGame :=
  let 'mkMazeGame a b c _ e f h i j k l m n o p := g in
  mkMazeGame a b c v e f h i j k l m n o p.
Definition set_player_x (v : Z) (g : MazeGame) : MazeGame :=
  let 'mkMazeGame a b c d _ f h i j k l m n o p := g in
  mkMazeGame a b c d v f h i j k l m n o p.
Definition set_player_y (v : Z) (g : MazeGame) : MazeGame :=
  let 'mkMazeGame a b c d e _ h i j k l m n o p := g in
  mkMazeGame a b c d e v h i j k l m n o p.
Definition set_end_x (v : Z) (g : MazeGame) : MazeGame :=
  let 'mkMazeGame a b c d e f _ i j k l m n o p := g in
  mkMazeGame a b c d e f v i j k l m n o p.
Definition set_end_y (v : Z) (g : MazeGame) : MazeGame :=
  let 'mkMazeGame a b c d e f h _ j k l m n o p := g in
  mkMazeGame a b c d e f h v j k l m n o p.
Definition set_game_state (v : GameState) (g : MazeGame) : MazeGame :=
  let 'mkMazeGame a b c d e f h i _ k l m n o p := g in
  mkMazeGame a b c d e f h i v k l m n o p.
Definition set_running (v : bool) (g : MazeGame) : MazeGame :=
  let 'mkMazeGame a b c d e f h i j _ l m n o p := g in
  mkMazeGame a b c d e f h i j v l m n o p.
Definition set_stage_start_time (v : float) (g : MazeGame) : MazeGame :=
  let 'mkMazeGame a b c d e f h i j k _ m n o p := g in
  mkMazeGame a b c d e f h i j k v m n o p.
Definition set_stage_moves (v : Z) (g : MazeGame) : MazeGame :=
  let 'mkMazeGame a b c d e f h i j k l _ n o p := g in
  mkMazeGame a b c d e f h i j k l v n o p.
Definition set_total_moves (v : Z) (g : MazeGame) : MazeGame :=
  let 'mkMazeGame a b c d e f h i j k l m _ o p := g in
  mkMazeGame a b c d e f h i j k l m v o p.
Definition set_game_start_time (v : float) (g : MazeGame) : MazeGame :=
  let 'mkMazeGame a b c d e f h i j k l m n _ p := g in
  mkMazeGame a b c d e f h i j k l m n v p.
Definition set_continue_button (v : option Rect) (g : MazeGame) : MazeGame :=
  let 'mkMazeGame a b c d e f h i j k l m n o _ := g in
  mkMazeGame a b c d e f h i j k l m n o v.

(** [MazeGame.__init__] *)
Definition new_game : MazeGame := {|
  current_stage := 1;
  total_stages := 10;
  stage_data := None;
  maze := [];
  player_x := 0;
  player_y := 0;
  end_x := 0;
  end_y := 0;
  game_state := STATE_PLAYING;
  running := true;
  stage_start_time := 0%float;
  stage_moves := 0;
  total_moves := 0;
  game_start_time := 0%float;
  continue_button := None
|}.

(* ================================================================== *)
(** ** The world outside the game object *)

(** A call the game makes on its [AnalyticsHandler]. *)
Inductive Telemetry :=
| game_start
| level_complete (stage_number : Z) (time_taken : float) (moves_count : Z)
| game_complete (total_time : float) (total_moves : Z).

(** What the game cannot decide: the readings of [time.time()], the answers
    of the level API (the [n]-th request may fail whatever the stage), whether
    the analytics queue is configured and whether SQS accepts the [n]-th
    message.  [ticks], [fetches] and [sqs_calls] count the readings, requests
    and messages so far, and [emitted] is the trace of telemetry calls. *)
Record Env := mkEnv {
  SCREEN_WIDTH : Z;
  SCREEN_HEIGHT : Z;
  clock : nat -> float;
  ticks : nat;
  level_api : nat -> Z -> option StageData;
  fetches : nat;
  queue_url : bool;
  sqs_accepts : nat -> bool;
  sqs_calls : nat;
  emitted : list Telemetry
}.

Definition set_ticks (v : nat) (e : Env) : Env :=
  let 'mkEnv a b c _ f h i j k l := e in mkEnv a b c v f h i j k l.
Definition set_fetches (v : nat) (e : Env) : Env :=
  let 'mkEnv a b c d f _ i j k l := e in mkEnv a b c d f v i j k l.
Definition set_sqs_calls (v : nat) (e : Env) : Env :=
  let 'mkEnv a b c d f h i j _ l := e in mkEnv a b c d f h i j v l.
Definition set_emitted (v : list Telemetry) (e : Env) : Env :=
  let 'mkEnv a b c d f h i j k _ := e in mkEnv a b c d f h i j k v.

Record World := mkWorld {
  self : MazeGame;
  env : Env
}.

(* ================================================================== *)
(** ** The monad of methods *)

Definition M (A : Type) : Type := World -> Res (A * World).

Definition ret {A} (a : A) : M A := fun w => Ok (a, w).

Definition bind {A B} (c : M A) (k : A -> M B) : M B :=
  fun w => match c w with
           | Ok (a, w') => k a w'
           | Raise e => Raise e
           end.

Declare Scope method_scope.
Delimit Scope method_scope with method.
Notation "x <- c ;; k" := (bind c (fun x => k))
  (at level 61, c at next level, right associativity) : method_scope.
Notation "c ;; k" := (bind c (fun _ => k))
  (at level 61, right associativity) : method_scope.
Open Scope method_scope.

Definition get_self : M MazeGame := fun w => Ok (self w, w).
Definition get_env : M Env := fun w => Ok (env w, w).

(** [self.f = v] for a setter [set_f v] *)
Definition assign (f : MazeGame -> MazeGame) : M unit :=
  fun w => Ok (tt, mkWorld (f (self w)) (env w)).

Definition tell (f : Env -> Env) : M unit :=
  fun w => Ok (tt, mkWorld (self w) (f (env w))).

Definition lift {A} (r : Res A) : M A :=
  fun w => match r with
           | Ok a => Ok (a, w)
           | Raise e => Raise e
           end.

(** [time.time()] *)
Definition time_time : M float :=
  e <- get_env ;;
  tell (set_ticks (S (ticks e))) ;;
  ret (clock e (ticks e)).

(** [APIClient.get_level_data]: the level record, or [None] for every way
    the request can fail (transport error, HTTP error, [success] false). *)
Definition get_level_data (stage_number : Z) : M (option StageData) :=
  e <- get_env ;;
  tell (set_fetches (S (fetches e))) ;;
  ret (level_api e (fetches e) stage_number).

(** [APIClient.test_connection] *)
Definition test_connection : M bool :=
  data <- get_level_data 1 ;;
  ret (match data with Some _ => true | None => false end).

(** [AnalyticsHandler.send_*]: nothing is sent without a queue URL;
    otherwise the message is stamped with the time and handed to SQS, and an
    error of SQS is caught and reported as [False]. *)
Definition send (ev : Telemetry) : M bool :=
  e <- get_env ;;
  tell (set_emitted (emitted e ++ [ev])) ;;
  if queue_url e then
    _ <- time_time ;;
    tell (set_sqs_calls (S (sqs_calls e))) ;;
    ret (sqs_accepts e (sqs_calls e))
  else ret false.

Definition send_game_start : M bool := send game_start.
Definition send_level_complete (stage_number : Z) (time_taken : float)
    (moves_count : Z) : M bool :=
  send (level_complete stage_number time_taken moves_count).
Definition send_game_complete (total_time : float) (total_moves : Z) : M bool :=
  send (game_complete total_time total_moves).

(* ================================================================== *)
(** ** pygame input *)

(** Key codes of pygame 2 (SDL2). *)
Definition K_RIGHT : Z := 1073741903.
Definition K_LEFT : Z := 1073741904.
Definition K_DOWN : Z := 1073741905.
Definition K_UP : Z := 1073741906.

(** An event of [pygame.event.get()], by [event.type]. *)
Inductive PgEvent :=
| QUIT
| KEYDOWN (key : Z)
| MOUSEBUTTONDOWN (pos : Z * Z)
| OTHER_EVENT.

(* ================================================================== *)
(** ** Methods of [MazeGame] ([app/maze_game.py]) *)

(** [MazeGame.is_valid_move] *)
Definition is_valid_move (g : MazeGame) (x y : Z) : Res bool :=
  if (y <? 0) || (y >=? len (maze g)) then Ok false
  else
    match py_index (maze g) y with
    | Raise e => Raise e
    | Ok row =>
        if (x <? 0) || (x >=? len row) then Ok false
        else
          match py_index (maze g) y with
          | Raise e => Raise e
          | Ok row' =>
              match py_index row' x with
              | Raise e => Raise e
              | Ok cell => Ok (negb (cell =? HASH)%N)
              end
          end
    end.

(** [MazeGame.load_stage] *)
Definition load_stage (stage_number : Z) : M bool :=
  data <- get_level_data stage_number ;;
  assign (set_stage_data data) ;;
  match data with
  | None => ret false
  | Some sd =>
      assign (set_maze (parse_layout (sd_layout sd))) ;;
      assign (set_player_x (sd_start_x sd)) ;;
      assign (set_player_y (sd_start_y sd)) ;;
      assign (set_end_x (sd_end_x sd)) ;;
      assign (set_end_y (sd_end_y sd)) ;;
      now <- time_time ;;
      assign (set_stage_start_time now) ;;
      assign (set_stage_moves 0) ;;
      assign (set_game_state STATE_PLAYING) ;;
      ret true
  end.

(** [MazeGame.initialize] *)
Definition initialize : M bool :=
  ok <- test_connection ;;
  if negb ok then ret false
  else
    now <- time_time ;;
    assign (set_game_start_time now) ;;
    _ <- send_game_start ;;
    g <- get_self ;;
    load_stage (current_stage g).

(** [MazeGame.stage_completed] *)
Definition stage_completed : M unit :=
  now <- time_time ;;
  g <- get_self ;;
  let stage_time := PrimFloat.sub now (stage_start_time g) in
  _ <- send_level_complete (current_stage g) stage_time (stage_moves g) ;;
  if current_stage g >=? total_stages g then
    assign (set_game_state STATE_GAME_COMPLETE) ;;
    now' <- time_time ;;
    let total_time := PrimFloat.sub now' (game_start_time g) in
    _ <- send_game_complete total_time (total_moves g) ;;
    ret tt
  else
    assign (set_game_state STATE_STAGE_COMPLETE).

(** The destination of an arrow key, [None] for any other key. *)
Definition destination (g : MazeGame) (key : Z) : option (Z * Z) :=
  let new_x := player_x g in
  let new_y := player_y g in
  if key =? K_UP then Some (new_x, new_y - 1)
  else if key =? K_DOWN then Some (new_x, new_y + 1)
  else if key =? K_LEFT then Some (new_x - 1, new_y)
  else if key =? K_RIGHT then Some (new_x + 1, new_y)
  else None.

(** [MazeGame.handle_movement] *)
Definition handle_movement (key : Z) : M unit :=
  g <- get_self ;;
  match destination g key with
  | None => ret tt
  | Some (new_x, new_y) =>
      valid <- lift (is_valid_move g new_x new_y) ;;
      if valid then
        assign (set_player_x new_x) ;;
        assign (set_player_y new_y) ;;
        assign (fun g => set_stage_moves (stage_moves g + 1) g) ;;
        assign (fun g => set_total_moves (total_moves g + 1) g) ;;
        g' <- get_self ;;
        if (player_x g' =? end_x g') && (player_y g' =? end_y g')
        then stage_completed
        else ret tt
      else ret tt
  end.

(** [MazeGame.next_stage] *)
Definition next_stage : M unit :=
  assign (fun g => set_current_stage (current_stage g + 1) g) ;;
  g <- get_self ;;
  if current_stage g <=? total_stages g then
    _ <- load_stage (current_stage g) ;;
    ret tt
  else
    assign (set_game_state STATE_GAME_COMPLETE).

(** [MazeGame.restart_game] *)
Definition restart_game : M unit :=
  assign (set_current_stage 1) ;;
  assign (set_total_moves 0) ;;
  now <- time_time ;;
  assign (set_game_start_time now) ;;
  _ <- send_game_start ;;
  g <- get_self ;;
  _ <- load_stage (current_stage g) ;;
  ret tt.

(** [self.continue_button and self.continue_button.collidepoint(event.pos)] *)
Definition button_hit (g : MazeGame) (pos : Z * Z) : bool :=
  match continue_button g with
  | Some r => rect_truthy r && collidepoint r pos
  | None => false
  end.

(** The body of the loop of [MazeGame.handle_events], for one event. *)
Definition handle_event (event : PgEvent) : M unit :=
  g <- get_self ;;
  match event with
  | QUIT => assign (set_running false)
  | KEYDOWN key =>
      if GameState_eqb (game_state g) STATE_PLAYING
      then handle_movement key
      else ret tt
  | MOUSEBUTTONDOWN pos =>
      if GameState_eqb (game_state g) STATE_STAGE_COMPLETE then
        if button_hit g pos then next_stage else ret tt
      else if GameState_eqb (game_state g) STATE_GAME_COMPLETE then
        if button_hit g pos then restart_game else ret tt
      else ret tt
  | OTHER_EVENT => ret tt
  end.

(** [MazeGame.handle_events], on the events [pygame.event.get()] returned. *)
Fixpoint handle_events (events : list PgEvent) : M unit :=
  match events with
  | [] => ret tt
  | event :: rest => handle_event event ;; handle_events rest
  end.

(** [MazeGame.draw], as far as it touches the state: the maze view reads
    [self.maze[0]] and the clock, the two popups place the button and the
    game-complete popup reads the clock. *)
Definition draw_maze : M unit :=
  g <- get_self ;;
  _ <- lift (py_index (maze g) 0) ;;
  ret tt.

Definition draw_ui : M unit :=
  _ <- time_time ;; ret tt.

Definition draw_stage_complete_popup : M unit :=
  e <- get_env ;;
  let popup_height := 200 in
  let popup_y := (SCREEN_HEIGHT e - popup_height) / 2 in
  let button_width := 150 in
  let button_height := 40 in
  let button_x := (SCREEN_WIDTH e - button_width) / 2 in
  let button_y := popup_y + 140 in
  assign (set_continue_button
            (Some (mkRect button_x button_y button_width button_height))).

Definition draw_game_complete_popup : M unit :=
  e <- get_env ;;
  let popup_height := 300 in
  let popup_y := (SCREEN_HEIGHT e - popup_height) / 2 in
  _ <- time_time ;;
  let button_width := 180 in
  let button_height := 40 in
  let button_x := (SCREEN_WIDTH e - button_width) / 2 in
  let button_y := popup_y + 220 in
  assign (set_continue_button
            (Some (mkRect button_x button_y button_width button_height))).

Definition draw : M unit :=
  g <- get_self ;;
  match game_state g with
  | STATE_PLAYING => draw_maze ;; draw_ui
  | STATE_STAGE_COMPLETE => draw_stage_complete_popup
  | STATE_GAME_COMPLETE => draw_game_complete_popup
  end.

(** One turn of the loop of [MazeGame.run]. *)
Definition frame (events : list PgEvent) : M unit :=
  handle_events events ;; draw.

(* ================================================================== *)
(** ** The development client ([app/maze_game_local.py]) *)

Module LocalDev.

(** The rows [LocalDatabaseHandler.connect] inserts into [maze_stages]. *)
Definition stages : list StageData := [
  mkStageData 1 (lit "###########
#S........#
#.########.
#.........#
########.##
#.........#
#.#######.#
#.........E
###########") 11 9 1 1 9 7;
  mkStageData 2 (lit "#############
#S..........#
##.########.#
#..#......#.#
#.##.####.#.#
#....#....#.#
######.####.#
#...........E
#############") 13 9 1 1 11 7;
  mkStageData 3 (lit "###############
#S............#
#.###########.#
#.#.........#.#
#.#.#######.#.#
#...#.....#...#
#####.###.###.#
#.............#
#.###########.#
#...........E.#
###############") 15 11 1 1 12 9
].

(** The table behind the cursor; [None] before [connect]. *)
Definition LocalDatabaseHandler := option (list StageData).

Definition connect (db : LocalDatabaseHandler) : bool * LocalDatabaseHandler :=
  (true, Some stages).

(** [LocalDatabaseHandler.get_stage]: the row with that [stage_number],
    [None] when there is none or when the query raises. *)
Definition get_stage (db : LocalDatabaseHandler) (stage_number : Z)
  : option StageData :=
  match db with
  | None => None
  | Some rows => find (fun r => sd_stage_number r =? stage_number) rows
  end.

Record MazeGame := mkMazeGame {
  db_handler : LocalDatabaseHandler;
  current_stage : Z;
  total_stages : Z;
  stage_data : option StageData;
  maze : Maze;
  player_x : Z;
  player_y : Z;
  end_x : Z;
  end_y : Z;
  game_state : GameState;
  running : bool;
  continue_button : option Rect
}.

Definition new_game : MazeGame := {|
  db_handler := None;
  current_stage := 1;
  total_stages := 3;
  stage_data := None;
  maze := [];
  player_x := 0;
  player_y := 0;
  end_x := 0;
  end_y := 0;
  game_state := STATE_PLAYING;
  running := true;
  continue_button := None
|}.

(** [MazeGame.load_stage] *)
Definition load_stage (stage_number : Z) (g : MazeGame) : bool * MazeGame :=
  let data := get_stage (db_handler g) stage_number in
  match data with
  | None =>
      (false,
       mkMazeGame (db_handler g) (current_stage g) (total_stages g) data
         (maze g) (player_x g) (player_y g) (end_x g) (end_y g)
         (game_state g) (running g) (continue_button g))
  | Some sd =>
      (true,
       mkMazeGame (db_handler g) (current_stage g) (total_stages g) data
         (parse_layout (sd_layout sd))
         (sd_start_x sd) (sd_start_y sd) (sd_end_x sd) (sd_end_y sd)
         STATE_PLAYING (running g) (continue_button g))
  end.

(** [MazeGame.initialize] *)
Definition initialize (g : MazeGame) : bool * MazeGame :=
  let (ok, db) := connect (db_handler g) in
  let g' := mkMazeGame db (current_stage g) (total_stages g) (stage_data g)
              (maze g) (player_x g) (player_y g) (end_x g) (end_y g)
              (game_state g) (running g) (continue_button g) in
  if negb ok then (false, g') else load_stage (current_stage g') g'.

(** [MazeGame.is_valid_move] *)
Definition is_valid_move (g : MazeGame) (x y : Z) : Res bool :=
  if (y <? 0) || (y >=? len (maze g)) then Ok false
  else
    match py_index (maze g) y with
    | Raise e => Raise e
    | Ok row =>
        if (x <? 0) || (x >=? len row) then Ok false
        else
          match py_index (maze g) y with
          | Raise e => Raise e
          | Ok row' =>
              match py_index row' x with
              | Raise e => Raise e
              | Ok c => Ok (negb (c =? HASH)%N)
              end
          end
    end.

End LocalDev.

(* ================================================================== *)
(** ** Vocabulary of the specification *)

Inductive Direction := Up | Down | Left | Right.

Definition delta (d : Direction) : Z * Z :=
  match d with
  | Up => (0, -1)
  | Down => (0, 1)
  | Left => (-1, 0)
  | Right => (1, 0)
  end.

Definition key_of (d : Direction) : Z :=
  match d with
  | Up => K_UP
  | Down => K_DOWN
  | Left => K_LEFT
  | Right => K_RIGHT
  end.

Definition direction_of (key : Z) : option Direction :=
  if key =? K_UP then Some Up
  else if key =? K_DOWN then Some Down
  else if key =? K_LEFT then Some Left
  else if key =? K_RIGHT then Some Right
  else None.

(** [p + delta(d)] for the player's position [p]. *)
Definition target (g : MazeGame) (d : Direction) : Z * Z :=
  (player_x g + fst (delta d), player_y g + snd (delta d)).

Definition position (g : MazeGame) : Z * Z := (player_x g, player_y g).
Definition goal (g : MazeGame) : Z * Z := (end_x g, end_y g).

(** A pair of coordinates is in bounds when it addresses a cell; a cell is a
    wall when it holds ['#']; a destination is open when it is in bounds and
    not a wall. *)
Definition in_bounds (m : Maze) (x y : Z) : bool :=
  match cell_at m x y with Some _ => true | None => false end.

Definition is_wall (m : Maze) (x y : Z) : bool :=
  match cell_at m x y with Some c => (c =? HASH)%N | None => false end.

Definition is_open (m : Maze) (x y : Z) : bool :=
  in_bounds m x y && negb (is_wall m x y).

Inductive MoveOutcome := Moved | Rejected | ReachedGoal.

(** The outcome of a key press in a state: an arrow key whose destination is
    open is accepted, and reaches the goal when the destination is the goal;
    anything else is rejected. *)
Definition outcome (g : MazeGame) (key : Z) : MoveOutcome :=
  match direction_of key with
  | Some d =>
      let (x, y) := target g d in
      if is_open (maze g) x y then
        if (x =? end_x g) && (y =? end_y g) then ReachedGoal else Moved
      else Rejected
  | None => Rejected
  end.

Definition accepted (o : MoveOutcome) : bool :=
  match o with
  | Moved | ReachedGoal => true
  | Rejected => false
  end.

(** A sequence of key presses handed to [handle_movement], and the outcomes
    of the presses along the way. *)
Fixpoint handle_movements (keys : list Z) : M unit :=
  match keys with
  | [] => ret tt
  | key :: rest => handle_movement key ;; handle_movements rest
  end.

Fixpoint outcomes (keys : list Z) (w : World) : list MoveOutcome :=
  match keys with
  | [] => []
  | key :: rest =>
      outcome (self w) key ::
      match handle_movement key w with
      | Ok (_, w') => outcomes rest w'
      | Raise _ => []
      end
  end.

Definition count_accepted (os : list MoveOutcome) : Z :=
  len (filter accepted os).

(** The input events the state machine lists a transition for: an arrow key
    while playing, a click on the button of the stage-complete popup
    (continue) or of the game-complete popup (restart), and quitting. *)
Definition listed (g : MazeGame) (event : PgEvent) : bool :=
  match event with
  | QUIT => true
  | KEYDOWN key =>
      GameState_eqb (game_state g) STATE_PLAYING
      && match direction_of key with Some _ => true | None => false end
  | MOUSEBUTTONDOWN pos =>
      (GameState_eqb (game_state g) STATE_STAGE_COMPLETE
       || GameState_eqb (game_state g) STATE_GAME_COMPLETE)
      && button_hit g pos
  | OTHER_EVENT => false
  end.

(** The states of a run of the game: [initialize] succeeded in some
    environment, then events were handled and frames drawn. *)
Inductive reachable (e0 : Env) : World -> Prop :=
| reach_initialize w :
    initialize (mkWorld new_game e0) = Ok (true, w) -> reachable e0 w
| reach_event event w w' :
    reachable e0 w -> handle_event event w = Ok (tt, w') -> reachable e0 w'
| reach_draw w w' :
    reachable e0 w -> draw w = Ok (tt, w') -> reachable e0 w'.

Inductive Step := do_event (event : PgEvent) | do_draw.

Definition step (s : Step) : M unit :=
  match s with
  | do_event event => handle_event event
  | do_draw => draw
  end.

Fixpoint steps (ss : list Step) : M unit :=
  match ss with
  | [] => ret tt
  | s :: rest => step s ;; steps rest
  end.

(** The operations of the game object, called in any order. *)
Inductive Op :=
| op_handle_movement (key : Z)
| op_load_stage (stage_number : Z)
| op_next_stage
| op_restart_game.

Definition call (o : Op) : M unit :=
  match o with
  | op_handle_movement key => handle_movement key
  | op_load_stage n => _ <- load_stage n ;; ret tt
  | op_next_stage => next_stage
  | op_restart_game => restart_game
  end.

Fixpoint calls (os : list Op) : M unit :=
  match os with
  | [] => ret tt
  | o :: rest => call o ;; calls rest
  end.

(** Whether the level API answers the next request, for a stage. *)
Definition api_answers (e : Env) (stage_number : Z) : bool :=
  match level_api e (fetches e) stage_number with
  | Some _ => true
  | None => false
  end.

(** States reached from a fresh game object by calls of the four operations,
    and those reached by calls in which the load of every [restart_game]
    succeeded. *)
Inductive called (e0 : Env) : World -> Prop :=
| called_fresh : called e0 (mkWorld new_game e0)
| called_op o w w' :
    called e0 w -> call o w = Ok (tt, w') -> called e0 w'.

Inductive called_restart_loads (e0 : Env) : World -> Prop :=
| crl_fresh : called_restart_loads e0 (mkWorld new_game e0)
| crl_op o w w' :
    called_restart_loads e0 w ->
    (o = op_restart_game -> api_answers (env w) 1 = true) ->
    call o w = Ok (tt, w') ->
    called_restart_loads e0 w'.

(** Both clients answer [b] when asked whether a move to [(x, y)] is valid
    on the grid [m]. *)
Definition valid_move_is (m : Maze) (x y : Z) (b : bool) : Prop :=
  (forall g : MazeGame, maze g = m -> is_valid_move g x y = Ok b) /\
  (forall g : LocalDev.MazeGame,
      LocalDev.maze g = m -> LocalDev.is_valid_move g x y = Ok b).

(** The ways a pair of coordinates can miss the grid: a negative coordinate,
    a row that does not exist, a column beyond the end of the addressed row. *)
Definition out_of_bounds (m : Maze) (x y : Z) : Prop :=
  x < 0 \/ y < 0 \/ len m <= y \/
  exists row, nth_error m (Z.to_nat y) = Some row /\ len row <= x.

(** The game object after a served load: the level [sd] entered at the
    time [now]. *)
Definition entered (sd : StageData) (now : float) (g : MazeGame) : MazeGame :=
  set_game_state STATE_PLAYING
    (set_stage_moves 0
       (set_stage_start_time now
          (set_end_y (sd_end_y sd)
             (set_end_x (sd_end_x sd)
                (set_player_y (sd_start_y sd)
                   (set_player_x (sd_start_x sd)
                      (set_maze (parse_layout (sd_layout sd))
                         (set_stage_data (Some sd) g)))))))).

(** The game object after an accepted move to [(x, y)]. *)
Definition moved (g : MazeGame) (x y : Z) : MazeGame :=
  set_total_moves (total_moves g + 1)
    (set_stage_moves (stage_moves g + 1)
       (set_player_y y (set_player_x x g))).

(** What the operations can do to the game object. *)
Inductive move_effect (g : MazeGame) : MazeGame -> Prop :=
| move_rejected : move_effect g g
| move_moved x y : move_effect g (moved g x y)
| move_completed_stage x y :
    current_stage g < total_stages g ->
    move_effect g (set_game_state STATE_STAGE_COMPLETE (moved g x y))
| move_completed_game x y :
    total_stages g <= current_stage g ->
    move_effect g (set_game_state STATE_GAME_COMPLETE (moved g x y)).

Inductive load_effect (g : MazeGame) : bool -> MazeGame -> Prop :=
| load_failed : load_effect g false (set_stage_data None g)
| load_served sd now : load_effect g true (entered sd now g).

Inductive next_effect (g : MazeGame) : MazeGame -> Prop :=
| next_load b g' :
    current_stage g + 1 <= total_stages g ->
    load_effect (set_current_stage (current_stage g + 1) g) b g' ->
    next_effect g g'
| next_past_last :
    total_stages g < current_stage g + 1 ->
    next_effect g
      (set_game_state STATE_GAME_COMPLETE
         (set_current_stage (current_stage g + 1) g)).

Inductive restart_effect (g : MazeGame) : bool -> MazeGame -> Prop :=
| restart_load b now g' :
    load_effect
      (set_game_start_time now (set_total_moves 0 (set_current_stage 1 g)))
      b g' ->
    restart_effect g b g'.

(** The effect of a call, [served] telling whether the level API answers
    the request the call makes for a stage. *)
Definition op_effect (o : Op) (served : Z -> bool) (g g' : MazeGame) : Prop :=
  match o with
  | op_handle_movement _ => move_effect g g'
  | op_load_stage n => load_effect g (served n) g'
  | op_next_stage => next_effect g g'
  | op_restart_game => restart_effect g (served 1) g'
  end.

(** Whether the load of every [restart_game] among the calls [os], made from
    the world [w] on, is served. *)
Fixpoint restarts_served (os : list Op) (w : World) : bool :=
  match os with
  | [] => true
  | o :: rest =>
      match o with
      | op_restart_game => api_answers (env w) 1
      | _ => true
      end
      && match call o w with
         | Ok (_, w') => restarts_served rest w'
         | Raise _ => false
         end
  end.

(** The effect of one input event. *)
Definition event_effect (event : PgEvent) (g g' : MazeGame) : Prop :=
  match event with
  | QUIT => g' = set_running false g
  | KEYDOWN _ =>
      g' = g \/ (game_state g = STATE_PLAYING /\ move_effect g g')
  | MOUSEBUTTONDOWN _ =>
      g' = g \/
      (game_state g = STATE_STAGE_COMPLETE /\ next_effect g g') \/
      (game_state g = STATE_GAME_COMPLETE /\
       exists b, restart_effect g b g')
  | OTHER_EVENT => g' = g
  end.

(** The stage counter against the phase, for a game object whose most recent
    load was served ([stage_data] is set). *)
Definition stage_in_range (g : MazeGame) : Prop :=
  1 <= total_stages g /\
  (stage_data g <> None ->
   current_stage g <= total_stages g /\
   (game_state g = STATE_STAGE_COMPLETE ->
    current_stage g < total_stages g) /\
   (game_state g = STATE_GAME_COMPLETE ->
    current_stage g = total_stages g)).

(** The reading of the clock [n] readings from now. *)
Definition reading (e : Env) (n : nat) : float := clock e (ticks e + n).

(** The number of clock readings one telemetry call takes. *)
Definition send_ticks (e : Env) : nat := if queue_url e then 1 else 0.

(* ================================================================== *)
(** ** Concrete worlds *)

(** A clock that reads 0.0, 1.0, 2.0, ... *)
Definition seconds (n : nat) : float :=
  Nat.iter n (fun t => PrimFloat.add t 1%float) 0%float.

(** An 800x600 screen, the clock [seconds], no analytics queue, and a level
    API answering by [api]. *)
Definition env_of (api : nat -> Z -> option StageData) : Env := {|
  SCREEN_WIDTH := 800;
  SCREEN_HEIGHT := 600;
  clock := seconds;
  ticks := 0;
  level_api := api;
  fetches := 0;
  queue_url := false;
  sqs_accepts := fun _ => true;
  sqs_calls := 0;
  emitted := []
|}.

(** Scenario A of the specification: a corridor from (1,1) down to (1,3). *)
Definition corridor_rows : list str :=
  [lit "###"; lit "#S#"; lit "#.#"; lit "#E#"; lit "###"].

Definition corridor : StageData :=
  mkStageData 1 (join_nl corridor_rows) 3 5 1 1 1 3.

(** A level whose layout is the empty string. *)
Definition empty_level : StageData := mkStageData 1 [] 0 0 0 0 0 0.

Definition world_empty_level : World :=
  mkWorld new_game (env_of (fun _ _ => Some empty_level)).

(** A grid with rows of different lengths. *)
Definition ragged : Maze := [lit "#."; lit "#"].

(** A level API that answers the first [k] requests with [sd], whatever the
    stage, and fails afterwards. *)
Definition flaky (k : nat) (sd : StageData) : nat -> Z -> option StageData :=
  fun n _ => if (n <? k)%nat then Some sd else None.

(** The world after a fresh game object has loaded stage 1 from [api]. *)
Definition started (api : nat -> Z -> option StageData) : World :=
  let w := mkWorld new_game (env_of api) in
  match load_stage 1 w with
  | Ok (_, w') => w'
  | Raise _ => w
  end.

Definition loaded (sd : StageData) : World := started (fun _ _ => Some sd).

(** The development client after [initialize]. *)
Definition local_started : LocalDev.MazeGame :=
  snd (LocalDev.initialize LocalDev.new_game).

(** The corridor with the player one step above the goal, on stage 1 and on
    the last stage. *)
Definition corridor_before_goal : World :=
  match handle_movement K_DOWN (loaded corridor) with
  | Ok (_, w) => w
  | Raise _ => loaded corridor
  end.

Definition last_corridor_before_goal : World :=
  mkWorld (set_current_stage 10 (self corridor_before_goal))
    (env corridor_before_goal).

(** The corridor completed, with the popup drawn. *)
Definition corridor_completed : World :=
  match (handle_movement K_DOWN ;; draw) corridor_before_goal with
  | Ok (_, w) => w
  | Raise _ => corridor_before_goal
  end.

(** The world after a fresh game object, with the level API [api], has
    served the calls [os]. *)
Definition after_calls (api : nat -> Z -> option StageData) (os : list Op)
  : World :=
  let w := mkWorld new_game (env_of api) in
  match calls os w with
  | Ok (_, w') => w'
  | Raise _ => w
  end.

(** Three sequences of calls: a restart in the middle of a stage, the next
    stage entered and then a load (which the API [flaky 2] does not serve),
    and a restart after one move. *)
Definition restart_midway : list Op :=
  [op_load_stage 1; op_handle_movement K_DOWN; op_restart_game;
   op_handle_movement K_DOWN; op_next_stage].

Definition next_twice : list Op :=
  [op_load_stage 1; op_handle_movement K_DOWN; op_next_stage;
   op_handle_movement K_DOWN; op_load_stage 3].

Definition restart_last : list Op :=
  [op_load_stage 1; op_handle_movement K_DOWN; op_restart_game].

(** Playing the corridor: two steps down reach the goal; a click in the
    middle of the popup, once it is drawn, is the continue action. *)
Definition solve : list Step :=
  [do_event (KEYDOWN K_DOWN); do_event (KEYDOWN K_DOWN)].

Definition click : Step := do_event (MOUSEBUTTONDOWN (400, 360)).

Definition play_stage : list Step := solve ++ [do_draw; click].

(** Nine stages played and continued, then the last one solved. *)
Definition play_through : list Step :=
  List.concat (repeat play_stage 9) ++ solve.

(** Nine stages played and continued, then the button clicked once more. *)
Definition continue_twice : list Step :=
  List.concat (repeat play_stage 9) ++ [click].

(** A run: [initialize] on a fresh game object with the level API [api],
    then the steps [ss].  There is no run when [initialize] reports failure
    (the program exits) or when a step raises. *)
Definition run (api : nat -> Z -> option StageData) (ss : list Step)
  : option World :=
  match initialize (mkWorld new_game (env_of api)) with
  | Ok (true, w) =>
      match steps ss w with
      | Ok (_, w') => Some w'
      | Raise _ => None
      end
  | _ => None
  end.

Definition after_run (api : nat -> Z -> option StageData) (ss : list Step)
  : World :=
  match run api ss with
  | Some w => w
  | None => mkWorld new_game (env_of api)
  end.

Definition runs (api : nat -> Z -> option StageData) (ss : list Step)
  : bool :=
  match run api ss with
  | Some _ => true
  | None => false
  end.

(** A whole game played, then the button of the game-complete popup
    clicked. *)
Definition play_again : list Step :=
  play_through ++ [do_draw; do_event (MOUSEBUTTONDOWN (400, 380))].

(* ================================================================== *)
(** ** The operations as functions of the world *)

(** The environment after one reading of the clock, after one request to
    the level API, and after one telemetry call. *)
Definition ticked (e : Env) : Env := set_ticks (S (ticks e)) e.

Definition fetched (e : Env) : Env := set_fetches (S (fetches e)) e.

Definition sent (ev : Telemetry) (e : Env) : Env :=
  let e1 := set_emitted (emitted e ++ [ev]) e in
  if queue_url e then set_sqs_calls (S (sqs_calls e)) (ticked e1) else e1.

(** The world after [load_stage stage_number]. *)
Definition after_load (stage_number : Z) (w : World) : World :=
  match level_api (env w) (fetches (env w)) stage_number with
  | Some sd =>
      mkWorld (entered sd (clock (env w) (ticks (env w))) (self w))
        (ticked (fetched (env w)))
  | None => mkWorld (set_stage_data None (self w)) (fetched (env w))
  end.

(** The world after [stage_completed]. *)
Definition completed (w : World) : World :=
  let g := self w in
  let now := clock (env w) (ticks (env w)) in
  let e2 :=
    sent (level_complete (current_stage g)
            (PrimFloat.sub now (stage_start_time g)) (stage_moves g))
      (ticked (env w)) in
  if current_stage g >=? total_stages g then
    mkWorld (set_game_state STATE_GAME_COMPLETE g)
      (sent (game_complete
               (PrimFloat.sub (clock e2 (ticks e2)) (game_start_time g))
               (total_moves g))
         (ticked e2))
  else mkWorld (set_game_state STATE_STAGE_COMPLETE g) e2.

(** The world after [handle_movement key]. *)
Definition after_key (key : Z) (w : World) : World :=
  match direction_of key with
  | None => w
  | Some d =>
      let (x, y) := target (self w) d in
      if is_open (maze (self w)) x y then
        let w1 := mkWorld (moved (self w) x y) (env w) in
        if (x =? end_x (self w)) && (y =? end_y (self w))
        then completed w1
        else w1
      else w
  end.

(** The world after [next_stage] and after [restart_game]. *)
Definition after_next (w : World) : World :=
  let g1 := set_current_stage (current_stage (self w) + 1) (self w) in
  if current_stage g1 <=? total_stages g1
  then after_load (current_stage g1) (mkWorld g1 (env w))
  else mkWorld (set_game_state STATE_GAME_COMPLETE g1) (env w).

Definition after_restart (w : World) : World :=
  let g1 :=
    set_game_start_time (clock (env w) (ticks (env w)))
      (set_total_moves 0 (set_current_stage 1 (self w))) in
  after_load 1 (mkWorld g1 (sent game_start (ticked (env w)))).

(** The world after one input event. *)
Definition after_event (event : PgEvent) (w : World) : World :=
  match event with
  | QUIT => mkWorld (set_running false (self w)) (env w)
  | KEYDOWN key =>
      if GameState_eqb (game_state (self w)) STATE_PLAYING
      then after_key key w
      else w
  | MOUSEBUTTONDOWN pos =>
      match game_state (self w) with
      | STATE_PLAYING => w
      | STATE_STAGE_COMPLETE =>
          if button_hit (self w) pos then after_next w else w
      | STATE_GAME_COMPLETE =>
          if button_hit (self w) pos then after_restart w else w
      end
  | OTHER_EVENT => w
  end.

Fixpoint after_events (events : list PgEvent) (w : World) : World :=
  match events with
  | [] => w
  | event :: rest => after_events rest (after_event event w)
  end.

(** The buttons the two popups place. *)
Definition stage_complete_button (e : Env) : Rect :=
  mkRect ((SCREEN_WIDTH e - 150) / 2) ((SCREEN_HEIGHT e - 200) / 2 + 140)
    150 40.

Definition game_complete_button (e : Env) : Rect :=
  mkRect ((SCREEN_WIDTH e - 180) / 2) ((SCREEN_HEIGHT e - 300) / 2 + 220)
    180 40.

(** The world after [draw], when the maze view does not raise. *)
Definition after_draw (w : World) : World :=
  match game_state (self w) with
  | STATE_PLAYING => mkWorld (self w) (ticked (env w))
  | STATE_STAGE_COMPLETE =>
      mkWorld
        (set_continue_button (Some (stage_complete_button (env w))) (self w))
        (env w)
  | STATE_GAME_COMPLETE =>
      mkWorld
        (set_continue_button (Some (game_complete_button (env w))) (self w))
        (ticked (env w))
  end.

(** The result of [initialize]. *)
Definition after_initialize (w : World) : bool * World :=
  let e1 := fetched (env w) in
  if api_answers (env w) 1 then
    let g1 := set_game_start_time (clock e1 (ticks e1)) (self w) in
    let w1 := mkWorld g1 (sent game_start (ticked e1)) in
    (api_answers (env w1) (current_stage g1),
     after_load (current_stage g1) w1)
  else (false, mkWorld (self w) e1).

(* ================================================================== *)
(** ** The main loop *)

Definition is_quit (event : PgEvent) : bool :=
  match event with
  | QUIT => true
  | _ => false
  end.

(** [MazeGame.run], on the batches of events the successive calls of
    [pygame.event.get()] return: the loop is left when [running] is false,
    and here also when the batches are used up. *)
Fixpoint main_loop (batches : list (list PgEvent)) : M unit :=
  g <- get_self ;;
  if running g then
    match batches with
    | [] => ret tt
    | events :: rest => frame events ;; main_loop rest
    end
  else ret tt.

(** The frames of the batches, one after the other. *)
Fixpoint frames (batches : list (list PgEvent)) : M unit :=
  match batches with
  | [] => ret tt
  | events :: rest => frame events ;; frames rest
  end.

(* ================================================================== *)
(** ** Sequences of calls and of telemetry *)

(** The number of accepted moves among the calls [os] made from [w] on. *)
Fixpoint accepted_calls (os : list Op) (w : World) : Z :=
  match os with
  | [] => 0
  | o :: rest =>
      match o with
      | op_handle_movement key =>
          if accepted (outcome (self w) key) then 1 else 0
      | _ => 0
      end
      + match call o w with
        | Ok (_, w') => accepted_calls rest w'
        | Raise _ => 0
        end
  end.

Definition is_restart (o : Op) : bool :=
  match o with
  | op_restart_game => true
  | _ => false
  end.

(** The telemetry of a process: it starts with [game_start]; a stage ends
    with [level_complete], the last one with [level_complete] and then
    [game_complete], after which only a new [game_start] can follow.  The
    flag tells whether the trace ends with [game_complete]. *)
Inductive telemetry_trace : bool -> list Telemetry -> Prop :=
| trace_start : telemetry_trace false [game_start]
| trace_restart over t :
    telemetry_trace over t -> telemetry_trace false (t ++ [game_start])
| trace_stage t s d m :
    telemetry_trace false t ->
    telemetry_trace false (t ++ [level_complete s d m])
| trace_game t s d m d' m' :
    telemetry_trace false t ->
    telemetry_trace true (t ++ [level_complete s d m; game_complete d' m']).

(* ================================================================== *)
(** ** What play depends on *)

(** The game object without its two time stamps, and the part of the
    environment that is not the clock or the analytics queue. *)
Definition play (g : MazeGame) : MazeGame :=
  set_stage_start_time 0%float (set_game_start_time 0%float g).

Definition same_source (e1 e2 : Env) : Prop :=
  SCREEN_WIDTH e1 = SCREEN_WIDTH e2 /\
  SCREEN_HEIGHT e1 = SCREEN_HEIGHT e2 /\
  level_api e1 = level_api e2 /\
  fetches e1 = fetches e2.

(* ================================================================== *)
(** ** The steps of a run *)

(** What one event, or one draw, can do to the world. *)
Inductive run_step (w : World) : World -> Prop :=
| step_none : run_step w w
| step_quit : run_step w (mkWorld (set_running false (self w)) (env w))
| step_moved d :
    game_state (self w) = STATE_PLAYING ->
    is_open (maze (self w)) (fst (target (self w) d))
      (snd (target (self w) d)) = true ->
    run_step w
      (mkWorld
         (moved (self w) (fst (target (self w) d)) (snd (target (self w) d)))
         (env w))
| step_reached d :
    game_state (self w) = STATE_PLAYING ->
    is_open (maze (self w)) (fst (target (self w) d))
      (snd (target (self w) d)) = true ->
    target (self w) d = goal (self w) ->
    run_step w
      (completed
         (mkWorld (moved (self w) (end_x (self w)) (end_y (self w)))
            (env w)))
| step_next :
    game_state (self w) = STATE_STAGE_COMPLETE ->
    current_stage (self w) + 1 <= total_stages (self w) ->
    run_step w
      (after_load (current_stage (self w) + 1)
         (mkWorld
            (set_current_stage (current_stage (self w) + 1) (self w))
            (env w)))
| step_past_last :
    game_state (self w) = STATE_STAGE_COMPLETE ->
    total_stages (self w) < current_stage (self w) + 1 ->
    run_step w
      (mkWorld
         (set_game_state STATE_GAME_COMPLETE
            (set_current_stage (current_stage (self w) + 1) (self w)))
         (env w))
| step_restart :
    game_state (self w) = STATE_GAME_COMPLETE ->
    run_step w (after_restart w)
| step_draw : run_step w (after_draw w).

(* ================================================================== *)
(** ** More concrete worlds *)

(** The corridor as the first stage of a run, and two batches of events. *)
Definition corridor_run : World := after_run (fun _ _ => Some corridor) [].

Definition down_then_quit : list PgEvent :=
  [KEYDOWN K_DOWN; QUIT; KEYDOWN K_DOWN].

(** A level API that fails the request number [k] and answers every other
    one with [sd]. *)
Definition unserved_at (k : nat) (sd : StageData)
  : nat -> Z -> option StageData :=
  fun n _ => if (n =? k)%nat then None else Some sd.

(** The first stage solved, when the API is about to fail once. *)
Definition solved_before_failure : World :=
  after_run (unserved_at 2 corridor) solve.

(** The environment without its clock and its analytics queue, and the
    world without them and without the time stamps of the game object. *)
Definition bare_env (e : Env) : Env := {|
  SCREEN_WIDTH := SCREEN_WIDTH e;
  SCREEN_HEIGHT := SCREEN_HEIGHT e;
  clock := fun _ => 0%float;
  ticks := 0;
  level_api := level_api e;
  fetches := fetches e;
  queue_url := false;
  sqs_accepts := fun _ => false;
  sqs_calls := 0;
  emitted := []
|}.

Definition bare (w : World) : World :=
  mkWorld (play (self w)) (bare_env (env w)).

(** The middle of a rectangle. *)
Definition centre (r : Rect) : Z * Z :=
  (rect_left r + rect_width r / 2, rect_top r + rect_height r / 2).

(** The same corridor world with the analytics queue configured and another
    clock. *)
Definition corridor_run_with_queue : World :=
  let e := env corridor_run in
  mkWorld (set_game_start_time 7%float (self corridor_run))
    (mkEnv (SCREEN_WIDTH e) (SCREEN_HEIGHT e) (fun _ => 3%float) 5
       (level_api e) (fetches e) true (fun _ => false) 0
       [game_start; game_start]).

(* ================================================================== *)
(** ** The development client: the game loop *)

Module LocalGame.

Import LocalDev.

Definition set_current_stage (v : Z) (g : MazeGame) : MazeGame :=
  mkMazeGame (db_handler g) v (total_stages g) (stage_data g) (maze g)
    (player_x g) (player_y g) (end_x g) (end_y g) (game_state g)
    (running g) (continue_button g).

Definition set_player (x y : Z) (g : MazeGame) : MazeGame :=
  mkMazeGame (db_handler g) (current_stage g) (total_stages g)
    (stage_data g) (maze g) x y (end_x g) (end_y g) (game_state g)
    (running g) (continue_button g).

Definition set_game_state (v : GameState) (g : MazeGame) : MazeGame :=
  mkMazeGame (db_handler g) (current_stage g) (total_stages g)
    (stage_data g) (maze g) (player_x g) (player_y g) (end_x g) (end_y g)
    v (running g) (continue_button g).

Definition set_running (v : bool) (g : MazeGame) : MazeGame :=
  mkMazeGame (db_handler g) (current_stage g) (total_stages g)
    (stage_data g) (maze g) (player_x g) (player_y g) (end_x g) (end_y g)
    (game_state g) v (continue_button g).

Definition set_continue_button (v : option Rect) (g : MazeGame) : MazeGame :=
  mkMazeGame (db_handler g) (current_stage g) (total_stages g)
    (stage_data g) (maze g) (player_x g) (player_y g) (end_x g) (end_y g)
    (game_state g) (running g) v.

(** [MazeGame.stage_completed] *)
Definition stage_completed (g : MazeGame) : MazeGame :=
  if current_stage g >=? total_stages g
  then set_game_state STATE_GAME_COMPLETE g
  else set_game_state STATE_STAGE_COMPLETE g.

(** [MazeGame.handle_movement]: a key that is not an arrow key is not
    returned early here, its destination is the player's own cell. *)
Definition handle_movement (key : Z) (g : MazeGame) : Res MazeGame :=
  let new_x := player_x g in
  let new_y := player_y g in
  let (new_x, new_y) :=
    if key =? K_UP then (new_x, new_y - 1)
    else if key =? K_DOWN then (new_x, new_y + 1)
    else if key =? K_LEFT then (new_x - 1, new_y)
    else if key =? K_RIGHT then (new_x + 1, new_y)
    else (new_x, new_y) in
  match is_valid_move g new_x new_y with
  | Raise e => Raise e
  | Ok valid =>
      if valid then
        let g1 := set_player new_x new_y g in
        if (player_x g1 =? end_x g1) && (player_y g1 =? end_y g1)
        then Ok (stage_completed g1)
        else Ok g1
      else Ok g
  end.

(** [MazeGame.next_stage] *)
Definition next_stage (g : MazeGame) : MazeGame :=
  let g1 := set_current_stage (current_stage g + 1) g in
  if current_stage g1 <=? total_stages g1
  then snd (load_stage (current_stage g1) g1)
  else set_game_state STATE_GAME_COMPLETE g1.

(** [MazeGame.restart_game] *)
Definition restart_game (g : MazeGame) : MazeGame :=
  let g1 := set_current_stage 1 g in
  snd (load_stage (current_stage g1) g1).

Definition button_hit (g : MazeGame) (pos : Z * Z) : bool :=
  match continue_button g with
  | Some r => rect_truthy r && collidepoint r pos
  | None => false
  end.

(** The body of the loop of [MazeGame.handle_events], for one event. *)
Definition handle_event (event : PgEvent) (g : MazeGame) : Res MazeGame :=
  match event with
  | QUIT => Ok (set_running false g)
  | KEYDOWN key =>
      if GameState_eqb (game_state g) STATE_PLAYING
      then handle_movement key g
      else Ok g
  | MOUSEBUTTONDOWN pos =>
      if GameState_eqb (game_state g) STATE_STAGE_COMPLETE then
        if button_hit g pos then Ok (next_stage g) else Ok g
      else if GameState_eqb (game_state g) STATE_GAME_COMPLETE then
        if button_hit g pos then Ok (restart_game g) else Ok g
      else Ok g
  | OTHER_EVENT => Ok g
  end.

(** [MazeGame.draw], as far as it touches the state, on the 800x600 screen
    of this client. *)
Definition draw (g : MazeGame) : Res MazeGame :=
  match game_state g with
  | STATE_PLAYING =>
      match py_index (maze g) 0 with
      | Raise e => Raise e
      | Ok _ => Ok g
      end
  | STATE_STAGE_COMPLETE =>
      let popup_y := (600 - 200) / 2 in
      Ok (set_continue_button
            (Some (mkRect ((800 - 150) / 2) (popup_y + 140) 150 40)) g)
  | STATE_GAME_COMPLETE =>
      let popup_y := (600 - 250) / 2 in
      Ok (set_continue_button
            (Some (mkRect ((800 - 180) / 2) (popup_y + 180) 180 40)) g)
  end.

(** The states of a run of the development client. *)
Inductive reachable : MazeGame -> Prop :=
| reach_initialize g : initialize new_game = (true, g) -> reachable g
| reach_event event g g' :
    reachable g -> handle_event event g = Ok g' -> reachable g'
| reach_draw g g' : reachable g -> draw g = Ok g' -> reachable g'.

End LocalGame.

(** The two clients show the same board. *)
Definition same_board (g : MazeGame) (l : LocalDev.MazeGame) : Prop :=
  LocalDev.maze l = maze g /\
  LocalDev.player_x l = player_x g /\
  LocalDev.player_y l = player_y g /\
  LocalDev.end_x l = end_x g /\
  LocalDev.end_y l = end_y g /\
  LocalDev.current_stage l = current_stage g /\
  LocalDev.total_stages l = total_stages g /\
  LocalDev.game_state l = game_state g.

(** The development client standing on its goal while playing. *)
Definition local_on_goal : LocalDev.MazeGame :=
  LocalGame.set_player 9 7 local_started.

(** The development client in step with its table: connected, on a stage
    of the table whose level is the one loaded, with the phase matching the
    stage. *)
Definition local_in_step (g : LocalDev.MazeGame) : Prop :=
  LocalDev.db_handler g = Some LocalDev.stages /\
  LocalDev.total_stages g = 3 /\
  1 <= LocalDev.current_stage g <= 3 /\
  (exists sd,
      LocalDev.stage_data g = Some sd /\
      LocalDev.get_stage (Some LocalDev.stages) (LocalDev.current_stage g)
      = Some sd /\
      LocalDev.maze g = parse_layout (sd_layout sd)) /\
  (LocalDev.game_state g = STATE_STAGE_COMPLETE ->
   LocalDev.current_stage g < 3) /\
  (LocalDev.game_state g = STATE_GAME_COMPLETE ->
   LocalDev.current_stage g = 3).

(** An API client's game object showing the board of a development
    client. *)
Definition board_of (l : LocalDev.MazeGame) : MazeGame := {|
  current_stage := LocalDev.current_stage l;
  total_stages := LocalDev.total_stages l;
  stage_data := LocalDev.stage_data l;
  maze := LocalDev.maze l;
  player_x := LocalDev.player_x l;
  player_y := LocalDev.player_y l;
  end_x := LocalDev.end_x l;
  end_y := LocalDev.end_y l;
  game_state := LocalDev.game_state l;
  running := LocalDev.running l;
  stage_start_time := 0%float;
  stage_moves := 0;
  total_moves := 0;
  game_start_time := 0%float;
  continue_button := LocalDev.continue_button l
|}.

(** The rows of a layout as [strip] leaves them: the first without its
    leading white space, the last without its trailing white space. *)
Definition trim_ends (rows : list str) : list str :=
  match rows with
  | [] => []
  | [r] => [strip r]
  | r :: rest => lstrip r :: removelast rest ++ [rstrip (last rest [])]
  end.

(** A layout whose first row starts with an open cell written as a
    space. *)
Definition indented_rows : list str := [lit " #"; lit "##"].

(* ================================================================== *)
(** ** JSON documents *)

(** What [json.dumps] writes and [response.json()] reads. *)
#[warnings="-register-all"] Inductive Json :=
| JNull
| JBool (b : bool)
| JInt (n : Z)
| JFloat (f : float)
| JStr (s : str)
| JList (l : list Json)
| JObj (o : list (str * Json)).

Fixpoint str_eqb (a b : str) : bool :=
  match a, b with
  | [], [] => true
  | c :: a', d :: b' => (c =? d)%N && str_eqb a' b'
  | _, _ => false
  end.

(** The entry of a dictionary under a key. *)
Fixpoint lookup {V} (d : list (str * V)) (key : str) : option V :=
  match d with
  | [] => None
  | (k, v) :: d' => if str_eqb k key then Some v else lookup d' key
  end.

(** Truth value of a document in a condition. *)
Definition json_truthy (j : Json) : bool :=
  match j with
  | JNull => false
  | JBool b => b
  | JInt n => negb (n =? 0)
  | JFloat f => negb (f =? 0)%float
  | JStr s => match s with [] => false | _ => true end
  | JList l => match l with [] => false | _ => true end
  | JObj o => match o with [] => false | _ => true end
  end.

(** [str(n)] for an [int] *)
Definition str_of_int (n : Z) : str := lit (NilZero.string_of_int (Z.to_int n)).

Definition COLON : char := 58%N.     (* ':' *)
Definition SLASH : char := 47%N.     (* '/' *)

(** [s.split(sep)] for a separator of one character, as the first part and
    the parts after it. *)
Fixpoint split_parts (sep : char) (s : str) : str * list str :=
  match s with
  | [] => ([], [])
  | c :: s' =>
      let (r, rs) := split_parts sep s' in
      if (c =? sep)%N then ([], r :: rs) else (c :: r, rs)
  end.

Definition split_on (sep : char) (s : str) : list str :=
  let (r, rs) := split_parts sep s in r :: rs.

(** [s.rstrip(c)] for one character [c] *)
Fixpoint lstrip_char (c : char) (s : str) : str :=
  match s with
  | [] => []
  | d :: s' => if (d =? c)%N then lstrip_char c s' else s
  end.

Definition rstrip_char (c : char) (s : str) : str :=
  rev (lstrip_char c (rev s)).

(* ================================================================== *)
(** ** The level service ([lambda/lambda_function.py])

    The function behind [GET /level/{stage_number}].  Its module globals
    [db_connection] and [db_credentials_cache] live as long as the container
    that runs it, across invocations.

    The values it handles besides dictionaries are [None], integers and
    strings: a path parameter, a field of the database secret and a column of
    a [maze_stages] row is one of these, and the secret is a JSON object of
    such fields.  What the function cannot decide is the [Backend]: the
    environment variable [SECRET_ARN], Secrets Manager, and the PostgreSQL
    driver.  Each call on the backend is recorded in [calls], and the answer
    to a call may depend on how many calls were made before it.  Printing and
    the timing of the calls are left out; the event is the JSON document of
    the invocation and the context is the one of the Lambda runtime. *)

Module Lambda.

Inductive PyVal :=
| VNone
| VInt (n : Z)
| VStr (s : str).

Definition truthy (v : PyVal) : bool :=
  match v with
  | VNone => false
  | VInt n => negb (n =? 0)
  | VStr s => match s with [] => false | _ => true end
  end.

(** [type(v).__name__] *)
Definition type_name (v : PyVal) : str :=
  match v with
  | VNone => lit "NoneType"
  | VInt _ => lit "int"
  | VStr _ => lit "str"
  end.

(** [v] as an f-string formats it *)
Definition format (v : PyVal) : str :=
  match v with
  | VNone => lit "None"
  | VInt n => str_of_int n
  | VStr s => s
  end.

Definition json_of (v : PyVal) : Json :=
  match v with
  | VNone => JNull
  | VInt n => JInt n
  | VStr s => JStr s
  end.

Definition Dict := list (str * PyVal).

(** [d.get(key)] *)
Definition get (d : Dict) (key : string) : PyVal :=
  match lookup d (lit key) with
  | Some v => v
  | None => VNone
  end.

(** An exception, as the handler reports it: [type(e).__name__] and
    [str(e)]. *)
Record Exn := mkExn {
  exn_type : str;
  exn_message : str
}.

Definition ValueError (message : str) : Exn :=
  mkExn (lit "ValueError") message.

(** [KeyError(key)]: its text is the [repr] of the key. *)
Definition KeyError (key : string) : Exn :=
  mkExn (lit "KeyError") (lit "'" ++ lit key ++ lit "'").

(** Raised by [v.attr] when [v] has no such attribute. *)
Definition AttributeError (type : str) (attr : string) : Exn :=
  mkExn (lit "AttributeError")
        (lit "'" ++ type ++ lit "' object has no attribute '"
         ++ lit attr ++ lit "'").

Definition TypeError (message : str) : Exn :=
  mkExn (lit "TypeError") message.

Inductive Outcome (A : Type) : Type :=
| Return (a : A)
| Raised (e : Exn).
Arguments Return {A} a.
Arguments Raised {A} e.

(** [d[key]] *)
Definition getitem (d : Dict) (key : string) : Outcome PyVal :=
  match lookup d (lit key) with
  | Some v => Return v
  | None => Raised (KeyError key)
  end.

(** *** The backend *)

(** A connection object of the driver. *)
Definition Conn := nat.

(** The keyword arguments of [psycopg2.connect] ([connect_timeout] is
    always 10). *)
Record ConnectArgs := mkConnectArgs {
  host : str;
  port : PyVal;
  database : PyVal;
  user : PyVal;
  password : PyVal
}.

(** The row [fetchone] returns for the nine selected columns *)
Record Row := mkRow {
  row_stage_id : PyVal;
  row_stage_number : PyVal;
  row_layout : PyVal;
  row_width : PyVal;
  row_height : PyVal;
  row_start_x : PyVal;
  row_start_y : PyVal;
  row_end_x : PyVal;
  row_end_y : PyVal
}.

(** The calls on the backend: [get_secret_value(SecretId=...)] on a new
    Secrets Manager client; the probe [SELECT 1] on a new cursor of the
    pooled connection; [psycopg2.connect]; and the query for a stage on a new
    cursor, with [fetchone] and the closing of the cursor. *)
Inductive Call :=
| get_secret_value (SecretId : str)
| select_1 (connection : Conn)
| connect (kwargs : ConnectArgs)
| select_stage (connection : Conn) (stage_number : Z).

(** Lines 32-40: the parsed [SecretString]; a [ClientError] with its error
    code; or any other exception of the client, of the response or of
    [json.loads]. *)
Inductive SecretOutcome :=
| SecretString (secret : Dict)
| ClientError (error_code : str) (e : Exn)
| SecretRaises (e : Exn).

Inductive ConnectOutcome :=
| Connected (connection : Conn)
| OperationalError (e : Exn)
| ConnectRaises (e : Exn).

(** The row found, [None] when there is none, or the exception of the
    cursor. *)
Inductive QueryOutcome :=
| Fetched (result : option Row)
| QueryRaises (e : Exn).

Record Backend := mkBackend {
  SECRET_ARN : option str;
  secretsmanager : nat -> str -> SecretOutcome;
  alive : nat -> Conn -> bool;
  psycopg2_connect : nat -> ConnectArgs -> ConnectOutcome;
  fetch_stage : nat -> Conn -> Z -> QueryOutcome
}.

(** *** The container *)

Record Container := mkContainer {
  db_connection : option Conn;
  db_credentials_cache : option Dict;
  calls : list Call
}.

Definition set_db_connection (v : option Conn) (w : Container) : Container :=
  mkContainer v (db_credentials_cache w) (calls w).
Definition set_db_credentials_cache (v : option Dict) (w : Container)
    : Container :=
  mkContainer (db_connection w) v (calls w).
Definition set_calls (v : list Call) (w : Container) : Container :=
  mkContainer (db_connection w) (db_credentials_cache w) v.

(** The container before its first invocation *)
Definition cold : Container := mkContainer None None [].

(** A computation of the service returns or raises, and the globals keep
    what was assigned before an exception. *)
Definition M (A : Type) : Type := Container -> Outcome A * Container.

Definition ret {A} (a : A) : M A := fun w => (Return a, w).

Definition raise {A} (e : Exn) : M A := fun w => (Raised e, w).

Definition bind {A B} (c : M A) (k : A -> M B) : M B :=
  fun w => match c w with
           | (Return a, w') => k a w'
           | (Raised e, w') => (Raised e, w')
           end.

Declare Scope service_scope.
Delimit Scope service_scope with service.
Notation "x <- c ;; k" := (bind c (fun x => k))
  (at level 61, c at next level, right associativity) : service_scope.
Notation "c ;; k" := (bind c (fun _ => k))
  (at level 61, right associativity) : service_scope.
Open Scope service_scope.

Definition lift {A} (r : Outcome A) : M A :=
  match r with
  | Return a => ret a
  | Raised e => raise e
  end.

Definition global {A} (f : Container -> A) : M A := fun w => (Return (f w), w).

Definition assign (f : Container -> Container) : M unit :=
  fun w => (Return tt, f w).

(** A call on the backend: it is recorded, and answered according to the
    number of calls made before it. *)
Definition call {A} (c : Call) (answer : nat -> A) : M A :=
  fun w => (Return (answer (List.length (calls w))),
            set_calls (calls w ++ [c]) w).

(** Lines 79-91 of [get_db_connection]: the host without a port, and the
    fields of the secret in the order they are read. *)
Definition connect_kwargs (credentials : Dict) : Outcome ConnectArgs :=
  match getitem credentials "host" with
  | Raised e => Raised e
  | Return (VStr h) =>
      let host := hd [] (split_on COLON h) in
      match getitem credentials "port" with
      | Raised e => Raised e
      | Return port =>
      match getitem credentials "database" with
      | Raised e => Raised e
      | Return database =>
      match getitem credentials "username" with
      | Raised e => Raised e
      | Return username =>
      match getitem credentials "password" with
      | Raised e => Raised e
      | Return password =>
          Return (mkConnectArgs host port database username password)
      end end end end
  | Return v => Raised (AttributeError (type_name v) "split")
  end.

Definition CORS : list (str * str) :=
  [ (lit "Access-Control-Allow-Origin", lit "*");
    (lit "Access-Control-Allow-Headers", lit "Content-Type");
    (lit "Access-Control-Allow-Methods", lit "GET, OPTIONS");
    (lit "Content-Type", lit "application/json") ].

(** The dictionary the handler returns; [body] is the document given to
    [json.dumps]. *)
Record Response := mkResponse {
  statusCode : Z;
  headers : list (str * str);
  body : Json
}.

(** The three kinds of body *)
Definition error_body (error : str) : Json :=
  JObj [ (lit "error", JStr error) ].

Definition stage_data (result : Row) : list (str * Json) :=
  [ (lit "stage_id", json_of (row_stage_id result));
    (lit "stage_number", json_of (row_stage_number result));
    (lit "layout", json_of (row_layout result));
    (lit "width", json_of (row_width result));
    (lit "height", json_of (row_height result));
    (lit "start_x", json_of (row_start_x result));
    (lit "start_y", json_of (row_start_y result));
    (lit "end_x", json_of (row_end_x result));
    (lit "end_y", json_of (row_end_y result)) ].

Definition success_body (result : Row) : Json :=
  JObj [ (lit "success", JBool true); (lit "data", JObj (stage_data result)) ].

Definition internal_error_body (e : Exn) : Json :=
  JObj [ (lit "error", JStr (lit "Internal server error"));
         (lit "message", JStr (exn_message e));
         (lit "type", JStr (exn_type e)) ].

(** The event of an invocation: the handler reads one key of it, which API
    Gateway sets to the map of path parameters, or to [null] when the route
    has none; an event built by hand may lack the key. *)
Inductive PathParameters :=
| Absent
| Null
| Params (d : Dict).

Record Event := mkEvent {
  pathParameters : PathParameters
}.

Section Service.

(** The backend of the container, and [int] on strings: the integer a string
    is read as, or [None] where [int] raises [ValueError]. *)
Variable B : Backend.
Variable int_of_str : str -> option Z.

(** Lines 24-56 of [get_db_credentials]: the fetch from Secrets Manager *)
Definition fetch_db_credentials : M Dict :=
  match SECRET_ARN B with
  | None | Some [] =>
      raise (ValueError (lit "SECRET_ARN environment variable not set"))
  | Some secret_arn =>
      outcome <- call (get_secret_value secret_arn)
                      (fun k => secretsmanager B k secret_arn) ;;
      match outcome with
      | SecretString secret =>
          assign (set_db_credentials_cache (Some secret)) ;;
          ret secret
      | ClientError error_code e =>
          if str_eqb error_code (lit "ResourceNotFoundException") then
            raise (ValueError (lit "Secret not found: " ++ secret_arn))
          else if str_eqb error_code (lit "InvalidRequestException") then
            raise (ValueError (lit "Invalid request for secret: "
                               ++ secret_arn))
          else raise e
      | SecretRaises e => raise e
      end
  end.

Definition get_db_credentials : M Dict :=
  cache <- global db_credentials_cache ;;
  match cache with
  | Some ((_ :: _) as secret) => ret secret
  | _ => fetch_db_credentials
  end.

(** Lines 75-104 of [get_db_connection]: a new connection *)
Definition new_db_connection : M Conn :=
  credentials <- get_db_credentials ;;
  kwargs <- lift (connect_kwargs credentials) ;;
  outcome <- call (connect kwargs) (fun k => psycopg2_connect B k kwargs) ;;
  match outcome with
  | Connected connection =>
      assign (set_db_connection (Some connection)) ;;
      ret connection
  | OperationalError _ =>
      raise (ValueError (lit "Cannot connect to database at " ++ host kwargs
                         ++ lit ":" ++ format (port kwargs)
                         ++ lit " - Check VPC/Security Groups"))
  | ConnectRaises e => raise e
  end.

Definition get_db_connection : M Conn :=
  pooled <- global db_connection ;;
  match pooled with
  | Some connection =>
      ok <- call (select_1 connection) (fun k => alive B k connection) ;;
      if ok then ret connection
      else assign (set_db_connection None) ;; new_db_connection
  | None => new_db_connection
  end.

Definition bad_request (error : string) : Response :=
  mkResponse 400 CORS (error_body (lit error)).

(** [int(stage_number)] and the range check, inside the inner [try]: the
    number, or the response returned instead. *)
Definition validate (stage_number : PyVal) : M (Z + Response) :=
  let check n :=
    if (n <? 1) || (n >? 10)
    then ret (inr (bad_request "Stage number must be between 1 and 10"))
    else ret (inl n) in
  match stage_number with
  | VInt n => check n
  | VStr s =>
      match int_of_str s with
      | Some n => check n
      | None => ret (inr (bad_request "Invalid stage_number format"))
      end
  | VNone =>
      raise (TypeError (lit "int() argument must be a string, a bytes-like object or a real number, not 'NoneType'"))
  end.

(** Lines 162-220: the answer from the database *)
Definition from_database (stage_number : Z) : M Response :=
  connection <- get_db_connection ;;
  outcome <- call (select_stage connection stage_number)
                  (fun k => fetch_stage B k connection stage_number) ;;
  match outcome with
  | QueryRaises e => raise e
  | Fetched None =>
      ret (mkResponse 404 CORS
             (error_body (lit "Stage " ++ str_of_int stage_number
                          ++ lit " not found")))
  | Fetched (Some result) =>
      ret (mkResponse 200 CORS (success_body result))
  end.

(** The body of the outer [try] *)
Definition answer (event : Event) : M Response :=
  stage_number <-
    match pathParameters event with
    | Absent => ret VNone
    | Null => raise (AttributeError (lit "NoneType") "get")
    | Params d => ret (get d "stage_number")
    end ;;
  if negb (truthy stage_number) then
    ret (bad_request "Missing stage_number parameter")
  else
    checked <- validate stage_number ;;
    match checked with
    | inr response => ret response
    | inl stage_number => from_database stage_number
    end.

Definition lambda_handler (event : Event) (w : Container)
    : Response * Container :=
  match answer event w with
  | (Return response, w') => (response, w')
  | (Raised e, w') => (mkResponse 500 CORS (internal_error_body e), w')
  end.

(** The container after a sequence of invocations *)
Definition serve (events : list Event) (w : Container) : Container :=
  fold_left (fun w event => snd (lambda_handler event w)) events w.

End Service.

(** *** Vocabulary and examples *)

(** The container changed at most by new calls on the backend, each of them
    a [P]. *)
Definition grows (P : Call -> Prop) (w w' : Container) : Prop :=
  exists l, calls w' = calls w ++ l /\ Forall P l.

(** A call made with the credentials [secret]: not a fetch of the secret,
    and when it is a [connect], one with the fields of [secret]. *)
Definition uses (secret : Dict) (c : Call) : Prop :=
  match c with
  | get_secret_value _ => False
  | connect kwargs => connect_kwargs secret = Return kwargs
  | _ => True
  end.

Definition is_query (c : Call) : bool :=
  match c with
  | select_stage _ _ => true
  | _ => false
  end.

(** The call at position [i] of the trace shows that [c] is a live
    connection: the probe of [c] answered, or [connect] returned [c]. *)
Definition checks (B : Backend) (trace : list Call) (i : nat) (c : Conn)
    : Prop :=
  (nth_error trace i = Some (select_1 c) /\ alive B i c = true)
  \/ (exists kwargs, nth_error trace i = Some (connect kwargs)
                     /\ psycopg2_connect B i kwargs = Connected c).

(** The trace ends with a call that shows [c] to be a live connection. *)
Definition last_checks (B : Backend) (trace : list Call) (c : Conn) : Prop :=
  exists prefix last,
    trace = prefix ++ [last] /\ checks B trace (List.length prefix) c.

(** Every query of the trace is for a stage between 1 and 10, and is made
    on a connection that the call just before it showed to be live. *)
Definition sound (B : Backend) (trace : list Call) : Prop :=
  forall i c n,
    nth_error trace i = Some (select_stage c n) ->
    1 <= n <= 10 /\ exists j, i = S j /\ checks B trace j c.

(** The container has just queried stage [n] on [c], which stays pooled,
    and the backend answered [outcome]. *)
Definition queried (B : Backend) (w : Container) (c : Conn) (n : Z)
    (outcome : QueryOutcome) : Prop :=
  exists prefix,
    calls w = prefix ++ [select_stage c n]
    /\ db_connection w = Some c
    /\ fetch_stage B (List.length prefix) c n = outcome.

(** [int] for the examples, which use it on strings of ASCII digits, read
    in decimal, and on a word without digits, which has no reading. *)
Fixpoint digits (acc : Z) (s : str) : option Z :=
  match s with
  | [] => Some acc
  | c :: s' =>
      if ((48 <=? c) && (c <=? 57))%N
      then digits (10 * acc + Z.of_N (c - 48)) s'
      else None
  end.

Definition decimal (s : str) : option Z :=
  match s with
  | [] => None
  | _ => digits 0 s
  end.

Definition secret_1 : Dict :=
  [ (lit "host", VStr (lit "db.internal:5432"));
    (lit "port", VInt 5432);
    (lit "database", VStr (lit "maze"));
    (lit "username", VStr (lit "game"));
    (lit "password", VStr (lit "pw")) ].

Definition row_1 : Row :=
  mkRow (VInt 1) (VInt 1) (VStr (lit "###")) (VInt 3) (VInt 1)
        (VInt 0) (VInt 0) (VInt 2) (VInt 0).

(** A backend that works: the [k]-th call, when it is a [connect], returns
    connection [k]; the table holds stage 1 only. *)
Definition backend_1 : Backend :=
  mkBackend (Some (lit "arn:maze"))
            (fun _ _ => SecretString secret_1)
            (fun _ _ => true)
            (fun k _ => Connected k)
            (fun _ _ n => Fetched (if n =? 1 then Some row_1 else None)).

(** A backend whose secret is rotated after the first fetch and whose
    connections do not survive to the next invocation. *)
Definition secret_2 : Dict :=
  [ (lit "host", VStr (lit "db.internal"));
    (lit "port", VInt 5432);
    (lit "database", VStr (lit "maze"));
    (lit "username", VStr (lit "game"));
    (lit "password", VStr (lit "pw2")) ].

Definition backend_2 : Backend :=
  mkBackend (Some (lit "arn:maze"))
            (fun k _ => SecretString (if (k =? 0)%nat then secret_1
                                      else secret_2))
            (fun _ _ => false)
            (fun k _ => Connected k)
            (fun _ _ n => Fetched (if n =? 1 then Some row_1 else None)).

(** The event of [GET /level/<s>] *)
Definition level (s : string) : Event :=
  mkEvent (Params [ (lit "stage_number", VStr (lit s)) ]).

(** The container after one request for stage 1 on [backend_1] *)
Definition warm : Container :=
  snd (lambda_handler backend_1 decimal (level "1") cold).

Close Scope service_scope.

End Lambda.

(* ================================================================== *)
(** ** The level client ([app/api_client.py])

    [APIClient] holds the base URL of the API and makes one [GET] per level.
    What [requests.get] does is the [Transport]: it raises, or it returns a
    response with a status code whose body parses as JSON or does not. *)

Module APIClient.

Inductive Reply :=
| RequestFails
| Answers (status_code : Z) (json : option Json).

Definition Transport := str -> Reply.

(** [__init__]: the URL without its trailing slashes, or [None] for the
    [ValueError] raised when [API_GATEWAY_URL] is not set. *)
Definition init (API_GATEWAY_URL : option str) : option str :=
  match API_GATEWAY_URL with
  | None | Some [] => None
  | Some api_url => Some (rstrip_char SLASH api_url)
  end.

Definition url (api_url : str) (stage_number : Z) : str :=
  api_url ++ lit "/" ++ str_of_int stage_number.

(** [data.get(key)] on the parsed body: [None] also stands for [null]. *)
Definition get (data : list (str * Json)) (key : string) : option Json :=
  match lookup data (lit key) with
  | Some JNull => None
  | r => r
  end.

Definition get_level_data (requests_get : Transport) (api_url : str)
    (stage_number : Z) : option Json :=
  match requests_get (url api_url stage_number) with
  | RequestFails => None
  | Answers status_code json =>
      (* raise_for_status *)
      if (400 <=? status_code) && (status_code <? 600) then None
      else
        match json with
        | None => None
        | Some (JObj data) =>
            match get data "success" with
            | Some success =>
                if json_truthy success then get data "data" else None
            | None => None
            end
        | Some _ => None
        end
  end.

Definition test_connection (requests_get : Transport) (api_url : str) : bool :=
  match get_level_data requests_get api_url 1 with
  | Some _ => true
  | None => false
  end.

End APIClient.

(* ================================================================== *)
(** ** Proof steps *)

(** Rewrites the game object a call produced into the fields of the one it
    started from. *)
Ltac on_fields w :=
  repeat match goal with
         | H : _ = self _ |- _ => rewrite <- H in *; clear H
         end;
  destruct (self w); cbn in *.

(** Closes the conjuncts of [local_in_step] that are at hand, with [sd] the
    level loaded. *)
Ltac in_step sd :=
  unfold local_in_step; cbn;
  repeat split; try assumption; try lia; try discriminate;
  try (exists sd; repeat split; assumption).

(* ================================================================== *)
(** * Properties *)

(** ** Strings: [strip] and [split] *)

Lemma fold_append_rows (rows acc : list str) :
  fold_left (fun maze line => maze ++ [line]) rows acc = acc ++ rows.
Proof.
  revert acc; induction rows as [|r rows IH]; intros acc; cbn.
  - now rewrite app_nil_r.
  - rewrite IH, <- app_assoc. reflexivity.
Qed.

Lemma parse_layout_rows (layout : str) :
  parse_layout layout = split_nl (strip layout).
Proof. unfold parse_layout. apply fold_append_rows. Qed.

Lemma split_nl_length (s : str) :
  List.length (split_nl s) = S (count_nl s).
Proof.
  unfold split_nl, count_nl.
  induction s as [|c s IH]; cbn; [reflexivity|].
  destruct (split_rows s) as [r rs].
  destruct (N.eqb_spec c NL) as [->|ne]; cbn.
  - destruct (N.eq_dec NL NL); [|contradiction]. cbn in IH. now rewrite IH.
  - destruct (N.eq_dec c NL); [contradiction|]. exact IH.
Qed.

Lemma count_nl_app (a b : str) :
  count_nl (a ++ b) = (count_nl a + count_nl b)%nat.
Proof. apply count_occ_app. Qed.

Lemma count_nl_rev (s : str) : count_nl (rev s) = count_nl s.
Proof. apply count_occ_rev. Qed.

Lemma count_nl_absent (s : str) : ~ In NL s -> count_nl s = 0%nat.
Proof. intros H. now apply count_occ_not_In. Qed.

(** [lstrip] removes a white-space prefix and nothing else. *)
Lemma lstrip_prefix (s : str) :
  exists q, s = q ++ lstrip s /\ blank q = true.
Proof.
  induction s as [|c s (q & E & B)]; cbn.
  - exists []. split; reflexivity.
  - destruct (isspace c) eqn:W.
    + exists (c :: q). split; [cbn; now f_equal|].
      unfold blank in *. cbn. now rewrite W.
    + exists []. split; reflexivity.
Qed.

(** A character that is not white space stops [lstrip]: what comes after it
    is kept. *)
Lemma lstrip_keeps (a b : str) (c : char) :
  isspace c = false ->
  exists p q, lstrip (a ++ c :: b) = p ++ c :: b /\ a = q ++ p.
Proof.
  intros W. induction a as [|x a (p & q & E & A)]; cbn.
  - rewrite W. exists [], []. split; reflexivity.
  - destruct (isspace x).
    + exists p, (x :: q). split; [exact E|]. cbn. now f_equal.
    + exists (x :: a), []. split; reflexivity.
Qed.

Lemma lstrip_blank (s : str) : blank s = true -> lstrip s = [].
Proof.
  induction s as [|c s IH]; cbn; [reflexivity|].
  destruct (isspace c); cbn; [exact IH|discriminate].
Qed.

Lemma lstrip_app_blank (a b : str) :
  blank a = true -> lstrip (a ++ b) = lstrip b.
Proof.
  induction a as [|c a IH]; cbn; [reflexivity|].
  destruct (isspace c); cbn; [exact IH|discriminate].
Qed.

Lemma lstrip_app_not_blank (a b : str) :
  blank a = false -> lstrip (a ++ b) = lstrip a ++ b.
Proof.
  induction a as [|c a IH]; cbn; [discriminate|].
  destruct (isspace c); cbn; [exact IH|reflexivity].
Qed.

Lemma blank_rev (s : str) : blank (rev s) = blank s.
Proof.
  unfold blank. induction s as [|c s IH]; cbn; [reflexivity|].
  rewrite forallb_app, IH. cbn. rewrite andb_true_r. apply andb_comm.
Qed.

Lemma rstrip_app_blank (s w : str) :
  blank w = true -> rstrip (s ++ w) = rstrip s.
Proof.
  intros B. unfold rstrip. rewrite rev_app_distr, lstrip_app_blank; [reflexivity|].
  now rewrite blank_rev.
Qed.

(** White space appended to a string does not change what [strip] returns. *)
Lemma strip_app_blank (s w : str) :
  blank w = true -> strip (s ++ w) = strip s.
Proof.
  intros B. unfold strip. destruct (blank s) eqn:Bs.
  - rewrite lstrip_app_blank by exact Bs.
    rewrite (lstrip_blank w B), (lstrip_blank s Bs). reflexivity.
  - rewrite lstrip_app_not_blank by exact Bs. now apply rstrip_app_blank.
Qed.

Lemma strip_blank (s : str) : blank s = true -> strip s = [].
Proof. intros B. unfold strip. now rewrite lstrip_blank. Qed.

Lemma blank_false_split (r : str) :
  blank r = false ->
  exists a c b, r = a ++ c :: b /\ isspace c = false.
Proof.
  induction r as [|x r IH]; cbn; [discriminate|].
  destruct (isspace x) eqn:W; cbn.
  - intros B. destruct (IH B) as (a & c & b & -> & Wc).
    exists (x :: a), c, b. split; [reflexivity|exact Wc].
  - intros _. exists [], x, r. split; [reflexivity|exact W].
Qed.

Lemma blank_app (a b : str) : blank (a ++ b) = blank a && blank b.
Proof. apply forallb_app. Qed.

Lemma lstrip_head (s t : str) (c : char) :
  lstrip s = c :: t -> isspace c = false.
Proof.
  induction s as [|x s IH]; cbn; [discriminate|].
  destruct (isspace x) eqn:W; [exact IH|]. intros E. injection E as <- _.
  exact W.
Qed.

(** [strip] returns the string between a white-space prefix and a
    white-space suffix, and what it returns neither starts nor ends with
    white space. *)
Lemma strip_decompose (s : str) :
  exists q q',
    s = q ++ strip s ++ q' /\ blank q = true /\ blank q' = true /\
    (forall c t, strip s = c :: t -> isspace c = false) /\
    (forall c t, strip s = t ++ [c] -> isspace c = false).
Proof.
  destruct (lstrip_prefix s) as (q & E & B).
  destruct (lstrip_prefix (rev (lstrip s))) as (p & E' & B').
  exists q, (rev p). unfold strip, rstrip.
  split; [|split; [exact B|split; [now rewrite blank_rev|split]]].
  - rewrite <- rev_app_distr, <- E', rev_involutive. exact E.
  - intros c t H.
    destruct (blank (lstrip s)) eqn:Bl.
    + rewrite <- blank_rev in Bl. rewrite (lstrip_blank _ Bl) in H.
      discriminate.
    + destruct (blank_false_split _ Bl) as (a & x & b & Es & Wx).
      assert (rev (lstrip s) = rev b ++ x :: rev a) as Er
        by (rewrite Es, rev_app_distr; cbn; now rewrite <- app_assoc).
      destruct (lstrip_keeps (rev b) (rev a) x Wx) as (p1 & q1 & L & _).
      rewrite Er, L, rev_app_distr in H. cbn in H.
      rewrite rev_involutive, <- app_assoc in H.
      destruct a as [|y a]; cbn in H.
      * injection H as <- _. exact Wx.
      * injection H as <- _.
        apply (lstrip_head s (a ++ x :: b)). now rewrite Es.
  - intros c t H.
    apply (f_equal (@rev char)) in H.
    rewrite rev_involutive, rev_app_distr in H. cbn in H.
    exact (lstrip_head _ _ _ H).
Qed.

(** [lstrip] keeps the number of line breaks when a character that is not
    white space comes before the first of them. *)
Lemma count_nl_lstrip (a b : str) (c : char) :
  isspace c = false -> ~ In NL a ->
  count_nl (lstrip (a ++ c :: b)) = count_nl (a ++ c :: b).
Proof.
  intros W Ha. destruct (lstrip_keeps a b c W) as (p & q & -> & ->).
  rewrite !count_nl_app.
  rewrite (count_nl_absent q), (count_nl_absent p); [reflexivity| |];
    intros I; apply Ha, in_or_app; auto.
Qed.

(** [rstrip] keeps it when such a character comes after the last of them. *)
Lemma count_nl_rstrip (a b : str) (c : char) :
  isspace c = false -> ~ In NL a ->
  count_nl (rstrip (b ++ c :: a)) = count_nl (b ++ c :: a).
Proof.
  intros W Ha. unfold rstrip. rewrite count_nl_rev.
  rewrite <- (count_nl_rev (b ++ c :: a)).
  rewrite rev_app_distr. cbn. rewrite <- app_assoc. cbn.
  apply count_nl_lstrip; [exact W|]. now rewrite <- in_rev.
Qed.

Lemma count_nl_strip (s a b a' b' : str) (c c' : char) :
  s = a ++ c :: b -> isspace c = false -> ~ In NL a ->
  s = b' ++ c' :: a' -> isspace c' = false -> ~ In NL a' ->
  count_nl (strip s) = count_nl s.
Proof.
  intros E W Ha E' W' Ha'. unfold strip.
  destruct (lstrip_keeps b' a' c' W') as (p & q & L & _).
  rewrite <- E' in L. rewrite L, count_nl_rstrip by assumption.
  rewrite <- L, E. now apply count_nl_lstrip.
Qed.

(** The rows of [split]: joined by line breaks they give the string back,
    and none of them holds a line break. *)
Lemma join_nl_cons (r : str) (rs : list str) :
  join_nl (r :: rs) =
  r ++ match rs with [] => [] | _ :: _ => NL :: join_nl rs end.
Proof. destruct rs; cbn; [now rewrite app_nil_r|reflexivity]. Qed.

Lemma join_split (s : str) : join_nl (split_nl s) = s.
Proof.
  unfold split_nl. induction s as [|c s IH]; cbn; [reflexivity|].
  destruct (split_rows s) as [r rs].
  destruct (N.eqb_spec c NL) as [->|ne].
  - change (join_nl ([] :: r :: rs)) with (NL :: join_nl (r :: rs)).
    now rewrite IH.
  - rewrite join_nl_cons in *. cbn. now rewrite IH.
Qed.

Lemma split_rows_no_nl (s : str) :
  Forall (fun r => ~ In NL r) (split_nl s).
Proof.
  unfold split_nl. induction s as [|c s IH]; cbn.
  - repeat constructor. intros [].
  - destruct (split_rows s) as [r rs].
    destruct (N.eqb_spec c NL) as [->|ne].
    + constructor; [intros []|exact IH].
    + inversion IH as [|? ? Hr Hrs]; subst. constructor; [|exact Hrs].
      intros [E|I]; [now apply ne|now apply Hr].
Qed.

Lemma join_nl_snoc (rs : list str) (l : str) :
  exists pre, join_nl (rs ++ [l]) = pre ++ l.
Proof.
  induction rs as [|r rs (pre & E)].
  - exists []. reflexivity.
  - cbn [app]. rewrite join_nl_cons.
    destruct (rs ++ [l]) eqn:D; [now destruct rs|].
    rewrite E. exists (r ++ NL :: pre). now rewrite <- app_assoc.
Qed.

(** A string whose rows are all non-blank has as many rows after [strip]. *)
Lemma split_strip_length (s : str) :
  Forall (fun r => blank r = false) (split_nl s) ->
  List.length (split_nl (strip s)) = List.length (split_nl s).
Proof.
  intros NB. rewrite !split_nl_length. f_equal.
  pose proof (split_rows_no_nl s) as NN. pose proof (join_split s) as J.
  destruct (split_nl s) as [|r rs] eqn:D.
  { unfold split_nl in D. destruct (split_rows s); discriminate. }
  assert (exists a c b, s = a ++ c :: b /\ isspace c = false /\ ~ In NL a)
    as (a & c & b & E & W & Ha).
  { pose proof (Forall_inv NB) as Br. pose proof (Forall_inv NN) as Nr.
    cbn in Br, Nr. destruct (blank_false_split _ Br) as (a & c & b & -> & W).
    rewrite join_nl_cons, <- app_assoc in J. cbn in J.
    eexists a, c, _. split; [symmetry; exact J|]. split; [exact W|].
    intros I. apply Nr, in_or_app. now left. }
  assert (exists b' c' a', s = b' ++ c' :: a' /\ isspace c' = false
                           /\ ~ In NL a')
    as (b' & c' & a' & E' & W' & Ha').
  { destruct (@exists_last _ (r :: rs)) as (rs' & l & L); [discriminate|].
    rewrite L in *. apply Forall_app in NB as [_ Bl], NN as [_ Nl].
    pose proof (Forall_inv Bl) as Bl'. pose proof (Forall_inv Nl) as Nl'.
    cbn in Bl', Nl'. destruct (blank_false_split _ Bl') as (a0 & c' & a' & -> & W').
    destruct (join_nl_snoc rs' (a0 ++ c' :: a')) as (pre & P).
    rewrite P in J. exists (pre ++ a0), c', a'.
    split; [now rewrite <- app_assoc|]. split; [exact W'|].
    intros I. apply Nl', in_or_app. right. now right. }
  exact (count_nl_strip s a b a' b' c c' E W Ha E' W' Ha').
Qed.

Lemma split_rows_one (r : str) : ~ In NL r -> split_rows r = (r, []).
Proof.
  induction r as [|c r IH]; cbn; [reflexivity|]. intros H.
  rewrite IH by tauto.
  destruct (N.eqb_spec c NL) as [->|ne]; [tauto|reflexivity].
Qed.

Lemma split_rows_app (r s : str) :
  ~ In NL r -> split_rows (r ++ NL :: s) = (r, split_nl s).
Proof.
  unfold split_nl. induction r as [|c r IH]; cbn.
  - intros _. now destruct (split_rows s).
  - intros H. rewrite IH by tauto. destruct (split_rows s).
    destruct (N.eqb_spec c NL) as [->|ne]; [tauto|reflexivity].
Qed.

(** [split] undoes [join] on rows free of line breaks. *)
Lemma split_join (rows : list str) :
  rows <> [] -> Forall (fun r => ~ In NL r) rows ->
  split_nl (join_nl rows) = rows.
Proof.
  induction rows as [|r rows IH]; [congruence|]. intros _ F.
  inversion F as [|? ? Hr Hrs]; subst. rewrite join_nl_cons.
  destruct rows as [|r' rows].
  - rewrite app_nil_r. unfold split_nl. now rewrite split_rows_one.
  - unfold split_nl at 1. rewrite split_rows_app by exact Hr.
    rewrite IH; [reflexivity|discriminate|exact Hrs].
Qed.


(* ================================================================== *)
(** ** The stage loader *)

Lemma parse_layout_not_empty (layout : str) : 1 <= len (parse_layout layout).
Proof.
  rewrite parse_layout_rows. unfold len. rewrite split_nl_length. lia.
Qed.

Lemma load_stage_served (n : Z) (w : World) (sd : StageData) :
  level_api (env w) (fetches (env w)) n = Some sd ->
  load_stage n w =
  Ok (true,
      mkWorld (entered sd (clock (env w) (ticks (env w))) (self w))
        (set_ticks (S (ticks (env w)))
           (set_fetches (S (fetches (env w))) (env w)))).
Proof.
  intros H. destruct w as [g e]. cbn in H.
  unfold load_stage, get_level_data, time_time, bind, get_env, tell, assign,
    ret. cbn. rewrite H. destruct e; reflexivity.
Qed.

Lemma load_stage_unserved (n : Z) (w : World) :
  level_api (env w) (fetches (env w)) n = None ->
  load_stage n w =
  Ok (false,
      mkWorld (set_stage_data None (self w))
        (set_fetches (S (fetches (env w))) (env w))).
Proof.
  intros H. destruct w as [g e]. cbn in H.
  unfold load_stage, get_level_data, bind, get_env, tell, assign, ret.
  cbn. rewrite H. reflexivity.
Qed.

(** C7. A layout all of whose rows are non-blank parses to a grid with as
    many rows as the layout has: for a layout string taken as it is, with its
    rows those of [split('\n')], and for the layout joined from [H >= 1]
    given non-blank rows.  A layout followed by a trailing blank line (a line
    break and then nothing but white space) parses to the same grid as the
    layout alone. *)
Theorem parse_layout_height_and_trailing_blank :
  (forall layout : str,
      Forall (fun r => blank r = false) (split_nl layout) ->
      len (parse_layout layout) = len (split_nl layout)) /\
  (forall rows : list str,
      rows <> [] ->
      Forall (fun r => ~ In NL r /\ blank r = false) rows ->
      len (parse_layout (join_nl rows)) = len rows) /\
  (forall layout w : str,
      blank w = true ->
      parse_layout (layout ++ NL :: w) = parse_layout layout).
Proof.
  assert (forall layout : str,
             Forall (fun r => blank r = false) (split_nl layout) ->
             len (parse_layout layout) = len (split_nl layout)) as Height.
  { intros layout NB. rewrite parse_layout_rows. unfold len.
    now rewrite split_strip_length. }
  split; [exact Height|split].
  - intros rows NE F.
    assert (split_nl (join_nl rows) = rows) as S.
    { apply split_join; [exact NE|]. eapply Forall_impl; [|exact F].
      cbn. tauto. }
    rewrite Height; rewrite S; [reflexivity|].
    eapply Forall_impl; [|exact F]. cbn. tauto.
  - intros layout w B. rewrite !parse_layout_rows.
    rewrite strip_app_blank; [reflexivity|]. cbn. exact B.
Qed.

Lemma parse_layout_height_and_trailing_blank_witness :
  len (parse_layout (join_nl corridor_rows)) = 5 /\
  parse_layout (join_nl corridor_rows ++ NL :: lit "  ")
  = parse_layout (join_nl corridor_rows).
Proof.
  destruct parse_layout_height_and_trailing_blank as (_ & Rows & Trailing).
  split.
  - apply (Rows corridor_rows); [discriminate|].
    repeat constructor; cbn; intuition discriminate.
  - apply (Trailing (join_nl corridor_rows) (lit "  ")). reflexivity.
Defined.

(** C5, as the code has it.  Parsing never yields zero rows and rejects no
    layout: an empty or all-blank layout parses to the grid of one empty row,
    and whenever the level API returns a level the load reports success, with
    the parsed layout as the grid. *)
Theorem load_stage_accepts_every_layout :
  (forall layout : str, 1 <= len (parse_layout layout)) /\
  (forall layout : str, blank layout = true -> parse_layout layout = [[]]) /\
  (forall (n : Z) (w : World) (sd : StageData),
      level_api (env w) (fetches (env w)) n = Some sd ->
      exists w',
        load_stage n w = Ok (true, w') /\
        maze (self w') = parse_layout (sd_layout sd) /\
        game_state (self w') = STATE_PLAYING).
Proof.
  split; [exact parse_layout_not_empty|split].
  - intros layout B. rewrite parse_layout_rows, strip_blank by exact B.
    reflexivity.
  - intros n w sd H. rewrite (load_stage_served n w sd H).
    eexists. split; [reflexivity|]. destruct w as [[] e]. split; reflexivity.
Qed.

Lemma load_stage_accepts_every_layout_witness :
  parse_layout (lit "  ") = [[]] /\
  exists w',
    load_stage 1 world_empty_level = Ok (true, w') /\
    maze (self w') = parse_layout (sd_layout empty_level) /\
    game_state (self w') = STATE_PLAYING.
Proof.
  destruct load_stage_accepts_every_layout as (_ & Blank & Served).
  split.
  - apply (Blank (lit "  ")). reflexivity.
  - apply (Served 1 world_empty_level empty_level). reflexivity.
Defined.

(** C5 as the specification states it fails: for the empty layout the load
    reports success and produces a grid, of one empty row. *)
Lemma load_stage_empty_layout_succeeds :
  blank (sd_layout empty_level) = true /\
  exists w',
    load_stage 1 world_empty_level = Ok (true, w') /\
    maze (self w') = [[]] /\
    game_state (self w') = STATE_PLAYING.
Proof.
  split; [reflexivity|].
  eexists. split; [vm_compute; reflexivity|]. split; reflexivity.
Qed.

(* ================================================================== *)
(** ** The movement validator *)

Lemma py_index_in_range {A} (l : list A) (i : Z) :
  0 <= i < len l ->
  exists a, nth_error l (Z.to_nat i) = Some a /\ py_index l i = Ok a.
Proof.
  intros [Lo Hi]. unfold py_index.
  destruct (i <? 0) eqn:N; [apply Z.ltb_lt in N; lia|]. rewrite N. cbn.
  destruct (i >=? len l) eqn:G; [rewrite Z.geb_le in G; lia|].
  destruct (nth_error l (Z.to_nat i)) as [a|] eqn:E.
  - exists a. split; reflexivity.
  - apply nth_error_None in E. unfold len in Hi. lia.
Qed.

Lemma cell_at_row (m : Maze) (x y : Z) (row : list char) :
  0 <= y -> nth_error m (Z.to_nat y) = Some row ->
  cell_at m x y = if x <? 0 then None else nth_error row (Z.to_nat x).
Proof.
  intros Y R. unfold cell_at. rewrite R.
  destruct (x <? 0); cbn; [reflexivity|].
  destruct (y <? 0) eqn:N; [apply Z.ltb_lt in N; lia|reflexivity].
Qed.

Lemma cell_at_no_row (m : Maze) (x y : Z) :
  y < 0 \/ len m <= y -> cell_at m x y = None.
Proof.
  intros H. unfold cell_at.
  destruct (x <? 0); cbn; [reflexivity|].
  destruct (y <? 0) eqn:N; [reflexivity|]. apply Z.ltb_ge in N.
  destruct (nth_error m (Z.to_nat y)) eqn:E; [|reflexivity].
  assert (nth_error m (Z.to_nat y) <> None) as NE by congruence.
  apply nth_error_Some in NE. unfold len in H. lia.
Qed.

Example py_index_examples :
  py_index [10; 20; 30] 2 = Ok 30 /\
  py_index [10; 20; 30] (-1) = Ok 30 /\
  py_index [10; 20; 30] 3 = Raise IndexError /\
  py_index [10; 20; 30] (-4) = Raise IndexError.
Proof. repeat split. Qed.

(** Both versions of [is_valid_move] return, and return whether the cell is
    open. *)
Lemma valid_move_is_open (m : Maze) (x y : Z) :
  valid_move_is m x y (is_open m x y).
Proof.
  assert (forall r : Res bool,
             r = (if (y <? 0) || (y >=? len m) then Ok false
                  else match py_index m y with
                       | Raise e => Raise e
                       | Ok row =>
                           if (x <? 0) || (x >=? len row) then Ok false
                           else match py_index m y with
                                | Raise e => Raise e
                                | Ok row' =>
                                    match py_index row' x with
                                    | Raise e => Raise e
                                    | Ok c => Ok (negb (c =? HASH)%N)
                                    end
                                end
                       end) ->
             r = Ok (is_open m x y)) as Core.
  { intros r ->. unfold is_open, in_bounds, is_wall.
    destruct ((y <? 0) || (y >=? len m)) eqn:Y.
    - rewrite cell_at_no_row; [reflexivity|].
      apply orb_true_iff in Y as [Y|Y];
        [apply Z.ltb_lt in Y|rewrite Z.geb_le in Y]; lia.
    - apply orb_false_iff in Y as [Y1 Y2].
      apply Z.ltb_ge in Y1. rewrite Z.geb_leb in Y2. apply Z.leb_gt in Y2.
      destruct (py_index_in_range m y (conj Y1 Y2)) as (row & R & ->).
      rewrite (cell_at_row m x y row Y1 R).
      destruct (x <? 0) eqn:X1; cbn; [reflexivity|]. apply Z.ltb_ge in X1.
      destruct (x >=? len row) eqn:X2.
      + rewrite Z.geb_le in X2.
        assert (nth_error row (Z.to_nat x) = None) as ->; [|reflexivity].
        apply nth_error_None. unfold len in X2. lia.
      + rewrite Z.geb_leb in X2. apply Z.leb_gt in X2.
        destruct (py_index_in_range row x (conj X1 X2)) as (c & C & ->).
        rewrite C. reflexivity. }
  split; intros g <-; apply Core; reflexivity.
Qed.

Lemma in_bounds_false_iff (m : Maze) (x y : Z) :
  in_bounds m x y = false <-> out_of_bounds m x y.
Proof.
  unfold in_bounds, out_of_bounds.
  destruct (Z.ltb_spec y 0) as [Y|Y].
  { rewrite cell_at_no_row by lia. intuition lia. }
  destruct (nth_error m (Z.to_nat y)) as [row|] eqn:R.
  - rewrite (cell_at_row m x y row Y R).
    assert (y < len m) as Hy.
    { assert (nth_error m (Z.to_nat y) <> None) as NE by congruence.
      apply nth_error_Some in NE. unfold len. lia. }
    destruct (Z.ltb_spec x 0) as [X|X]; [intuition lia|].
    destruct (nth_error row (Z.to_nat x)) as [c|] eqn:C.
    + assert (x < len row) as Hx.
      { assert (nth_error row (Z.to_nat x) <> None) as NE by congruence.
        apply nth_error_Some in NE. unfold len. lia. }
      split; [discriminate|].
      intros [H|[H|[H|(row' & R' & H)]]]; try lia.
      assert (row' = row) as -> by congruence. lia.
    + split; [intros _|reflexivity]. right; right; right.
      exists row. split; [reflexivity|].
      apply nth_error_None in C. unfold len. lia.
  - apply nth_error_None in R. rewrite cell_at_no_row by (unfold len; lia).
    split; [intros _|reflexivity]. right; right; left. unfold len. lia.
Qed.

(** C6. [is_valid_move] is total, in both clients: for coordinates out of
    bounds (a negative coordinate, a row that does not exist, a column beyond
    the end of the addressed row of a ragged grid) it returns [False] and
    raises nothing, for a wall inside the grid it returns [False], and for
    any other cell inside the grid it returns [True]. *)
Theorem is_valid_move_total (m : Maze) (x y : Z) :
  (out_of_bounds m x y -> valid_move_is m x y false) /\
  (in_bounds m x y = true -> is_wall m x y = true ->
   valid_move_is m x y false) /\
  (in_bounds m x y = true -> is_wall m x y = false ->
   valid_move_is m x y true) /\
  (out_of_bounds m x y \/ in_bounds m x y = true).
Proof.
  pose proof (valid_move_is_open m x y) as V. unfold is_open in V.
  split; [|split; [|split]].
  - intros O. apply in_bounds_false_iff in O. now rewrite O in V.
  - intros B W. now rewrite B, W in V.
  - intros B W. now rewrite B, W in V.
  - destruct (in_bounds m x y) eqn:B; [now right|left].
    now apply in_bounds_false_iff.
Qed.

Lemma is_valid_move_total_witness :
  valid_move_is ragged 1 1 false /\
  valid_move_is ragged (-1) 0 false /\
  valid_move_is ragged 0 0 false /\
  valid_move_is ragged 1 0 true.
Proof.
  split; [|split; [|split]].
  - apply (proj1 (is_valid_move_total ragged 1 1)).
    right; right; right. exists (lit "#"). split; [reflexivity|].
    vm_compute. discriminate.
  - apply (proj1 (is_valid_move_total ragged (-1) 0)). left. lia.
  - apply (proj1 (proj2 (is_valid_move_total ragged 0 0))); reflexivity.
  - apply (proj1 (proj2 (proj2 (is_valid_move_total ragged 1 0))));
      reflexivity.
Defined.

Lemma is_valid_move_open (g : MazeGame) (x y : Z) :
  is_valid_move g x y = Ok (is_open (maze g) x y).
Proof. now apply (valid_move_is_open (maze g) x y). Qed.

Lemma destination_target (g : MazeGame) (key : Z) :
  destination g key = option_map (target g) (direction_of key).
Proof.
  unfold destination, direction_of, target.
  destruct (key =? K_UP); [cbn; f_equal; f_equal; lia|].
  destruct (key =? K_DOWN); [cbn; f_equal; f_equal; lia|].
  destruct (key =? K_LEFT); [cbn; f_equal; f_equal; lia|].
  destruct (key =? K_RIGHT); [cbn; f_equal; f_equal; lia|].
  reflexivity.
Qed.

Lemma direction_of_key (d : Direction) : direction_of (key_of d) = Some d.
Proof. destruct d; reflexivity. Qed.

(** What [stage_completed] does: the phase, and the telemetry. *)
Lemma stage_completed_final (w : World) :
  (current_stage (self w) >=? total_stages (self w)) = true ->
  exists e',
    stage_completed w =
    Ok (tt, mkWorld (set_game_state STATE_GAME_COMPLETE (self w)) e') /\
    emitted e' =
    emitted (env w) ++
    [level_complete (current_stage (self w))
       (PrimFloat.sub (reading (env w) 0) (stage_start_time (self w)))
       (stage_moves (self w));
     game_complete
       (PrimFloat.sub (reading (env w) (1 + send_ticks (env w)))
          (game_start_time (self w)))
       (total_moves (self w))] /\
    level_api e' = level_api (env w) /\ fetches e' = fetches (env w).
Proof.
  intros H. destruct w as [g e]. cbn in H.
  unfold stage_completed, send_level_complete, send_game_complete, send,
    time_time, bind, get_env, get_self, tell, assign, ret, reading,
    send_ticks.
  cbn. destruct e as [sw sh ck tk api ft q acc sc em]. cbn.
  destruct q; cbn; rewrite H; cbn; destruct g; cbn;
    (eexists; split; [reflexivity|]); cbn; rewrite <- app_assoc;
    rewrite ?Nat.add_succ_r, ?Nat.add_0_r; repeat split.
Qed.

Lemma stage_completed_intermediate (w : World) :
  (current_stage (self w) >=? total_stages (self w)) = false ->
  exists e',
    stage_completed w =
    Ok (tt, mkWorld (set_game_state STATE_STAGE_COMPLETE (self w)) e') /\
    emitted e' =
    emitted (env w) ++
    [level_complete (current_stage (self w))
       (PrimFloat.sub (reading (env w) 0) (stage_start_time (self w)))
       (stage_moves (self w))] /\
    level_api e' = level_api (env w) /\ fetches e' = fetches (env w).
Proof.
  intros H. destruct w as [g e]. cbn in H.
  unfold stage_completed, send_level_complete, send,
    time_time, bind, get_env, get_self, tell, assign, ret, reading.
  cbn. destruct e as [sw sh ck tk api ft q acc sc em]. cbn.
  destruct q; cbn; rewrite H; cbn; destruct g; cbn;
    (eexists; split; [reflexivity|]); cbn;
    rewrite ?Nat.add_0_r; repeat split.
Qed.

(** What [handle_movement] does, by the outcome of the key. *)
Lemma handle_movement_other_key (key : Z) (w : World) :
  direction_of key = None -> handle_movement key w = Ok (tt, w).
Proof.
  intros D. unfold handle_movement, bind, get_self. cbn.
  rewrite destination_target, D. reflexivity.
Qed.

Lemma handle_movement_blocked (key : Z) (d : Direction) (w : World) :
  direction_of key = Some d ->
  is_open (maze (self w)) (fst (target (self w) d)) (snd (target (self w) d))
  = false ->
  handle_movement key w = Ok (tt, w).
Proof.
  intros D O. unfold handle_movement, bind, get_self, lift. cbn.
  rewrite destination_target, D. cbn.
  rewrite is_valid_move_open. cbn in O. rewrite O. reflexivity.
Qed.

Lemma handle_movement_open (key : Z) (d : Direction) (w : World) :
  direction_of key = Some d ->
  is_open (maze (self w)) (fst (target (self w) d)) (snd (target (self w) d))
  = true ->
  handle_movement key w =
  let (x, y) := target (self w) d in
  let w' := mkWorld (moved (self w) x y) (env w) in
  if (x =? end_x (self w)) && (y =? end_y (self w))
  then stage_completed w'
  else Ok (tt, w').
Proof.
  intros D O. unfold handle_movement, bind, get_self, lift. cbn.
  rewrite destination_target, D. cbn.
  rewrite is_valid_move_open. cbn in O. rewrite O.
  destruct w as [g e]. destruct g. cbn.
  destruct (_ && _); reflexivity.
Qed.

Lemma stage_completed_self (w : World) :
  exists st e',
    stage_completed w = Ok (tt, mkWorld (set_game_state st (self w)) e').
Proof.
  destruct (current_stage (self w) >=? total_stages (self w)) eqn:H.
  - destruct (stage_completed_final w H) as (e' & E & _). eauto.
  - destruct (stage_completed_intermediate w H) as (e' & E & _). eauto.
Qed.

Lemma outcome_arrow (g : MazeGame) (key : Z) (d : Direction) :
  direction_of key = Some d ->
  outcome g key =
  if is_open (maze g) (fst (target g d)) (snd (target g d)) then
    if (fst (target g d) =? end_x g) && (snd (target g d) =? end_y g)
    then ReachedGoal else Moved
  else Rejected.
Proof. intros D. unfold outcome. rewrite D. reflexivity. Qed.

Lemma outcome_other_key (g : MazeGame) (key : Z) :
  direction_of key = None -> outcome g key = Rejected.
Proof. intros D. unfold outcome. now rewrite D. Qed.

(** C1. For an arrow key of direction [d] and the player at [p],
    [handle_movement] returns and leaves the player at [p + delta d] when
    that cell is in bounds and not a wall, and at [p] when it is a wall or
    out of bounds; the grid is the same afterwards. *)
Theorem handle_movement_moves_player (w : World) (d : Direction) :
  exists w',
    handle_movement (key_of d) w = Ok (tt, w') /\
    maze (self w') = maze (self w) /\
    (in_bounds (maze (self w)) (fst (target (self w) d))
       (snd (target (self w) d)) = true ->
     is_wall (maze (self w)) (fst (target (self w) d))
       (snd (target (self w) d)) = false ->
     position (self w') = target (self w) d) /\
    (is_wall (maze (self w)) (fst (target (self w) d))
       (snd (target (self w) d)) = true \/
     out_of_bounds (maze (self w)) (fst (target (self w) d))
       (snd (target (self w) d)) ->
     position (self w') = position (self w)).
Proof.
  pose proof (direction_of_key d) as D.
  destruct (is_open (maze (self w)) (fst (target (self w) d))
              (snd (target (self w) d))) eqn:O.
  - rewrite (handle_movement_open _ d w D O).
    assert (exists w', (let (x, y) := target (self w) d in
                        let w' := mkWorld (moved (self w) x y) (env w) in
                        if (x =? end_x (self w)) && (y =? end_y (self w))
                        then stage_completed w' else Ok (tt, w'))
                       = Ok (tt, w') /\
                       maze (self w') = maze (self w) /\
                       position (self w') = target (self w) d)
      as (w' & E & Mz & P).
    { destruct (target (self w) d) as [x y] eqn:T. cbn zeta.
      destruct ((x =? end_x (self w)) && (y =? end_y (self w))).
      - destruct (stage_completed_self
                    (mkWorld (moved (self w) x y) (env w)))
          as (st & e' & ->).
        eexists. split; [reflexivity|]. destruct w as [[] e]. now cbn.
      - eexists. split; [reflexivity|]. destruct w as [[] e]. now cbn. }
    exists w'. split; [exact E|]. split; [exact Mz|]. split; [now intros|].
    unfold is_open in O. apply andb_true_iff in O as [B W].
    apply negb_true_iff in W.
    intros [W'|OB]; [congruence|]. apply in_bounds_false_iff in OB.
    congruence.
  - rewrite (handle_movement_blocked _ d w D O).
    exists w. split; [reflexivity|]. split; [reflexivity|].
    split; [|reflexivity]. intros B W. unfold is_open in O.
    rewrite B, W in O. discriminate.
Qed.

Lemma handle_movement_moves_player_witness :
  (exists w',
      handle_movement K_DOWN (loaded corridor) = Ok (tt, w') /\
      position (self w') = (1, 2)) /\
  (exists w',
      handle_movement K_LEFT (loaded corridor) = Ok (tt, w') /\
      position (self w') = (1, 1)).
Proof.
  split.
  - destruct (handle_movement_moves_player (loaded corridor) Down)
      as (w' & E & _ & Open & _).
    exists w'. split; [exact E|]. apply Open; reflexivity.
  - destruct (handle_movement_moves_player (loaded corridor) Left)
      as (w' & E & _ & _ & Blocked).
    exists w'. split; [exact E|]. apply Blocked. left. reflexivity.
Defined.

(* ================================================================== *)
(** ** The move counter *)

Lemma handle_movement_counts (key : Z) (w : World) :
  exists w',
    handle_movement key w = Ok (tt, w') /\
    stage_moves (self w') =
    stage_moves (self w) + (if accepted (outcome (self w) key) then 1 else 0).
Proof.
  destruct (direction_of key) as [d|] eqn:D.
  - rewrite (outcome_arrow (self w) key d D).
    destruct (is_open (maze (self w)) (fst (target (self w) d))
                (snd (target (self w) d))) eqn:O.
    + rewrite (handle_movement_open key d w D O).
      destruct (target (self w) d) as [x y]. cbn [fst snd]. cbn zeta.
      destruct ((x =? end_x (self w)) && (y =? end_y (self w))).
      * destruct (stage_completed_self
                    (mkWorld (moved (self w) x y) (env w)))
          as (st & e' & ->).
        eexists. split; [reflexivity|]. destruct w as [[] e]. now cbn.
      * eexists. split; [reflexivity|]. destruct w as [[] e]. now cbn.
    + rewrite (handle_movement_blocked key d w D O).
      exists w. split; [reflexivity|]. cbn. lia.
  - rewrite (handle_movement_other_key key w D),
      (outcome_other_key (self w) key D).
    exists w. split; [reflexivity|]. cbn. lia.
Qed.

Lemma handle_movements_count (keys : list Z) (w : World) :
  exists w',
    handle_movements keys w = Ok (tt, w') /\
    stage_moves (self w') =
    stage_moves (self w) + count_accepted (outcomes keys w).
Proof.
  revert w. induction keys as [|key keys IH]; intros w.
  - exists w. split; [reflexivity|]. cbn. lia.
  - destruct (handle_movement_counts key w) as (w1 & E1 & C1).
    destruct (IH w1) as (w2 & E2 & C2).
    exists w2. cbn [handle_movements outcomes]. unfold bind at 1.
    rewrite E1. split; [exact E2|]. rewrite C2, C1.
    unfold count_accepted, len. cbn [filter].
    destruct (accepted (outcome (self w) key)); cbn [List.length]; lia.
Qed.

(** C3. A load that the level API serves sets the stage move counter to 0;
    each key handed to [handle_movement] adds exactly 1 to it when the move
    is accepted (outcome [Moved] or [ReachedGoal]) and nothing when it is
    rejected; so after any sequence of keys since the load, the counter is
    the number of accepted moves of the sequence. *)
Theorem stage_moves_counts_accepted_moves :
  (forall (n : Z) (w : World) (sd : StageData),
      level_api (env w) (fetches (env w)) n = Some sd ->
      exists w', load_stage n w = Ok (true, w') /\ stage_moves (self w') = 0) /\
  (forall (key : Z) (w : World),
      exists w',
        handle_movement key w = Ok (tt, w') /\
        stage_moves (self w') =
        stage_moves (self w) +
        (if accepted (outcome (self w) key) then 1 else 0)) /\
  (forall (n : Z) (w : World) (sd : StageData) (keys : list Z),
      level_api (env w) (fetches (env w)) n = Some sd ->
      exists w1 w2,
        load_stage n w = Ok (true, w1) /\
        handle_movements keys w1 = Ok (tt, w2) /\
        stage_moves (self w2) = count_accepted (outcomes keys w1)).
Proof.
  assert (forall (n : Z) (w : World) (sd : StageData),
             level_api (env w) (fetches (env w)) n = Some sd ->
             exists w', load_stage n w = Ok (true, w') /\
                        stage_moves (self w') = 0) as Load.
  { intros n w sd H. rewrite (load_stage_served n w sd H).
    eexists. split; [reflexivity|]. destruct w as [[] e]. reflexivity. }
  split; [exact Load|]. split; [exact handle_movement_counts|].
  intros n w sd keys H. destruct (Load n w sd H) as (w1 & E1 & Z1).
  destruct (handle_movements_count keys w1) as (w2 & E2 & C2).
  exists w1, w2. split; [exact E1|]. split; [exact E2|]. lia.
Qed.

Lemma stage_moves_counts_accepted_moves_witness :
  exists w1 w2,
    load_stage 1 (mkWorld new_game (env_of (fun _ _ => Some corridor)))
    = Ok (true, w1) /\
    handle_movements [K_LEFT; K_DOWN; K_RIGHT; K_DOWN] w1 = Ok (tt, w2) /\
    stage_moves (self w2)
    = count_accepted (outcomes [K_LEFT; K_DOWN; K_RIGHT; K_DOWN] w1).
Proof.
  destruct stage_moves_counts_accepted_moves as (_ & _ & Run).
  apply (Run 1 (mkWorld new_game (env_of (fun _ _ => Some corridor)))
           corridor).
  reflexivity.
Defined.

(* ================================================================== *)
(** ** Reaching the goal *)

(** C4. An accepted move whose destination is the goal ([ReachedGoal])
    leaves the player on the goal.  On a stage before the last the phase
    becomes [STATE_STAGE_COMPLETE] and one [level_complete] call is made,
    with the stage number, the time since the stage started and the stage
    move count.  On the last stage the phase becomes [STATE_GAME_COMPLETE]
    and a [level_complete] call is followed by a [game_complete] call with
    the time since the game started and the total move count. *)
Theorem reached_goal_completes_stage (w : World) (key : Z) :
  outcome (self w) key = ReachedGoal ->
  exists w',
    handle_movement key w = Ok (tt, w') /\
    position (self w') = goal (self w) /\
    (current_stage (self w) < total_stages (self w) ->
     game_state (self w') = STATE_STAGE_COMPLETE /\
     emitted (env w') =
     emitted (env w) ++
     [level_complete (current_stage (self w))
        (PrimFloat.sub (reading (env w) 0) (stage_start_time (self w)))
        (stage_moves (self w) + 1)]) /\
    (current_stage (self w) = total_stages (self w) ->
     game_state (self w') = STATE_GAME_COMPLETE /\
     emitted (env w') =
     emitted (env w) ++
     [level_complete (current_stage (self w))
        (PrimFloat.sub (reading (env w) 0) (stage_start_time (self w)))
        (stage_moves (self w) + 1);
      game_complete
        (PrimFloat.sub (reading (env w) (1 + send_ticks (env w)))
           (game_start_time (self w)))
        (total_moves (self w) + 1)]).
Proof.
  intros R. destruct (direction_of key) as [d|] eqn:D;
    [|rewrite (outcome_other_key _ _ D) in R; discriminate].
  rewrite (outcome_arrow _ _ _ D) in R.
  destruct (is_open (maze (self w)) (fst (target (self w) d))
              (snd (target (self w) d))) eqn:O; [|discriminate].
  rewrite (handle_movement_open key d w D O).
  destruct (target (self w) d) as [x y]. cbn [fst snd] in R. cbn zeta.
  destruct ((x =? end_x (self w)) && (y =? end_y (self w))) eqn:G;
    [clear R|discriminate].
  apply andb_true_iff in G as [Gx Gy]. apply Z.eqb_eq in Gx, Gy. subst x y.
  set (w1 := mkWorld (moved (self w) (end_x (self w)) (end_y (self w)))
               (env w)).
  assert (current_stage (self w1) = current_stage (self w) /\
          total_stages (self w1) = total_stages (self w) /\
          stage_start_time (self w1) = stage_start_time (self w) /\
          game_start_time (self w1) = game_start_time (self w) /\
          stage_moves (self w1) = stage_moves (self w) + 1 /\
          total_moves (self w1) = total_moves (self w) + 1 /\
          env w1 = env w) as (Ecs & Ets & Est & Egt & Esm & Etm & Eenv).
  { destruct w as [[] e]. cbn. repeat split. }
  destruct (current_stage (self w1) >=? total_stages (self w1)) eqn:C.
  - destruct (stage_completed_final w1 C) as (e' & -> & Em & _).
    eexists. split; [reflexivity|].
    split; [destruct w as [[] e]; reflexivity|].
    rewrite Z.geb_le, Ecs, Ets in C. split; [lia|]. intros _.
    split; [destruct w as [[] e]; reflexivity|].
    cbn [env]. rewrite Em, Ecs, Est, Egt, Esm, Etm, Eenv. reflexivity.
  - destruct (stage_completed_intermediate w1 C) as (e' & -> & Em & _).
    eexists. split; [reflexivity|].
    split; [destruct w as [[] e]; reflexivity|].
    rewrite Z.geb_leb, Ecs, Ets in C. apply Z.leb_gt in C.
    split; [|lia]. intros _.
    split; [destruct w as [[] e]; reflexivity|].
    cbn [env]. rewrite Em, Ecs, Est, Esm, Eenv. reflexivity.
Qed.

Lemma reached_goal_completes_stage_witness :
  (exists w',
      handle_movement K_DOWN corridor_before_goal = Ok (tt, w') /\
      game_state (self w') = STATE_STAGE_COMPLETE /\
      emitted (env w') = [level_complete 1 1%float 2]) /\
  (exists w',
      handle_movement K_DOWN last_corridor_before_goal = Ok (tt, w') /\
      game_state (self w') = STATE_GAME_COMPLETE /\
      emitted (env w') =
      [level_complete 10 1%float 2; game_complete 2%float 2]).
Proof.
  split.
  - destruct (reached_goal_completes_stage corridor_before_goal K_DOWN)
      as (w' & E & _ & Stage & _); [reflexivity|].
    destruct Stage as [St Em]; [vm_compute; reflexivity|].
    exists w'. split; [exact E|]. split; [exact St|].
    rewrite Em. reflexivity.
  - destruct (reached_goal_completes_stage last_corridor_before_goal K_DOWN)
      as (w' & E & _ & _ & Game); [reflexivity|].
    destruct Game as [St Em]; [reflexivity|].
    exists w'. split; [exact E|]. split; [exact St|].
    rewrite Em. reflexivity.
Defined.

(* ================================================================== *)
(** ** Input outside the transitions *)

Lemma GameState_eqb_eq (a b : GameState) :
  GameState_eqb a b = true <-> a = b.
Proof. destruct a, b; cbn; split; congruence. Qed.

(** C8. An event for which the state machine lists no transition leaves the
    game object and the world around it as they were.  In particular a key
    press while the phase is [STATE_STAGE_COMPLETE] or [STATE_GAME_COMPLETE]
    and a mouse click while the phase is [STATE_PLAYING] change nothing. *)
Theorem unlisted_event_changes_nothing (w : World) :
  (forall event : PgEvent,
      listed (self w) event = false -> handle_event event w = Ok (tt, w)) /\
  (game_state (self w) <> STATE_PLAYING ->
   forall key : Z, handle_event (KEYDOWN key) w = Ok (tt, w)) /\
  (game_state (self w) = STATE_PLAYING ->
   forall pos : Z * Z, handle_event (MOUSEBUTTONDOWN pos) w = Ok (tt, w)).
Proof.
  assert (forall event : PgEvent,
             listed (self w) event = false ->
             handle_event event w = Ok (tt, w)) as Unlisted.
  { intros [|key|pos|] L; cbn in L.
    - discriminate.
    - unfold handle_event, bind, get_self. cbn.
      destruct (GameState_eqb (game_state (self w)) STATE_PLAYING);
        [|reflexivity].
      cbn in L. destruct (direction_of key) eqn:D; [discriminate|].
      now apply handle_movement_other_key.
    - unfold handle_event, bind, get_self. cbn.
      destruct (GameState_eqb (game_state (self w)) STATE_STAGE_COMPLETE);
        cbn in L; [now rewrite L|].
      destruct (GameState_eqb (game_state (self w)) STATE_GAME_COMPLETE);
        cbn in L; [now rewrite L|reflexivity].
    - reflexivity. }
  split; [exact Unlisted|split].
  - intros NP key. apply Unlisted. cbn.
    destruct (GameState_eqb (game_state (self w)) STATE_PLAYING) eqn:E;
      [apply GameState_eqb_eq in E; contradiction|reflexivity].
  - intros P pos. apply Unlisted. cbn. now rewrite P.
Qed.

Lemma unlisted_event_changes_nothing_witness :
  handle_event (KEYDOWN K_UP) corridor_completed
  = Ok (tt, corridor_completed) /\
  handle_event (MOUSEBUTTONDOWN (400, 360)) (loaded corridor)
  = Ok (tt, loaded corridor) /\
  handle_event (MOUSEBUTTONDOWN (0, 0)) corridor_completed
  = Ok (tt, corridor_completed).
Proof.
  split; [|split].
  - apply (proj1 (proj2 (unlisted_event_changes_nothing corridor_completed))).
    vm_compute. discriminate.
  - apply (proj2 (proj2 (unlisted_event_changes_nothing (loaded corridor)))).
    vm_compute. reflexivity.
  - apply (proj1 (unlisted_event_changes_nothing corridor_completed)).
    vm_compute. reflexivity.
Defined.

(* ================================================================== *)
(** ** A load the level source does not serve *)

(** C9. When the level source returns nothing for the stage, [load_stage]
    returns [False] and the grid, the player's position, the goal, the two
    move counters and the phase are what they were before the call; so for
    the development client, which has no move counters. *)
Theorem load_stage_failure_keeps_state (n : Z) :
  (forall w : World,
      level_api (env w) (fetches (env w)) n = None ->
      exists w',
        load_stage n w = Ok (false, w') /\
        maze (self w') = maze (self w) /\
        position (self w') = position (self w) /\
        goal (self w') = goal (self w) /\
        stage_moves (self w') = stage_moves (self w) /\
        total_moves (self w') = total_moves (self w) /\
        game_state (self w') = game_state (self w)) /\
  (forall g : LocalDev.MazeGame,
      LocalDev.get_stage (LocalDev.db_handler g) n = None ->
      exists g',
        LocalDev.load_stage n g = (false, g') /\
        LocalDev.maze g' = LocalDev.maze g /\
        LocalDev.player_x g' = LocalDev.player_x g /\
        LocalDev.player_y g' = LocalDev.player_y g /\
        LocalDev.end_x g' = LocalDev.end_x g /\
        LocalDev.end_y g' = LocalDev.end_y g /\
        LocalDev.game_state g' = LocalDev.game_state g).
Proof.
  split.
  - intros w H. rewrite (load_stage_unserved n w H).
    eexists. split; [reflexivity|]. destruct w as [[] e]. cbn.
    repeat split.
  - intros g H. unfold LocalDev.load_stage. rewrite H.
    eexists. split; [reflexivity|]. cbn. repeat split.
Qed.

Lemma load_stage_failure_keeps_state_witness :
  (exists w',
      load_stage 2 (started (flaky 1 corridor)) = Ok (false, w') /\
      maze (self w') = maze (self (started (flaky 1 corridor))) /\
      position (self w') = (1, 1) /\
      game_state (self w') = STATE_PLAYING) /\
  (exists g',
      LocalDev.load_stage 4 local_started = (false, g') /\
      LocalDev.maze g' = LocalDev.maze local_started /\
      LocalDev.player_x g' = 1).
Proof.
  destruct (load_stage_failure_keeps_state 2) as [Api _].
  destruct (load_stage_failure_keeps_state 4) as [_ Db].
  split.
  - destruct (Api (started (flaky 1 corridor)))
      as (w' & E & Mz & P & _ & _ & _ & St); [reflexivity|].
    exists w'. split; [exact E|]. split; [exact Mz|].
    split; [rewrite P|rewrite St]; reflexivity.
  - destruct (Db local_started) as (g' & E & Mz & Px & _); [reflexivity|].
    exists g'. split; [exact E|]. split; [exact Mz|].
    rewrite Px. reflexivity.
Defined.

(* ================================================================== *)
(** ** The operations, by their effect on the game object *)

Lemma handle_movement_effect (key : Z) (w : World) :
  exists w',
    handle_movement key w = Ok (tt, w') /\
    move_effect (self w) (self w') /\
    level_api (env w') = level_api (env w) /\
    fetches (env w') = fetches (env w).
Proof.
  destruct (direction_of key) as [d|] eqn:D.
  - destruct (is_open (maze (self w)) (fst (target (self w) d))
                (snd (target (self w) d))) eqn:O.
    + rewrite (handle_movement_open key d w D O).
      destruct (target (self w) d) as [x y]. cbn zeta.
      set (w1 := mkWorld (moved (self w) x y) (env w)).
      assert (current_stage (self w1) = current_stage (self w) /\
              total_stages (self w1) = total_stages (self w))
        as [Ecs Ets] by (destruct w as [[] e]; split; reflexivity).
      destruct ((x =? end_x (self w)) && (y =? end_y (self w))).
      * destruct (current_stage (self w1) >=? total_stages (self w1)) eqn:C.
        -- destruct (stage_completed_final w1 C) as (e' & -> & _ & A & F).
           eexists. split; [reflexivity|]. cbn [self env].
           split; [|split; assumption].
           apply move_completed_game. rewrite Z.geb_le in C. lia.
        -- destruct (stage_completed_intermediate w1 C)
             as (e' & -> & _ & A & F).
           eexists. split; [reflexivity|]. cbn [self env].
           split; [|split; assumption].
           apply move_completed_stage.
           rewrite Z.geb_leb in C. apply Z.leb_gt in C. lia.
      * exists w1. split; [reflexivity|]. split; [apply move_moved|].
        split; reflexivity.
    + rewrite (handle_movement_blocked key d w D O).
      exists w. repeat split. apply move_rejected.
  - rewrite (handle_movement_other_key key w D).
    exists w. repeat split. apply move_rejected.
Qed.

Lemma load_stage_effect (n : Z) (w : World) :
  exists w',
    load_stage n w = Ok (api_answers (env w) n, w') /\
    load_effect (self w) (api_answers (env w) n) (self w') /\
    level_api (env w') = level_api (env w).
Proof.
  unfold api_answers.
  destruct (level_api (env w) (fetches (env w)) n) as [sd|] eqn:A.
  - rewrite (load_stage_served n w sd A). eexists.
    split; [reflexivity|]. split; [apply load_served|].
    destruct w as [g []]. reflexivity.
  - rewrite (load_stage_unserved n w A). eexists.
    split; [reflexivity|]. split; [apply load_failed|].
    destruct w as [g []]. reflexivity.
Qed.

Lemma next_stage_effect (w : World) :
  exists w',
    next_stage w = Ok (tt, w') /\
    next_effect (self w) (self w') /\
    level_api (env w') = level_api (env w).
Proof.
  set (g1 := set_current_stage (current_stage (self w) + 1) (self w)).
  assert (current_stage g1 = current_stage (self w) + 1 /\
          total_stages g1 = total_stages (self w)) as [Ecs Ets]
    by (destruct w as [[] e]; split; reflexivity).
  assert (next_stage w =
          if current_stage g1 <=? total_stages g1
          then match load_stage (current_stage g1) (mkWorld g1 (env w)) with
               | Ok (_, w') => Ok (tt, w')
               | Raise e => Raise e
               end
          else Ok (tt, mkWorld (set_game_state STATE_GAME_COMPLETE g1)
                         (env w))) as ->.
  { subst g1. destruct w as [g e].
    unfold next_stage, bind, assign, get_self, ret. cbn -[load_stage].
    destruct (_ <=? _); [|reflexivity].
    destruct (load_stage _ _) as [[b w']|]; reflexivity. }
  destruct (Z.leb_spec (current_stage g1) (total_stages g1)) as [L|L].
  - destruct (load_stage_effect (current_stage g1) (mkWorld g1 (env w)))
      as (w' & -> & Eff & A).
    exists w'. split; [reflexivity|]. split; [|exact A].
    apply next_load with (b := api_answers (env w) (current_stage g1));
      [lia|]. exact Eff.
  - eexists. split; [reflexivity|]. split; [|reflexivity].
    cbn [self]. apply next_past_last. lia.
Qed.

Lemma restart_game_effect (w : World) :
  exists w',
    restart_game w = Ok (tt, w') /\
    restart_effect (self w) (api_answers (env w) 1) (self w') /\
    level_api (env w') = level_api (env w).
Proof.
  set (g1 := set_game_start_time (clock (env w) (ticks (env w)))
               (set_total_moves 0 (set_current_stage 1 (self w)))).
  assert (exists e1,
             level_api e1 = level_api (env w) /\
             fetches e1 = fetches (env w) /\
             restart_game w =
             match load_stage 1 (mkWorld g1 e1) with
             | Ok (_, w') => Ok (tt, w')
             | Raise e => Raise e
             end) as (e1 & A & F & ->).
  { destruct w as [g e]. destruct e as [sw sh ck tk api ft q acc sc em].
    unfold restart_game, send_game_start, send, time_time, bind, assign,
      get_self, get_env, tell, ret.
    subst g1. cbn -[load_stage].
    destruct q; cbn -[load_stage]; destruct g; cbn -[load_stage];
      (eexists; split; [|split]; cycle 2;
       [reflexivity|reflexivity|reflexivity]). }
  destruct (load_stage_effect 1 (mkWorld g1 e1)) as (w' & -> & Eff & A').
  exists w'. split; [reflexivity|]. cbn [self env] in *.
  assert (api_answers e1 1 = api_answers (env w) 1) as <-
    by (unfold api_answers; now rewrite A, F).
  split; [|congruence]. eapply restart_load. exact Eff.
Qed.

Lemma call_effect (o : Op) (w : World) :
  exists w',
    call o w = Ok (tt, w') /\
    op_effect o (api_answers (env w)) (self w) (self w').
Proof.
  destruct o as [key|n| |]; cbn [call op_effect].
  - destruct (handle_movement_effect key w) as (w' & E & Eff & _). eauto.
  - destruct (load_stage_effect n w) as (w' & E & Eff & _).
    exists w'. unfold bind. rewrite E. split; [reflexivity|exact Eff].
  - destruct (next_stage_effect w) as (w' & E & Eff & _). eauto.
  - destruct (restart_game_effect w) as (w' & E & Eff & _). eauto.
Qed.

(* ================================================================== *)
(** ** The two move counters *)

Lemma load_effect_counters (g g' : MazeGame) (b : bool) :
  load_effect g b g' ->
  total_moves g' = total_moves g /\
  (b = true -> stage_moves g' = 0 /\ stage_data g' <> None) /\
  (b = false -> stage_moves g' = stage_moves g /\ stage_data g' = None).
Proof.
  intros [|sd now]; destruct g; cbn; repeat split; congruence.
Qed.

Lemma counters_after_call (o : Op) (w w' : World) :
  call o w = Ok (tt, w') ->
  0 <= total_moves (self w) ->
  0 <= total_moves (self w') /\
  ((o = op_restart_game -> api_answers (env w) 1 = true) ->
   stage_moves (self w) <= total_moves (self w) ->
   stage_moves (self w') <= total_moves (self w')) /\
  ((stage_data (self w) <> None ->
    stage_moves (self w) <= total_moves (self w)) ->
   stage_data (self w') <> None ->
   stage_moves (self w') <= total_moves (self w')).
Proof.
  intros E T. destruct (call_effect o w) as (w1 & E1 & Eff).
  rewrite E in E1. injection E1 as <-.
  destruct o as [key|n| |]; cbn [op_effect] in Eff.
  - inversion Eff; on_fields w; repeat split; intros; try lia; auto.
    all: match goal with H : _ -> _ <= _ |- _ => specialize (H ltac:(auto)) end.
    all: lia.
  - apply load_effect_counters in Eff as (Tm & Served & Failed).
    rewrite Tm. split; [exact T|]. split.
    + intros _ L. destruct (api_answers (env w) n).
      * destruct Served as [-> _]; [reflexivity|lia].
      * destruct Failed as [-> _]; [reflexivity|lia].
    + intros _ D. destruct (api_answers (env w) n).
      * destruct Served as [-> _]; [reflexivity|lia].
      * destruct Failed as [_ Dn]; [reflexivity|contradiction].
  - inversion Eff as [b g' L Le|L]; subst.
    + apply load_effect_counters in Le as (Tm & Served & Failed).
      rewrite Tm.
      assert (total_moves (set_current_stage (current_stage (self w) + 1)
                             (self w)) = total_moves (self w) /\
              stage_moves (set_current_stage (current_stage (self w) + 1)
                             (self w)) = stage_moves (self w)) as [-> Es]
        by (destruct (self w); split; reflexivity).
      rewrite Es in Failed. split; [exact T|]. destruct b.
      * destruct Served as [-> _]; [reflexivity|]. split; intros; lia.
      * destruct Failed as [-> Dn]; [reflexivity|].
        split; [tauto|contradiction].
    + on_fields w. split; [exact T|]. split; tauto.
  - inversion Eff as [b now g' Le]; subst.
    apply load_effect_counters in Le as (Tm & Served & Failed).
    rewrite Tm.
    assert (total_moves
              (set_game_start_time now
                 (set_total_moves 0 (set_current_stage 1 (self w)))) = 0)
      as -> by (destruct (self w); reflexivity).
    split; [lia|]. split.
    + intros A _. rewrite A in Served by reflexivity.
      destruct Served as [-> _]; [reflexivity|lia].
    + intros _ D. destruct (api_answers (env w) 1).
      * destruct Served as [-> _]; [reflexivity|lia].
      * destruct Failed as [_ Dn]; [reflexivity|contradiction].
Qed.

Lemma called_calls (e0 : Env) (os : list Op) (w w' : World) :
  called e0 w -> calls os w = Ok (tt, w') -> called e0 w'.
Proof.
  revert w. induction os as [|o os IH]; intros w C E.
  - injection E as <-. exact C.
  - cbn [calls] in E. unfold bind in E.
    destruct (call o w) as [[[] w1]|] eqn:E1; [|discriminate].
    apply (IH w1); [|exact E]. now apply called_op with (o := o) (w := w).
Qed.

Lemma called_restart_loads_calls (e0 : Env) (os : list Op) (w w' : World) :
  called_restart_loads e0 w ->
  restarts_served os w = true ->
  calls os w = Ok (tt, w') ->
  called_restart_loads e0 w'.
Proof.
  revert w. induction os as [|o os IH]; intros w C R E.
  - injection E as <-. exact C.
  - cbn [calls restarts_served] in E, R. unfold bind in E.
    destruct (call o w) as [[[] w1]|] eqn:E1; [|discriminate].
    apply andb_true_iff in R as [R1 R2].
    apply (IH w1); [|exact R2|exact E].
    apply crl_op with (o := o) (w := w); [exact C| |exact E1].
    intros ->. exact R1.
Qed.

(** C10, as the code has it.  In every state reached from a fresh game
    object by calls of [handle_movement], [load_stage], [next_stage] and
    [restart_game] in which the load of every [restart_game] was served, the
    stage move counter is at most the total move counter; and in every state
    reached by any such calls, it is at most the total whenever the most
    recent load was served ([stage_data] is set). *)
Theorem stage_moves_le_total_moves (e0 : Env) (w : World) :
  (called_restart_loads e0 w ->
   stage_moves (self w) <= total_moves (self w)) /\
  (called e0 w ->
   stage_data (self w) <> None ->
   stage_moves (self w) <= total_moves (self w)).
Proof.
  split.
  - intros C.
    enough (0 <= total_moves (self w) /\
            stage_moves (self w) <= total_moves (self w)) by tauto.
    induction C as [|o w w' C [T L] R E].
    + cbn. lia.
    + destruct (counters_after_call o w w' E T) as (T' & Keep & _).
      split; [exact T'|]. now apply Keep.
  - intros C.
    enough (0 <= total_moves (self w) /\
            (stage_data (self w) <> None ->
             stage_moves (self w) <= total_moves (self w))) by tauto.
    induction C as [|o w w' C [T L] E].
    + cbn. split; [lia|congruence].
    + destruct (counters_after_call o w w' E T) as (T' & _ & Keep).
      split; [exact T'|]. now apply Keep.
Qed.

Lemma stage_moves_le_total_moves_witness :
  stage_moves (self (after_calls (fun _ _ => Some corridor) restart_midway))
  <= total_moves
       (self (after_calls (fun _ _ => Some corridor) restart_midway)) /\
  stage_moves (self (after_calls (flaky 2 corridor) next_twice))
  <= total_moves (self (after_calls (flaky 2 corridor) next_twice)).
Proof.
  split.
  - apply (proj1 (stage_moves_le_total_moves
                    (env_of (fun _ _ => Some corridor)) _)).
    apply (called_restart_loads_calls _ restart_midway
             (mkWorld new_game (env_of (fun _ _ => Some corridor))));
      [apply crl_fresh|vm_compute; reflexivity|vm_compute; reflexivity].
  - apply (proj1 (stage_moves_le_total_moves
                    (env_of (flaky 2 corridor)) _)).
    apply (called_restart_loads_calls _ next_twice
             (mkWorld new_game (env_of (flaky 2 corridor))));
      [apply crl_fresh|vm_compute; reflexivity|vm_compute; reflexivity].
Defined.

(** C10 as stated fails: a [restart_game] whose load the level API does not
    serve resets the total and leaves the stage counter. *)
Lemma restart_unserved_breaks_counters :
  called (env_of (flaky 1 corridor))
    (after_calls (flaky 1 corridor) restart_last) /\
  stage_moves (self (after_calls (flaky 1 corridor) restart_last)) = 1 /\
  total_moves (self (after_calls (flaky 1 corridor) restart_last)) = 0.
Proof.
  split; [|split; vm_compute; reflexivity].
  apply (called_calls _ restart_last
           (mkWorld new_game (env_of (flaky 1 corridor))));
    [apply called_fresh|vm_compute; reflexivity].
Qed.

(* ================================================================== *)
(** ** The stage counter and the phase *)

Lemma handle_event_effect (event : PgEvent) (w : World) :
  exists w',
    handle_event event w = Ok (tt, w') /\
    event_effect event (self w) (self w').
Proof.
  destruct event as [|key|pos|]; unfold handle_event, bind, get_self;
    cbn [event_effect].
  - eexists. split; reflexivity.
  - destruct (GameState_eqb (game_state (self w)) STATE_PLAYING) eqn:P.
    + apply GameState_eqb_eq in P.
      destruct (handle_movement_effect key w) as (w' & E & Eff & _).
      exists w'. split; [exact E|]. right. now split.
    + exists w. split; [reflexivity|]. now left.
  - destruct (GameState_eqb (game_state (self w)) STATE_STAGE_COMPLETE)
      eqn:S.
    { apply GameState_eqb_eq in S. destruct (button_hit (self w) pos).
      - destruct (next_stage_effect w) as (w' & E & Eff & _).
        exists w'. split; [exact E|]. right. left. now split.
      - exists w. split; [reflexivity|]. now left. }
    destruct (GameState_eqb (game_state (self w)) STATE_GAME_COMPLETE)
      eqn:G.
    { apply GameState_eqb_eq in G. destruct (button_hit (self w) pos).
      - destruct (restart_game_effect w) as (w' & E & Eff & _).
        exists w'. split; [exact E|]. right. right. split; [exact G|].
        eexists. exact Eff.
      - exists w. split; [reflexivity|]. now left. }
    exists w. split; [reflexivity|]. now left.
  - exists w. split; reflexivity.
Qed.

Lemma draw_effect (w w' : World) :
  draw w = Ok (tt, w') ->
  self w' = self w \/
  exists r, self w' = set_continue_button (Some r) (self w).
Proof.
  destruct w as [g e]. unfold draw, bind, get_self. cbn [self].
  destruct (game_state g).
  - unfold draw_maze, draw_ui, time_time, bind, get_self, get_env, tell,
      lift, ret. cbn.
    destruct (py_index (maze g) 0); [|discriminate].
    intros E. injection E as <-. now left.
  - unfold draw_stage_complete_popup, bind, get_env, assign. cbn.
    intros E. injection E as <-. right. eexists. reflexivity.
  - unfold draw_game_complete_popup, time_time, bind, get_env, tell, assign,
      ret. cbn.
    intros E. injection E as <-. right. eexists. reflexivity.
Qed.

Lemma initialize_effect (w w' : World) :
  initialize w = Ok (true, w') ->
  exists now, load_effect (set_game_start_time now (self w)) true (self w').
Proof.
  destruct w as [g e]. destruct e as [sw sh ck tk api ft q acc sc em].
  unfold initialize, test_connection, get_level_data, send_game_start, send,
    time_time, bind, get_env, get_self, tell, assign, ret.
  cbn -[load_stage]. destruct (api ft 1); cbn -[load_stage]; [|discriminate].
  destruct q; cbn -[load_stage]; destruct g; cbn -[load_stage]; intros E;
    match type of E with
    | load_stage ?n ?W = _ =>
        destruct (load_stage_effect n W) as (w1 & E1 & Eff & _);
        rewrite E in E1; injection E1 as Hb <-;
        eexists; rewrite Hb; exact Eff
    end.
Qed.

Lemma load_effect_stage (g g' : MazeGame) (b : bool) :
  load_effect g b g' ->
  current_stage g' = current_stage g /\
  total_stages g' = total_stages g /\
  (b = true -> game_state g' = STATE_PLAYING) /\
  (b = false -> stage_data g' = None).
Proof.
  intros [|sd now]; destruct g; cbn; repeat split; congruence.
Qed.

Lemma stage_in_range_loaded (g g' : MazeGame) (b : bool) :
  load_effect g b g' ->
  1 <= total_stages g ->
  current_stage g <= total_stages g ->
  stage_in_range g'.
Proof.
  intros Le T C. apply load_effect_stage in Le as (Ecs & Ets & Served & Failed).
  unfold stage_in_range. rewrite Ecs, Ets. split; [exact T|]. intros D.
  destruct b; [|now rewrite Failed in D].
  rewrite Served by reflexivity. repeat split; [exact C| |]; discriminate.
Qed.

Lemma stage_in_range_event (event : PgEvent) (g g' : MazeGame) :
  event_effect event g g' -> stage_in_range g -> stage_in_range g'.
Proof.
  intros Eff [T Inv].
  assert (forall g1 : MazeGame,
             g' = g1 ->
             total_stages g1 = total_stages g ->
             stage_data g1 = stage_data g ->
             (stage_data g <> None ->
              current_stage g <= total_stages g ->
              current_stage g1 <= total_stages g /\
              (game_state g1 = STATE_STAGE_COMPLETE ->
               current_stage g1 < total_stages g) /\
              (game_state g1 = STATE_GAME_COMPLETE ->
               current_stage g1 = total_stages g)) ->
             stage_in_range g') as Same.
  { intros g1 -> Et Ed K. unfold stage_in_range. rewrite Et, Ed.
    split; [exact T|]. intros D. apply (K D). now apply Inv. }
  destruct event as [|key|pos|]; cbn in Eff.
  - apply (Same _ Eff); destruct g; cbn; try reflexivity.
    intros D _. now apply Inv.
  - destruct Eff as [->|[P Mv]]; [now split|].
    inversion Mv as [|x y|x y L|x y L]; subst.
    + now split.
    + apply (Same _ eq_refl); destruct g; cbn in *; try reflexivity.
      subst. intros D C. repeat split; [exact C| |]; discriminate.
    + apply (Same _ eq_refl); destruct g; cbn in *; try reflexivity.
      intros D C. repeat split; [exact C|now intros|discriminate].
    + apply (Same _ eq_refl); destruct g; cbn in *; try reflexivity.
      intros D C. repeat split; [exact C|discriminate|intros; lia].
  - destruct Eff as [->|[[S Nx]|[G [b Rs]]]]; [now split| |].
    + inversion Nx as [b g1 L Le|L]; subst.
      * apply (stage_in_range_loaded _ _ _ Le);
          destruct g; cbn in *; lia.
      * apply (Same _ eq_refl); destruct g; cbn in *; try reflexivity.
        subst. intros D C. destruct (Inv D) as (_ & St & _).
        specialize (St eq_refl). lia.
    + inversion Rs as [b' now g1 Le]; subst.
      apply (stage_in_range_loaded _ _ _ Le); destruct g; cbn in *; lia.
  - now subst.
Qed.

Lemma reachable_stage_in_range (e0 : Env) (w : World) :
  reachable e0 w -> stage_in_range (self w).
Proof.
  induction 1 as [w I|event w w' R IH E|w w' R IH E].
  - apply initialize_effect in I as (now & Le).
    apply (stage_in_range_loaded _ _ _ Le); cbn; lia.
  - destruct (handle_event_effect event w) as (w1 & E1 & Eff).
    rewrite E in E1. injection E1 as <-.
    exact (stage_in_range_event event _ _ Eff IH).
  - apply draw_effect in E as [->|[r ->]]; [exact IH|].
    destruct (self w); exact IH.
Qed.

(** C2, as the code has it.  In every state of a run in which the most
    recent stage load was served ([stage_data] is set), the phase
    [STATE_GAME_COMPLETE] implies that [current_stage] equals
    [total_stages]; every event handled from a state of a run returns, and
    leads to a state of the run. *)
Theorem game_complete_on_last_stage (e0 : Env) (w : World) :
  reachable e0 w ->
  (stage_data (self w) <> None ->
   game_state (self w) = STATE_GAME_COMPLETE ->
   current_stage (self w) = total_stages (self w)) /\
  (forall event : PgEvent,
      exists w', handle_event event w = Ok (tt, w') /\ reachable e0 w').
Proof.
  intros R. split.
  - intros D G. destruct (reachable_stage_in_range e0 w R) as [_ Inv].
    now apply Inv.
  - intros event. destruct (handle_event_effect event w) as (w' & E & _).
    exists w'. split; [exact E|]. exact (reach_event e0 event w w' R E).
Qed.

Lemma steps_reachable (e0 : Env) (ss : list Step) (w w' : World) :
  reachable e0 w -> steps ss w = Ok (tt, w') -> reachable e0 w'.
Proof.
  revert w. induction ss as [|s ss IH]; intros w R E.
  - injection E as <-. exact R.
  - cbn [steps] in E. unfold bind in E.
    destruct (step s w) as [[[] w1]|] eqn:E1; [|discriminate].
    apply (IH w1); [|exact E]. destruct s as [event|]; cbn [step] in E1.
    + exact (reach_event e0 event w w1 R E1).
    + exact (reach_draw e0 w w1 R E1).
Qed.

(** A turn of the main loop leads from a state of a run to a state of the
    run. *)
Lemma frame_reachable (e0 : Env) (events : list PgEvent) (w w' : World) :
  reachable e0 w -> frame events w = Ok (tt, w') -> reachable e0 w'.
Proof.
  unfold frame, bind. intros R.
  destruct (handle_events events w) as [[[] w1]|] eqn:E; [|discriminate].
  intros D. apply (reach_draw e0 w1 w'); [|exact D]. clear D.
  revert w R E. induction events as [|event events IH]; intros w R E.
  - injection E as <-. exact R.
  - cbn [handle_events] in E. unfold bind in E.
    destruct (handle_event event w) as [[[] w2]|] eqn:E2; [|discriminate].
    apply (IH w2); [|exact E]. exact (reach_event e0 event w w2 R E2).
Qed.

Lemma after_run_reachable (api : nat -> Z -> option StageData)
    (ss : list Step) :
  runs api ss = true -> reachable (env_of api) (after_run api ss).
Proof.
  unfold runs, after_run, run.
  destruct (initialize (mkWorld new_game (env_of api))) as [[[|] w0]|] eqn:I;
    try discriminate.
  destruct (steps ss w0) as [[[] w]|] eqn:E; [|discriminate].
  intros _. apply (steps_reachable (env_of api) ss w0 w); [|exact E].
  now apply reach_initialize.
Qed.

Lemma game_complete_on_last_stage_witness :
  current_stage (self (after_run (fun _ _ => Some corridor) play_through))
  = total_stages (self (after_run (fun _ _ => Some corridor) play_through)).
Proof.
  apply (proj1 (game_complete_on_last_stage
                  (env_of (fun _ _ => Some corridor))
                  (after_run (fun _ _ => Some corridor) play_through)
                  (after_run_reachable (fun _ _ => Some corridor)
                     play_through eq_refl))).
  - vm_compute. discriminate.
  - vm_compute. reflexivity.
Defined.

(** C2 as stated fails: when the load of the last stage is not served, the
    continue action leaves the popup in place with [current_stage] at the
    last stage, and a second click moves the phase to [STATE_GAME_COMPLETE]
    with [current_stage] past [total_stages]. *)
Lemma continue_after_unserved_load_passes_last_stage :
  reachable (env_of (flaky 10 corridor))
    (after_run (flaky 10 corridor) continue_twice) /\
  game_state (self (after_run (flaky 10 corridor) continue_twice))
  = STATE_GAME_COMPLETE /\
  current_stage (self (after_run (flaky 10 corridor) continue_twice)) = 11 /\
  total_stages (self (after_run (flaky 10 corridor) continue_twice)) = 10.
Proof.
  split; [apply after_run_reachable|]; vm_compute; repeat split.
Qed.

(** So does a restart whose load is not served: the phase stays
    [STATE_GAME_COMPLETE] while [current_stage] is back at 1, and the total
    move counter is 0 while the stage counter keeps the moves of the last
    stage. *)
Lemma restart_after_unserved_load_stays_complete :
  reachable (env_of (flaky 11 corridor))
    (after_run (flaky 11 corridor) play_again) /\
  game_state (self (after_run (flaky 11 corridor) play_again))
  = STATE_GAME_COMPLETE /\
  current_stage (self (after_run (flaky 11 corridor) play_again)) = 1 /\
  stage_moves (self (after_run (flaky 11 corridor) play_again)) = 2 /\
  total_moves (self (after_run (flaky 11 corridor) play_again)) = 0.
Proof.
  split; [apply after_run_reachable|]; vm_compute; repeat split.
Qed.

(* ================================================================== *)
(** ** The scenarios of the specification *)

(** Scenario A: in the corridor, down twice reaches the goal after exactly
    two moves. *)
Example scenario_A :
  outcomes [K_DOWN; K_DOWN] (loaded corridor) = [Moved; ReachedGoal] /\
  exists w,
    handle_movements [K_DOWN; K_DOWN] (loaded corridor) = Ok (tt, w) /\
    position (self w) = (1, 3) /\
    stage_moves (self w) = 2 /\
    game_state (self w) = STATE_STAGE_COMPLETE.
Proof.
  split; [vm_compute; reflexivity|].
  eexists. split; [vm_compute; reflexivity|]. repeat split.
Qed.

(** Scenario B: left from the start is rejected, and the counter stays 0. *)
Example scenario_B :
  outcome (self (loaded corridor)) K_LEFT = Rejected /\
  handle_movement K_LEFT (loaded corridor) = Ok (tt, loaded corridor) /\
  stage_moves (self (loaded corridor)) = 0.
Proof. repeat split; vm_compute; reflexivity. Qed.

(** Scenario D: a restart from the end of the game, when the load is served,
    puts the game back on stage 1 with no moves, and sends [game_start]
    again. *)
Example scenario_D :
  game_state (self (after_run (fun _ _ => Some corridor) play_again))
  = STATE_PLAYING /\
  current_stage (self (after_run (fun _ _ => Some corridor) play_again)) = 1 /\
  total_moves (self (after_run (fun _ _ => Some corridor) play_again)) = 0 /\
  last (emitted (env (after_run (fun _ _ => Some corridor) play_again)))
    (game_complete 0%float 0)
  = game_start.
Proof. vm_compute. repeat split. Qed.

(* ================================================================== *)
(** * Further properties *)

(** ** The operations as functions of the world *)

Lemma send_eq (ev : Telemetry) (w : World) :
  send ev w =
  Ok (if queue_url (env w) then sqs_accepts (env w) (sqs_calls (env w))
      else false,
      mkWorld (self w) (sent ev (env w))).
Proof.
  destruct w as [g e]. destruct e as [sw sh ck tk api ft q acc sc em].
  unfold send, sent, ticked, time_time, bind, get_env, tell, ret. cbn.
  destruct q; reflexivity.
Qed.

Lemma load_stage_eq (n : Z) (w : World) :
  load_stage n w = Ok (api_answers (env w) n, after_load n w).
Proof.
  unfold api_answers, after_load.
  destruct (level_api (env w) (fetches (env w)) n) as [sd|] eqn:A.
  - rewrite (load_stage_served n w sd A). destruct w as [g []]. reflexivity.
  - rewrite (load_stage_unserved n w A). reflexivity.
Qed.

Lemma stage_completed_eq (w : World) :
  stage_completed w = Ok (tt, completed w).
Proof.
  destruct w as [g e]. destruct e as [sw sh ck tk api ft q acc sc em].
  unfold stage_completed, completed, send_level_complete, send_game_complete,
    send, sent, ticked, time_time, bind, get_env, get_self, tell, assign, ret.
  cbn. destruct q; cbn; destruct (current_stage g >=? total_stages g);
    destruct g; reflexivity.
Qed.

Lemma handle_movement_eq (key : Z) (w : World) :
  handle_movement key w = Ok (tt, after_key key w).
Proof.
  unfold after_key. destruct (direction_of key) as [d|] eqn:D.
  - destruct (is_open (maze (self w)) (fst (target (self w) d))
                (snd (target (self w) d))) eqn:O.
    + rewrite (handle_movement_open key d w D O).
      destruct (target (self w) d) as [x y]. cbn [fst snd] in O.
      rewrite O. cbn zeta.
      destruct ((x =? end_x (self w)) && (y =? end_y (self w)));
        [apply stage_completed_eq|reflexivity].
    + rewrite (handle_movement_blocked key d w D O).
      destruct (target (self w) d) as [x y]. cbn [fst snd] in O.
      now rewrite O.
  - now apply handle_movement_other_key.
Qed.

Lemma next_stage_eq (w : World) : next_stage w = Ok (tt, after_next w).
Proof.
  destruct w as [g e].
  unfold next_stage, after_next, bind, assign, get_self, ret.
  cbn -[load_stage after_load].
  destruct (_ <=? _); [|reflexivity]. now rewrite load_stage_eq.
Qed.

Lemma restart_game_eq (w : World) :
  restart_game w = Ok (tt, after_restart w).
Proof.
  destruct w as [g e].
  unfold restart_game, after_restart, send_game_start, bind at 1 2 3 4.
  unfold assign, time_time, bind at 1 2 3. unfold get_env, tell, ret.
  cbn -[load_stage after_load send sent]. unfold bind at 1.
  rewrite send_eq. cbn -[load_stage after_load sent].
  unfold bind, get_self. cbn -[load_stage after_load sent].
  rewrite load_stage_eq. destruct g. reflexivity.
Qed.

Lemma handle_event_eq (event : PgEvent) (w : World) :
  handle_event event w = Ok (tt, after_event event w).
Proof.
  destruct event as [|key|pos|]; unfold handle_event, bind, get_self;
    cbn [after_event].
  - reflexivity.
  - destruct (GameState_eqb _ _); [apply handle_movement_eq|reflexivity].
  - destruct (game_state (self w)); cbn [GameState_eqb].
    + reflexivity.
    + destruct (button_hit _ _); [apply next_stage_eq|reflexivity].
    + destruct (button_hit _ _); [apply restart_game_eq|reflexivity].
  - reflexivity.
Qed.

Lemma handle_events_eq (events : list PgEvent) (w : World) :
  handle_events events w = Ok (tt, after_events events w).
Proof.
  revert w. induction events as [|event events IH]; intros w;
    [reflexivity|].
  cbn [handle_events after_events]. unfold bind.
  rewrite handle_event_eq. apply IH.
Qed.

Lemma draw_eq (w : World) :
  draw w =
  match game_state (self w), maze (self w) with
  | STATE_PLAYING, [] => Raise IndexError
  | _, _ => Ok (tt, after_draw w)
  end.
Proof.
  destruct w as [g e]. unfold draw, after_draw, bind, get_self. cbn [self].
  destruct (game_state g).
  - unfold draw_maze, draw_ui, time_time, ticked, bind, get_self, get_env,
      tell, lift, ret. cbn.
    destruct (maze g); reflexivity.
  - destruct (maze g); reflexivity.
  - unfold draw_game_complete_popup, time_time, ticked, bind, get_env, tell,
      assign, ret. cbn. destruct (maze g); reflexivity.
Qed.

Lemma initialize_eq (w : World) : initialize w = Ok (after_initialize w).
Proof.
  destruct w as [g e].
  unfold initialize, after_initialize, test_connection, get_level_data,
    send_game_start, api_answers at 1.
  unfold bind at 1 2 3 4. unfold get_env, tell, ret, fetched.
  cbn -[load_stage after_load send sent api_answers].
  destruct (level_api e (fetches e) 1);
    cbn -[load_stage after_load send sent api_answers]; [|reflexivity].
  unfold bind at 1. rewrite send_eq. unfold bind, get_self.
  cbn -[load_stage after_load sent api_answers].
  rewrite load_stage_eq. reflexivity.
Qed.

(** ** The steps of a run *)

Lemma after_key_step (key : Z) (w : World) :
  game_state (self w) = STATE_PLAYING -> run_step w (after_key key w).
Proof.
  intros P. unfold after_key. destruct (direction_of key) as [d|];
    [|apply step_none].
  pose proof (step_moved w d P) as Mv. pose proof (step_reached w d P) as Rc.
  unfold goal in Rc. destruct (target (self w) d) as [x y]. cbn [fst snd] in *.
  destruct (is_open (maze (self w)) x y); [|apply step_none].
  destruct (Z.eqb_spec x (end_x (self w))) as [->|]; cbn [andb];
    [|now apply Mv].
  destruct (Z.eqb_spec y (end_y (self w))) as [->|]; [|now apply Mv].
  now apply Rc.
Qed.

Lemma after_event_step (event : PgEvent) (w : World) :
  run_step w (after_event event w).
Proof.
  destruct event as [|key|pos|]; cbn [after_event].
  - apply step_quit.
  - destruct (GameState_eqb (game_state (self w)) STATE_PLAYING) eqn:P;
      [|apply step_none].
    apply GameState_eqb_eq in P. now apply after_key_step.
  - destruct (game_state (self w)) eqn:S; [apply step_none| |].
    + destruct (button_hit (self w) pos); [|apply step_none].
      unfold after_next.
      assert (current_stage
                (set_current_stage (current_stage (self w) + 1) (self w))
              = current_stage (self w) + 1 /\
              total_stages
                (set_current_stage (current_stage (self w) + 1) (self w))
              = total_stages (self w)) as [-> ->]
        by (destruct (self w); split; reflexivity).
      destruct (Z.leb_spec (current_stage (self w) + 1)
                  (total_stages (self w)));
        [now apply step_next|now apply step_past_last].
    + destruct (button_hit (self w) pos); [|apply step_none].
      now apply step_restart.
  - apply step_none.
Qed.

(** An invariant of the runs is a property the first load establishes and
    every step keeps. *)
Lemma reachable_invariant (e0 : Env) (P : World -> Prop) :
  (forall w, after_initialize (mkWorld new_game e0) = (true, w) -> P w) ->
  (forall w w', P w -> run_step w w' -> P w') ->
  forall w, reachable e0 w -> P w.
Proof.
  intros Init Step w R.
  induction R as [w I|event w w' R IH E|w w' R IH E].
  - rewrite initialize_eq in I. injection I as I. now apply Init.
  - rewrite handle_event_eq in E. injection E as <-.
    apply (Step w); [exact IH|apply after_event_step].
  - rewrite draw_eq in E. apply (Step w); [exact IH|].
    destruct (game_state (self w)); [destruct (maze (self w))|..];
      try discriminate; injection E as <-; apply step_draw.
Qed.

Lemma completed_self (w : World) :
  self (completed w) =
  set_game_state
    (if current_stage (self w) >=? total_stages (self w)
     then STATE_GAME_COMPLETE else STATE_STAGE_COMPLETE)
    (self w).
Proof. unfold completed. cbn zeta. now destruct (_ >=? _). Qed.

Lemma after_load_self (n : Z) (w : World) :
  self (after_load n w) =
  match level_api (env w) (fetches (env w)) n with
  | Some sd => entered sd (clock (env w) (ticks (env w))) (self w)
  | None => set_stage_data None (self w)
  end.
Proof. unfold after_load. now destruct (level_api _ _ _). Qed.

Lemma env_after_tick (e : Env) :
  SCREEN_WIDTH (ticked e) = SCREEN_WIDTH e /\
  SCREEN_HEIGHT (ticked e) = SCREEN_HEIGHT e /\
  clock (ticked e) = clock e /\
  level_api (ticked e) = level_api e /\
  fetches (ticked e) = fetches e /\
  queue_url (ticked e) = queue_url e /\
  emitted (ticked e) = emitted e /\
  ticks (ticked e) = S (ticks e).
Proof. destruct e. repeat split. Qed.

Lemma env_after_fetch (e : Env) :
  SCREEN_WIDTH (fetched e) = SCREEN_WIDTH e /\
  SCREEN_HEIGHT (fetched e) = SCREEN_HEIGHT e /\
  clock (fetched e) = clock e /\
  level_api (fetched e) = level_api e /\
  fetches (fetched e) = S (fetches e) /\
  queue_url (fetched e) = queue_url e /\
  emitted (fetched e) = emitted e /\
  ticks (fetched e) = ticks e.
Proof. destruct e. repeat split. Qed.

Lemma env_after_send (ev : Telemetry) (e : Env) :
  SCREEN_WIDTH (sent ev e) = SCREEN_WIDTH e /\
  SCREEN_HEIGHT (sent ev e) = SCREEN_HEIGHT e /\
  clock (sent ev e) = clock e /\
  level_api (sent ev e) = level_api e /\
  fetches (sent ev e) = fetches e /\
  queue_url (sent ev e) = queue_url e /\
  emitted (sent ev e) = emitted e ++ [ev] /\
  ticks (sent ev e) = (ticks e + send_ticks e)%nat.
Proof.
  destruct e as [sw sh ck tk api ft q acc sc em]. unfold sent, send_ticks.
  cbn. destruct q; cbn; repeat split; lia.
Qed.

Lemma after_load_env (n : Z) (w : World) :
  level_api (env (after_load n w)) = level_api (env w) /\
  fetches (env (after_load n w)) = S (fetches (env w)) /\
  emitted (env (after_load n w)) = emitted (env w).
Proof.
  unfold after_load. destruct (level_api _ _ _); cbn [env];
    destruct (env w); repeat split.
Qed.

Lemma completed_env (w : World) :
  level_api (env (completed w)) = level_api (env w) /\
  fetches (env (completed w)) = fetches (env w) /\
  emitted (env (completed w)) =
  emitted (env w) ++
  level_complete (current_stage (self w))
    (PrimFloat.sub (reading (env w) 0) (stage_start_time (self w)))
    (stage_moves (self w))
  :: (if current_stage (self w) >=? total_stages (self w)
      then [game_complete
              (PrimFloat.sub (reading (env w) (1 + send_ticks (env w)))
                 (game_start_time (self w)))
              (total_moves (self w))]
      else []).
Proof.
  destruct (current_stage (self w) >=? total_stages (self w)) eqn:C.
  - destruct (stage_completed_final w C) as (e' & E & Em & A & F).
    rewrite stage_completed_eq in E. injection E as E. rewrite E.
    cbn [env]. now rewrite Em, A, F.
  - destruct (stage_completed_intermediate w C) as (e' & E & Em & A & F).
    rewrite stage_completed_eq in E. injection E as E. rewrite E.
    cbn [env]. now rewrite Em, A, F.
Qed.

Lemma after_restart_env (w : World) :
  level_api (env (after_restart w)) = level_api (env w) /\
  fetches (env (after_restart w)) = S (fetches (env w)) /\
  emitted (env (after_restart w)) = emitted (env w) ++ [game_start].
Proof.
  unfold after_restart.
  destruct (after_load_env 1
              (mkWorld
                 (set_game_start_time (clock (env w) (ticks (env w)))
                    (set_total_moves 0 (set_current_stage 1 (self w))))
                 (sent game_start (ticked (env w))))) as (A & F & Em).
  cbn [env] in A, F, Em. cbn zeta. rewrite A, F, Em.
  destruct (env_after_send game_start (ticked (env w)))
    as (_ & _ & _ & A' & F' & _ & Em' & _).
  destruct (env_after_tick (env w)) as (_ & _ & _ & A'' & F'' & _ & Em'' & _).
  now rewrite A', F', Em', A'', F'', Em''.
Qed.

Lemma after_restart_self (w : World) :
  exists now,
    self (after_restart w) =
    match level_api (env w) (fetches (env w)) 1 with
    | Some sd =>
        entered sd now
          (set_game_start_time (clock (env w) (ticks (env w)))
             (set_total_moves 0 (set_current_stage 1 (self w))))
    | None =>
        set_stage_data None
          (set_game_start_time (clock (env w) (ticks (env w)))
             (set_total_moves 0 (set_current_stage 1 (self w))))
    end.
Proof.
  unfold after_restart. cbn zeta. rewrite after_load_self. cbn [self env].
  destruct (env_after_send game_start (ticked (env w)))
    as (_ & _ & _ & A' & F' & _).
  destruct (env_after_tick (env w)) as (_ & _ & _ & A'' & F'' & _).
  rewrite A', F', A'', F''. eexists. reflexivity.
Qed.

Lemma parse_layout_nonempty (layout : str) : parse_layout layout <> [].
Proof.
  intros E. pose proof (parse_layout_not_empty layout) as L.
  rewrite E in L. cbn in L. lia.
Qed.

Lemma after_initialize_self (w w' : World) :
  after_initialize w = (true, w') ->
  exists sd now now',
    level_api (env w) (S (fetches (env w))) (current_stage (self w))
    = Some sd /\
    self w' = entered sd now (set_game_start_time now' (self w)).
Proof.
  unfold after_initialize. destruct (api_answers (env w) 1);
    [|discriminate].
  cbn zeta. intros E. injection E as A <-. rewrite after_load_self.
  cbn [self env] in *. unfold api_answers in A.
  destruct (env_after_send game_start (ticked (fetched (env w))))
    as (_ & _ & _ & A1 & F1 & _).
  destruct (env_after_tick (fetched (env w))) as (_ & _ & _ & A2 & F2 & _).
  destruct (env_after_fetch (env w)) as (_ & _ & _ & A3 & F3 & _).
  rewrite A1, F1, A2, F2, A3, F3 in *.
  assert (current_stage
            (set_game_start_time
               (clock (fetched (env w)) (ticks (fetched (env w)))) (self w))
          = current_stage (self w)) as Ecs by (now destruct (self w)).
  rewrite Ecs in *.
  destruct (level_api (env w) (S (fetches (env w))) (current_stage (self w)))
    as [sd|]; [|discriminate].
  eexists sd, _, _. split; reflexivity.
Qed.

(** ** The main loop *)






Lemma running_after_key (key : Z) (w : World) :
  running (self (after_key key w)) = running (self w).
Proof.
  unfold after_key. destruct (direction_of key); [|reflexivity].
  destruct (target (self w) d) as [x y].
  destruct (is_open (maze (self w)) x y); [|reflexivity]. cbn zeta.
  destruct (_ && _); [rewrite completed_self|]; cbn [self];
    now destruct (self w).
Qed.

Lemma running_after_load (n : Z) (w : World) :
  running (self (after_load n w)) = running (self w).
Proof.
  rewrite after_load_self. destruct (level_api _ _ _);
    now destruct (self w).
Qed.

Lemma running_after_event (event : PgEvent) (w : World) :
  running (self (after_event event w))
  = running (self w) && negb (is_quit event).
Proof.
  destruct event as [|key|pos|]; cbn [after_event is_quit negb];
    rewrite ?andb_true_r.
  - cbn [self]. destruct (self w). cbn. now rewrite andb_false_r.
  - destruct (GameState_eqb _ _); [apply running_after_key|reflexivity].
  - destruct (game_state (self w)); [reflexivity| |].
    + destruct (button_hit _ _); [|reflexivity]. unfold after_next.
      cbn zeta. destruct (_ <=? _).
      * rewrite running_after_load. cbn [self]. now destruct (self w).
      * cbn [self]. now destruct (self w).
    + destruct (button_hit _ _); [|reflexivity]. unfold after_restart.
      cbn zeta. rewrite running_after_load. cbn [self].
      now destruct (self w).
  - reflexivity.
Qed.

Lemma running_after_events (events : list PgEvent) (w : World) :
  running (self (after_events events w))
  = running (self w) && negb (existsb is_quit events).
Proof.
  revert w. induction events as [|event events IH]; intros w;
    cbn [after_events existsb]; [now rewrite andb_true_r|].
  rewrite IH, running_after_event, negb_orb. now rewrite andb_assoc.
Qed.

Lemma frame_running (events : list PgEvent) (w w' : World) :
  frame events w = Ok (tt, w') ->
  running (self w') = running (self w) && negb (existsb is_quit events).
Proof.
  unfold frame, bind. rewrite handle_events_eq, draw_eq.
  rewrite <- running_after_events.
  destruct (game_state (self (after_events events w))) eqn:S;
    [destruct (maze _); [discriminate|]|..];
    intros E; injection E as <-; unfold after_draw; rewrite S; cbn [self];
    now destruct (self (after_events events w)).
Qed.

(** X2. [QUIT] is the only event that clears [running], and nothing sets
    it again: after a frame, [running] is what it was and no [QUIT] came in
    the batch.  The events that follow [QUIT] in its batch are still handled
    and the frame is still drawn; the loop is left before the next batch is
    read. *)
Theorem quit_ends_the_loop :
  (forall (events : list PgEvent) (w w' : World),
      frame events w = Ok (tt, w') ->
      running (self w')
      = running (self w) && negb (existsb is_quit events)) /\
  (forall (before : list (list PgEvent)) (batch : list PgEvent)
          (later : list (list PgEvent)) (w : World),
      running (self w) = true ->
      Forall (fun events => existsb is_quit events = false) before ->
      existsb is_quit batch = true ->
      main_loop (before ++ batch :: later) w
      = frames (before ++ [batch]) w).
Proof.
  split; [exact frame_running|].
  intros before batch later. induction before as [|events before IH];
    intros w Run NQ Q.
  - cbn [app main_loop frames]. unfold bind at 1. unfold get_self at 1.
    rewrite Run. unfold bind.
    destruct (frame batch w) as [[[] w1]|] eqn:F; [|reflexivity].
    apply frame_running in F. rewrite Run, Q in F. cbn in F.
    destruct later; cbn [main_loop]; unfold bind, get_self; now rewrite F.
  - cbn [app main_loop frames]. unfold bind at 1. unfold get_self at 1.
    rewrite Run. unfold bind.
    destruct (frame events w) as [[[] w1]|] eqn:F; [|reflexivity].
    apply frame_running in F.
    rewrite Run, (Forall_inv NQ) in F. cbn in F.
    apply IH; [exact F|exact (Forall_inv_tail NQ)|exact Q].
Qed.

Lemma quit_ends_the_loop_witness :
  main_loop ([[KEYDOWN K_DOWN]] ++ down_then_quit :: [[KEYDOWN K_UP]])
    corridor_run
  = frames ([[KEYDOWN K_DOWN]] ++ [down_then_quit]) corridor_run.
Proof.
  apply (proj2 quit_ends_the_loop
           [[KEYDOWN K_DOWN]] down_then_quit [[KEYDOWN K_UP]] corridor_run).
  - vm_compute. reflexivity.
  - repeat constructor.
  - reflexivity.
Defined.

(** ** Starting the game *)

(** X3. [initialize] makes two requests to the level API: the connection
    test, for stage 1, and the load of the current stage.  It reports
    success exactly when both are answered.  When the test fails nothing but
    the request happened; once it passed, [game_start] has been sent,
    whether the load then succeeds or not; on success the game is playing a
    stage with no moves on a grid that is not empty. *)
Theorem initialize_outcome (w : World) :
  exists b w',
    initialize w = Ok (b, w') /\
    (b = true <->
     level_api (env w) (fetches (env w)) 1 <> None /\
     level_api (env w) (S (fetches (env w))) (current_stage (self w))
     <> None) /\
    (level_api (env w) (fetches (env w)) 1 = None ->
     w' = mkWorld (self w) (fetched (env w))) /\
    (level_api (env w) (fetches (env w)) 1 <> None ->
     emitted (env w') = emitted (env w) ++ [game_start] /\
     fetches (env w') = S (S (fetches (env w)))) /\
    (b = true ->
     game_state (self w') = STATE_PLAYING /\
     stage_moves (self w') = 0 /\
     maze (self w') <> []).
Proof.
  rewrite initialize_eq.
  destruct (after_initialize w) as [b w'] eqn:I. exists b, w'.
  split; [reflexivity|].
  assert (b = true ->
          exists sd now now',
            level_api (env w) (S (fetches (env w))) (current_stage (self w))
            = Some sd /\
            self w' = entered sd now (set_game_start_time now' (self w)))
    as Served by (intros ->; now apply after_initialize_self).
  unfold after_initialize, api_answers in I.
  destruct (level_api (env w) (fetches (env w)) 1) as [sd1|] eqn:A1.
  - cbn zeta in I. injection I as Hb <-.
    destruct (env_after_send game_start (ticked (fetched (env w))))
      as (_ & _ & _ & A & F & _ & Em & _).
    destruct (env_after_tick (fetched (env w)))
      as (_ & _ & _ & A' & F' & _ & Em' & _).
    destruct (env_after_fetch (env w)) as (_ & _ & _ & A'' & F'' & _ & Em'' & _).
    cbn [self env] in Hb. rewrite A, F, A', F', A'', F'' in Hb.
    assert (current_stage
              (set_game_start_time
                 (clock (fetched (env w)) (ticks (fetched (env w))))
                 (self w))
            = current_stage (self w)) as Ecs by (now destruct (self w)).
    rewrite Ecs in *.
    split; [|split; [discriminate|split]].
    + split.
      * intros ->. split; [discriminate|].
        destruct (level_api (env w) (S (fetches (env w)))
                    (current_stage (self w))); [discriminate|].
        discriminate.
      * intros [_ L]. destruct (level_api (env w) (S (fetches (env w)))
                                  (current_stage (self w)));
          [now symmetry|contradiction].
    + intros _.
      destruct (after_load_env (current_stage (self w))
                  (mkWorld
                     (set_game_start_time
                        (clock (fetched (env w)) (ticks (fetched (env w))))
                        (self w))
                     (sent game_start (ticked (fetched (env w))))))
        as (_ & F3 & Em3).
      cbn [env] in F3, Em3. rewrite F3, Em3, F, Em, F', Em', F'', Em''.
      split; reflexivity.
    + intros T. destruct (Served T) as (sd & now & now' & _ & ->).
      destruct (self w). cbn. repeat split. apply parse_layout_nonempty.
  - injection I as <- <-. split; [|split; [reflexivity|split]].
    + split; [discriminate|]. intros [C _]. contradiction.
    + intros C. contradiction.
    + discriminate.
Qed.

Lemma initialize_outcome_witness :
  exists b w',
    initialize (mkWorld new_game (env_of (flaky 1 corridor))) = Ok (b, w') /\
    b = false /\
    emitted (env w') = [game_start] /\
    fetches (env w') = 2%nat.
Proof.
  destruct (initialize_outcome
              (mkWorld new_game (env_of (flaky 1 corridor))))
    as (b & w' & E & Iff & _ & Passed & _).
  exists b, w'. split; [exact E|].
  destruct Passed as [Em F]; [discriminate|].
  split; [|split; [exact Em|exact F]].
  destruct b; [|reflexivity].
  destruct (proj1 Iff eq_refl) as [_ L]. now contradiction L.
Defined.

(** ** Moves *)

(** X4. A move is decided locally: [handle_movement] never asks the level
    API, a rejected key leaves the whole world as it was, and a move that
    does not reach the goal changes nothing outside the game object (no
    clock reading, no telemetry). *)
Theorem handle_movement_is_local (key : Z) (w : World) :
  exists w',
    handle_movement key w = Ok (tt, w') /\
    fetches (env w') = fetches (env w) /\
    level_api (env w') = level_api (env w) /\
    (outcome (self w) key = Rejected -> w' = w) /\
    (outcome (self w) key = Moved -> env w' = env w) /\
    (outcome (self w) key = ReachedGoal -> emitted (env w') <> emitted (env w)).
Proof.
  rewrite handle_movement_eq. eexists. split; [reflexivity|].
  unfold after_key, outcome. destruct (direction_of key) as [d|];
    [|repeat split; discriminate].
  destruct (target (self w) d) as [x y].
  destruct (is_open (maze (self w)) x y);
    [|repeat split; discriminate].
  cbn zeta. destruct ((x =? end_x (self w)) && (y =? end_y (self w))).
  - destruct (completed_env (mkWorld (moved (self w) x y) (env w)))
      as (A & F & Em).
    cbn [env] in A, F, Em.
    split; [exact F|]. split; [exact A|]. repeat split; try discriminate.
    intros _. rewrite Em. intros E.
    apply (f_equal (@List.length Telemetry)) in E.
    rewrite length_app in E. cbn [List.length] in E. lia.
  - repeat split; discriminate.
Qed.

Lemma handle_movement_is_local_witness :
  handle_movement K_LEFT corridor_run = Ok (tt, corridor_run) /\
  exists w',
    handle_movement K_DOWN corridor_run = Ok (tt, w') /\
    env w' = env corridor_run.
Proof.
  split.
  - destruct (handle_movement_is_local K_LEFT corridor_run)
      as (w' & E & _ & _ & Rej & _).
    rewrite E, Rej; [reflexivity|]. vm_compute. reflexivity.
  - destruct (handle_movement_is_local K_DOWN corridor_run)
      as (w' & E & _ & _ & _ & Mov & _).
    exists w'. split; [exact E|]. apply Mov. vm_compute. reflexivity.
Defined.

Lemma total_moves_after_key (key : Z) (w : World) :
  total_moves (self (after_key key w))
  = total_moves (self w)
    + (if accepted (outcome (self w) key) then 1 else 0).
Proof.
  unfold after_key, outcome. destruct (direction_of key) as [d|];
    [|cbn; lia].
  destruct (target (self w) d) as [x y].
  destruct (is_open (maze (self w)) x y); [|cbn; lia].
  cbn zeta. destruct ((x =? end_x (self w)) && (y =? end_y (self w)));
    [rewrite completed_self|]; cbn [self accepted]; now destruct (self w).
Qed.

Lemma total_moves_after_load (n : Z) (w : World) :
  total_moves (self (after_load n w)) = total_moves (self w).
Proof.
  rewrite after_load_self. destruct (level_api _ _ _);
    now destruct (self w).
Qed.

(** X5. The total move counter runs across stages: over any calls of
    [handle_movement], [load_stage] and [next_stage] it grows by the number
    of accepted moves, and no load, served or not, changes it. *)
Theorem total_moves_accumulates (os : list Op) (w : World) :
  existsb is_restart os = false ->
  exists w',
    calls os w = Ok (tt, w') /\
    total_moves (self w') = total_moves (self w) + accepted_calls os w.
Proof.
  revert w. induction os as [|o os IH]; intros w NR.
  - exists w. split; [reflexivity|]. cbn. lia.
  - cbn [existsb] in NR. apply orb_false_iff in NR as [No NR].
    cbn [calls accepted_calls]. unfold bind.
    assert (exists w1,
               call o w = Ok (tt, w1) /\
               total_moves (self w1)
               = total_moves (self w)
                 + match o with
                   | op_handle_movement key =>
                       if accepted (outcome (self w) key) then 1 else 0
                   | _ => 0
                   end) as (w1 & E1 & T1).
    { destruct o as [key|n| |]; cbn [call]; [| | |discriminate].
      - rewrite handle_movement_eq. eexists. split; [reflexivity|].
        apply total_moves_after_key.
      - unfold bind. rewrite load_stage_eq. eexists.
        split; [reflexivity|]. rewrite total_moves_after_load. lia.
      - rewrite next_stage_eq. eexists. split; [reflexivity|].
        unfold after_next. cbn zeta. destruct (_ <=? _).
        + rewrite total_moves_after_load. cbn [self].
          destruct (self w). cbn. lia.
        + cbn [self]. destruct (self w). cbn. lia. }
    rewrite E1. destruct (IH w1 NR) as (w' & E & T).
    exists w'. split; [exact E|]. rewrite T, T1. lia.
Qed.

Lemma total_moves_accumulates_witness :
  exists w',
    calls next_twice (mkWorld new_game (env_of (flaky 2 corridor)))
    = Ok (tt, w') /\
    total_moves (self w') = 2.
Proof.
  destruct (total_moves_accumulates next_twice
              (mkWorld new_game (env_of (flaky 2 corridor))))
    as (w' & E & T); [reflexivity|].
  exists w'. split; [exact E|]. rewrite T. vm_compute. reflexivity.
Defined.

(** ** Continuing after a load that fails *)

Lemma after_next_in_range (v : World) :
  current_stage (self v) + 1 <= total_stages (self v) ->
  after_next v
  = after_load (current_stage (self v) + 1)
      (mkWorld (set_current_stage (current_stage (self v) + 1) (self v))
         (env v)).
Proof.
  intros L. unfold after_next. cbn zeta.
  assert (current_stage
            (set_current_stage (current_stage (self v) + 1) (self v))
          = current_stage (self v) + 1 /\
          total_stages
            (set_current_stage (current_stage (self v) + 1) (self v))
          = total_stages (self v)) as [-> ->]
    by (destruct (self v); split; reflexivity).
  destruct (Z.leb_spec (current_stage (self v) + 1) (total_stages (self v)));
    [reflexivity|lia].
Qed.

(** X6. [next_stage] adds one to [current_stage] on every call, before it
    knows whether the level arrives.  When the level does not arrive the
    phase, the grid, the player and the counters stay as they were, so the
    popup is still there; when the next continue is served, the stage whose
    load failed has been skipped. *)
Theorem unserved_continue_skips_a_stage (w : World) :
  (exists w',
      next_stage w = Ok (tt, w') /\
      current_stage (self w') = current_stage (self w) + 1 /\
      total_stages (self w') = total_stages (self w)) /\
  (forall sd : StageData,
      current_stage (self w) + 2 <= total_stages (self w) ->
      level_api (env w) (fetches (env w)) (current_stage (self w) + 1)
      = None ->
      level_api (env w) (S (fetches (env w))) (current_stage (self w) + 2)
      = Some sd ->
      exists w1 w2,
        next_stage w = Ok (tt, w1) /\
        game_state (self w1) = game_state (self w) /\
        maze (self w1) = maze (self w) /\
        position (self w1) = position (self w) /\
        stage_moves (self w1) = stage_moves (self w) /\
        next_stage w1 = Ok (tt, w2) /\
        current_stage (self w2) = current_stage (self w) + 2 /\
        stage_data (self w2) = Some sd /\
        game_state (self w2) = STATE_PLAYING).
Proof.
  split.
  - rewrite next_stage_eq. eexists. split; [reflexivity|].
    unfold after_next. cbn zeta. destruct (_ <=? _).
    + rewrite after_load_self. cbn [self env].
      destruct (level_api _ _ _); destruct (self w); split; reflexivity.
    + cbn [self]. destruct (self w); split; reflexivity.
  - intros sd L A1 A2. rewrite next_stage_eq.
    exists (after_next w), (after_next (after_next w)).
    split; [reflexivity|]. rewrite next_stage_eq.
    assert (self (after_next w)
            = set_stage_data None
                (set_current_stage (current_stage (self w) + 1) (self w))
            /\ level_api (env (after_next w)) = level_api (env w)
            /\ fetches (env (after_next w)) = S (fetches (env w)))
      as (S1 & A & F).
    { rewrite after_next_in_range by lia.
      rewrite after_load_self. cbn [self env]. rewrite A1.
      split; [reflexivity|].
      destruct (after_load_env (current_stage (self w) + 1)
                  (mkWorld
                     (set_current_stage (current_stage (self w) + 1)
                        (self w)) (env w))) as (A & F & _).
      split; assumption. }
    assert (current_stage (self (after_next w)) = current_stage (self w) + 1
            /\ total_stages (self (after_next w)) = total_stages (self w))
      as [C1 T1] by (rewrite S1; destruct (self w); split; reflexivity).
    assert (self (after_next (after_next w))
            = entered sd
                (clock (env (after_next w)) (ticks (env (after_next w))))
                (set_current_stage (current_stage (self w) + 2)
                   (self (after_next w)))) as S2.
    { rewrite (after_next_in_range (after_next w)) by lia.
      rewrite after_load_self. cbn [self env]. rewrite A, F, C1.
      replace (current_stage (self w) + 1 + 1)
        with (current_stage (self w) + 2) by lia.
      now rewrite A2. }
    rewrite S2, S1. repeat split; try (now destruct (self w)).
Qed.

Lemma unserved_continue_skips_a_stage_witness :
  exists w1 w2,
    next_stage solved_before_failure = Ok (tt, w1) /\
    game_state (self w1) = STATE_STAGE_COMPLETE /\
    next_stage w1 = Ok (tt, w2) /\
    current_stage (self w2) = 3 /\
    game_state (self w2) = STATE_PLAYING.
Proof.
  destruct (proj2 (unserved_continue_skips_a_stage solved_before_failure)
              corridor)
    as (w1 & w2 & E1 & St & _ & _ & _ & E2 & Cs & _ & Pl);
    [vm_compute; discriminate|reflexivity|reflexivity|].
  exists w1, w2. split; [exact E1|]. split; [rewrite St; reflexivity|].
  split; [exact E2|]. split; [rewrite Cs; reflexivity|exact Pl].
Defined.

(** ** Invariants of the runs *)

Lemma after_initialize_env (w w' : World) :
  after_initialize w = (true, w') ->
  level_api (env w') = level_api (env w) /\
  emitted (env w') = emitted (env w) ++ [game_start].
Proof.
  unfold after_initialize. destruct (api_answers (env w) 1);
    [|discriminate].
  cbn zeta. intros E. injection E as _ <-.
  match goal with
  | |- context [after_load ?n ?v] =>
      destruct (after_load_env n v) as (A & _ & Em)
  end.
  cbn [env] in A, Em. rewrite A, Em.
  destruct (env_after_send game_start (ticked (fetched (env w))))
    as (_ & _ & _ & A1 & _ & _ & Em1 & _).
  destruct (env_after_tick (fetched (env w)))
    as (_ & _ & _ & A2 & _ & _ & Em2 & _).
  destruct (env_after_fetch (env w)) as (_ & _ & _ & A3 & _ & _ & Em3 & _).
  now rewrite A1, A2, A3, Em1, Em2, Em3.
Qed.

Lemma run_step_api (w w' : World) :
  run_step w w' -> level_api (env w') = level_api (env w).
Proof.
  intros S. destruct S; cbn [env]; try reflexivity.
  - exact (proj1 (completed_env
                    (mkWorld
                       (moved (self w) (end_x (self w)) (end_y (self w)))
                       (env w)))).
  - match goal with
    | |- context [after_load ?n ?v] => exact (proj1 (after_load_env n v))
    end.
  - exact (proj1 (after_restart_env w)).
  - unfold after_draw. destruct (game_state (self w)); cbn [env];
      try reflexivity;
      exact (proj1 (proj2 (proj2 (proj2 (env_after_tick (env w)))))).
Qed.

(** X7. In every state of a run in which the phase is not playing, the
    player stands on the goal, and the goal is an open cell of the grid:
    a stage is only ever completed by stepping onto the goal, and nothing
    moves the player or changes the grid until a load is served. *)
Theorem complete_phase_means_on_goal (e0 : Env) (w : World) :
  reachable e0 w ->
  game_state (self w) <> STATE_PLAYING ->
  position (self w) = goal (self w) /\
  is_open (maze (self w)) (player_x (self w)) (player_y (self w)) = true.
Proof.
  revert w.
  apply (reachable_invariant e0
           (fun w =>
              game_state (self w) <> STATE_PLAYING ->
              position (self w) = goal (self w) /\
              is_open (maze (self w)) (player_x (self w)) (player_y (self w))
              = true)).
  - intros w I. apply after_initialize_self in I as (sd & now & now' & _ & ->).
    cbn. congruence.
  - intros w w' J S. destruct S; cbn [self].
    + exact J.
    + destruct (self w); exact J.
    + intros NP. exfalso. apply NP. destruct (self w); cbn in *. assumption.
    + intros _. rewrite completed_self. cbn [self].
      unfold goal, target in *. destruct (self w); cbn in *.
      injection H1 as Hx Hy. rewrite Hx, Hy in H0. now split.
    + rewrite after_load_self. cbn [self env].
      destruct (level_api _ _ _) as [sd|].
      * intros NP. exfalso. apply NP. now destruct (self w).
      * intros _. assert (game_state (self w) <> STATE_PLAYING) as NP
          by congruence.
        specialize (J NP). destruct (self w); exact J.
    + intros _. assert (game_state (self w) <> STATE_PLAYING) as NP
        by congruence.
      specialize (J NP). destruct (self w); exact J.
    + destruct (after_restart_self w) as (now & ->).
      destruct (level_api _ _ _) as [sd|].
      * intros NP. exfalso. apply NP. now destruct (self w).
      * intros _. assert (game_state (self w) <> STATE_PLAYING) as NP
          by congruence.
        specialize (J NP). destruct (self w); exact J.
    + unfold after_draw. destruct (game_state (self w)) eqn:S; cbn [self].
      * rewrite S. exact J.
      * intros _. specialize (J ltac:(discriminate)).
        destruct (self w); exact J.
      * intros _. specialize (J ltac:(discriminate)).
        destruct (self w); exact J.
Qed.

Lemma complete_phase_means_on_goal_witness :
  position (self (after_run (flaky 10 corridor) continue_twice))
  = goal (self (after_run (flaky 10 corridor) continue_twice)).
Proof.
  apply (complete_phase_means_on_goal (env_of (flaky 10 corridor))
           (after_run (flaky 10 corridor) continue_twice)).
  - apply after_run_reachable. vm_compute. reflexivity.
  - vm_compute. discriminate.
Defined.

(** X8. The loader does not check the start of a level, but when every
    level the API can return starts on an open cell of its own layout, the
    player stands on an open cell of the current grid in every state of a
    run, also after loads that fail. *)
Theorem player_stays_on_open_cells (e0 : Env) (w : World) :
  (forall (n : nat) (stage : Z) (sd : StageData),
      level_api e0 n stage = Some sd ->
      is_open (parse_layout (sd_layout sd)) (sd_start_x sd) (sd_start_y sd)
      = true) ->
  reachable e0 w ->
  is_open (maze (self w)) (player_x (self w)) (player_y (self w)) = true.
Proof.
  intros Starts R.
  enough (level_api (env w) = level_api e0 /\
          is_open (maze (self w)) (player_x (self w)) (player_y (self w))
          = true) by tauto.
  revert w R.
  apply (reachable_invariant e0
           (fun w =>
              level_api (env w) = level_api e0 /\
              is_open (maze (self w)) (player_x (self w)) (player_y (self w))
              = true)).
  - intros w I. destruct (after_initialize_env _ _ I) as [A _].
    apply after_initialize_self in I as (sd & now & now' & L & ->).
    split; [exact A|]. cbn [env] in L. apply Starts in L. exact L.
  - intros w w' [A O] S. split; [now rewrite (run_step_api w w' S)|].
    destruct S; cbn [self].
    + exact O.
    + destruct (self w); exact O.
    + destruct (self w); cbn in *. assumption.
    + rewrite completed_self. cbn [self]. unfold goal, target in *.
      destruct (self w); cbn in *.
      injection H1 as Hx Hy. now rewrite Hx, Hy in H0.
    + rewrite after_load_self. cbn [self env].
      destruct (level_api _ _ _) as [sd|] eqn:L.
      * rewrite A in L. apply Starts in L. now destruct (self w).
      * destruct (self w); exact O.
    + destruct (self w); exact O.
    + destruct (after_restart_self w) as (now & ->).
      destruct (level_api _ _ _) as [sd|] eqn:L.
      * rewrite A in L. apply Starts in L. now destruct (self w).
      * destruct (self w); exact O.
    + unfold after_draw. destruct (game_state (self w)); cbn [self];
        destruct (self w); exact O.
Qed.

Lemma player_stays_on_open_cells_witness :
  is_open (maze (self (after_run (flaky 10 corridor) continue_twice)))
    (player_x (self (after_run (flaky 10 corridor) continue_twice)))
    (player_y (self (after_run (flaky 10 corridor) continue_twice)))
  = true.
Proof.
  apply (player_stays_on_open_cells (env_of (flaky 10 corridor))).
  - intros n stage sd. cbn. unfold flaky.
    destruct (n <? 10)%nat; [|discriminate].
    intros E. injection E as <-. vm_compute. reflexivity.
  - apply after_run_reachable. vm_compute. reflexivity.
Defined.

(** X9. The telemetry of a process that starts with an empty trace is
    sequenced: it opens with [game_start]; [game_complete] only ever comes
    directly after a [level_complete]; and after [game_complete] nothing is
    sent before the next [game_start].  While the trace ends with
    [game_complete] the phase is game-complete. *)
Theorem telemetry_is_sequenced (e0 : Env) (w : World) :
  emitted e0 = [] ->
  reachable e0 w ->
  exists over : bool,
    telemetry_trace over (emitted (env w)) /\
    (over = true -> game_state (self w) = STATE_GAME_COMPLETE).
Proof.
  intros Empty. revert w.
  apply (reachable_invariant e0
           (fun w =>
              exists over : bool,
                telemetry_trace over (emitted (env w)) /\
                (over = true -> game_state (self w) = STATE_GAME_COMPLETE))).
  - intros w I. destruct (after_initialize_env _ _ I) as [_ Em].
    apply after_initialize_self in I as (sd & now & now' & _ & S).
    exists false. cbn [env] in Em. rewrite Em, Empty. cbn.
    split; [apply trace_start|discriminate].
  - intros w w' (over & T & G) S.
    assert (game_state (self w) <> STATE_GAME_COMPLETE -> over = false)
      as NotOver
      by (destruct over; intros N;
          [exfalso; apply N; now apply G|reflexivity]).
    destruct S; cbn [self env].
    + exists over. now split.
    + exists over. split; [exact T|]. destruct (self w); exact G.
    + exists over. split; [exact T|]. destruct (self w); exact G.
    + rewrite NotOver in T by congruence.
      destruct (completed_env
                  (mkWorld (moved (self w) (end_x (self w)) (end_y (self w)))
                     (env w))) as (_ & _ & Em).
      rewrite Em, completed_self. cbn [self env].
      destruct (_ >=? _).
      * exists true. split; [now apply trace_game|].
        intros _. now destruct (self w).
      * exists false. split; [now apply trace_stage|discriminate].
    + rewrite NotOver in T by congruence. exists false.
      match goal with
      | |- context [after_load ?n ?v] =>
          destruct (after_load_env n v) as (_ & _ & Em)
      end.
      rewrite Em. cbn [env]. split; [exact T|discriminate].
    + rewrite NotOver in T by congruence. exists false.
      split; [exact T|discriminate].
    + exists false. destruct (after_restart_env w) as (_ & _ & Em).
      rewrite Em. split; [now apply trace_restart with (over := over)|].
      discriminate.
    + exists over. unfold after_draw.
      destruct (game_state (self w)) eqn:St; cbn [self env].
      * rewrite St. split; [|exact G].
        now rewrite (proj1 (proj2 (proj2 (proj2 (proj2 (proj2
                      (proj2 (env_after_tick (env w))))))))).
      * split; [exact T|]. intros O. specialize (G O). discriminate.
      * split; [|intros _; now destruct (self w)].
        now rewrite (proj1 (proj2 (proj2 (proj2 (proj2 (proj2
                      (proj2 (env_after_tick (env w))))))))).
Qed.

Lemma telemetry_is_sequenced_witness :
  exists over : bool,
    telemetry_trace over
      (emitted (env (after_run (fun _ _ => Some corridor) play_again))) /\
    (over = true ->
     game_state (self (after_run (fun _ _ => Some corridor) play_again))
     = STATE_GAME_COMPLETE).
Proof.
  apply (telemetry_is_sequenced (env_of (fun _ _ => Some corridor))).
  - reflexivity.
  - apply after_run_reachable. vm_compute. reflexivity.
Defined.

(** ** Clicks *)

(** X10. A click is matched against the button of the popup drawn last.
    Once the popup of a completed stage is drawn, a click inside its button
    is the continue action and any other click does nothing; once the
    game-complete popup is drawn, a click inside its button restarts the
    game.  Whatever the screen size, the middle of a button is inside it. *)
Theorem click_follows_the_drawn_button (w : World) (pos : Z * Z) :
  (game_state (self w) = STATE_STAGE_COMPLETE ->
   exists w1,
     draw w = Ok (tt, w1) /\
     handle_event (MOUSEBUTTONDOWN pos) w1
     = if collidepoint (stage_complete_button (env w)) pos
       then next_stage w1 else Ok (tt, w1)) /\
  (game_state (self w) = STATE_GAME_COMPLETE ->
   exists w1,
     draw w = Ok (tt, w1) /\
     handle_event (MOUSEBUTTONDOWN pos) w1
     = if collidepoint (game_complete_button (env w)) pos
       then restart_game w1 else Ok (tt, w1)) /\
  collidepoint (stage_complete_button (env w))
    (centre (stage_complete_button (env w))) = true /\
  collidepoint (game_complete_button (env w))
    (centre (game_complete_button (env w))) = true.
Proof.
  split; [|split; [|split]].
  - intros S. rewrite draw_eq, S. eexists. split; [reflexivity|].
    unfold after_draw. rewrite S.
    unfold handle_event, bind, get_self. cbn [self].
    destruct w as [g e]. destruct g. cbn in S. subst. cbn.
    destruct (collidepoint _ _); reflexivity.
  - intros S. rewrite draw_eq, S. eexists. split; [reflexivity|].
    unfold after_draw. rewrite S.
    unfold handle_event, bind, get_self. cbn [self].
    destruct w as [g e]. destruct g. cbn in S. subst. cbn.
    destruct (collidepoint _ _); reflexivity.
  - unfold collidepoint, centre, stage_complete_button. cbn.
    rewrite !andb_true_iff. repeat split; lia.
  - unfold collidepoint, centre, game_complete_button. cbn.
    rewrite !andb_true_iff. repeat split; lia.
Qed.

Lemma click_follows_the_drawn_button_witness :
  exists w1,
    draw (after_run (fun _ _ => Some corridor) solve) = Ok (tt, w1) /\
    handle_event (MOUSEBUTTONDOWN (400, 360)) w1 = next_stage w1 /\
    handle_event (MOUSEBUTTONDOWN (400, 380)) w1 = Ok (tt, w1).
Proof.
  destruct (proj1 (click_follows_the_drawn_button
                     (after_run (fun _ _ => Some corridor) solve)
                     (400, 360)))
    as (w1 & D & In); [vm_compute; reflexivity|].
  destruct (proj1 (click_follows_the_drawn_button
                     (after_run (fun _ _ => Some corridor) solve)
                     (400, 380)))
    as (w2 & D' & Out); [vm_compute; reflexivity|].
  rewrite D in D'. injection D' as <-.
  exists w1. split; [exact D|]. split; [exact In|exact Out].
Defined.

(** ** What play depends on *)

Lemma bare_after_load (n : Z) (w : World) :
  bare (after_load n w) = bare (after_load n (bare w)).
Proof.
  destruct w as [g e]. destruct g, e. unfold after_load, bare. cbn.
  destruct (level_api0 fetches0 n); reflexivity.
Qed.

Lemma bare_completed (w : World) :
  bare (completed w) = bare (completed (bare w)).
Proof.
  destruct w as [g e]. destruct g, e.
  unfold completed, bare, sent, ticked. cbn.
  destruct queue_url0; cbn; destruct (current_stage0 >=? total_stages0);
    reflexivity.
Qed.

Lemma bare_idempotent (w : World) : bare (bare w) = bare w.
Proof. destruct w as [g e]. destruct g, e. reflexivity. Qed.

Lemma bare_after_key (key : Z) (w : World) :
  bare (after_key key w) = bare (after_key key (bare w)).
Proof.
  unfold after_key. destruct (direction_of key) as [d|];
    [|now rewrite bare_idempotent].
  assert (target (self (bare w)) d = target (self w) d /\
          maze (self (bare w)) = maze (self w) /\
          end_x (self (bare w)) = end_x (self w) /\
          end_y (self (bare w)) = end_y (self w)) as (-> & -> & -> & ->)
    by (destruct w as [g e]; destruct g; repeat split).
  destruct (target (self w) d) as [x y].
  destruct (is_open (maze (self w)) x y); [|now rewrite bare_idempotent].
  cbn zeta.
  assert (bare (mkWorld (moved (self w) x y) (env w))
          = bare (mkWorld (moved (self (bare w)) x y) (env (bare w)))) as B
    by (destruct w as [g e]; destruct g, e; reflexivity).
  destruct (_ && _).
  - rewrite bare_completed, B, <- bare_completed. reflexivity.
  - exact B.
Qed.

Lemma bare_after_event (event : PgEvent) (w : World) :
  bare (after_event event w) = bare (after_event event (bare w)).
Proof.
  destruct event as [|key|pos|]; cbn [after_event].
  - destruct w as [g e]. destruct g, e. reflexivity.
  - assert (game_state (self (bare w)) = game_state (self w)) as ->
      by (destruct w as [g e]; now destruct g).
    destruct (GameState_eqb _ _);
      [apply bare_after_key|now rewrite bare_idempotent].
  - assert (game_state (self (bare w)) = game_state (self w) /\
            button_hit (self (bare w)) pos = button_hit (self w) pos)
      as [-> ->] by (destruct w as [g e]; destruct g; split; reflexivity).
    destruct (game_state (self w)); [now rewrite bare_idempotent|..];
      (destruct (button_hit (self w) pos); [|now rewrite bare_idempotent]).
    + unfold after_next. cbn zeta.
      assert (current_stage (self (bare w)) = current_stage (self w) /\
              total_stages (self (bare w)) = total_stages (self w))
        as [Ecs Ets] by (destruct w as [g e]; destruct g; split; reflexivity).
      assert (forall v : World,
                 current_stage
                   (set_current_stage (current_stage (self v) + 1) (self v))
                 = current_stage (self v) + 1 /\
                 total_stages
                   (set_current_stage (current_stage (self v) + 1) (self v))
                 = total_stages (self v)) as Upd
        by (intros v; destruct (self v); split; reflexivity).
      rewrite (proj1 (Upd w)), (proj2 (Upd w)),
        (proj1 (Upd (bare w))), (proj2 (Upd (bare w))), Ecs, Ets.
      destruct (_ <=? _).
      * rewrite bare_after_load.
        rewrite (bare_after_load _ (mkWorld _ (env (bare w)))).
        f_equal. f_equal. destruct w as [g e]. destruct g, e. reflexivity.
      * destruct w as [g e]. destruct g, e. reflexivity.
    + unfold after_restart. cbn zeta.
      rewrite bare_after_load.
      rewrite (bare_after_load _ (mkWorld _ (sent _ (ticked (env (bare w)))))).
      f_equal. f_equal. destruct w as [g e]. destruct g, e.
      unfold bare, sent, ticked. cbn. destruct queue_url0; reflexivity.
  - now rewrite bare_idempotent.
Qed.

Lemma bare_after_events (events : list PgEvent) (w : World) :
  bare (after_events events w) = bare (after_events events (bare w)).
Proof.
  revert w. induction events as [|event events IH]; intros w;
    cbn [after_events]; [now rewrite bare_idempotent|].
  rewrite IH, bare_after_event, <- IH. reflexivity.
Qed.

(** X11. Telemetry and the clock never steer the game.  Two worlds that
    differ only in the clock, the time stamps, the analytics queue and what
    was sent so far handle any batch of events to two worlds that again
    differ only in those: the phase, the stage, the grid, the player, the
    counters and the requests to the level API are the same, whether the
    queue is configured or not and whether SQS accepts the messages or
    not. *)
Theorem telemetry_never_steers_play (events : list PgEvent)
    (w1 w2 : World) :
  bare w1 = bare w2 ->
  exists w1' w2',
    handle_events events w1 = Ok (tt, w1') /\
    handle_events events w2 = Ok (tt, w2') /\
    bare w1' = bare w2'.
Proof.
  intros B. rewrite !handle_events_eq. eexists _, _.
  split; [reflexivity|]. split; [reflexivity|].
  rewrite bare_after_events, B, <- bare_after_events. reflexivity.
Qed.

Lemma telemetry_never_steers_play_witness :
  exists w1' w2',
    handle_events [KEYDOWN K_DOWN; KEYDOWN K_DOWN] corridor_run
    = Ok (tt, w1') /\
    handle_events [KEYDOWN K_DOWN; KEYDOWN K_DOWN] corridor_run_with_queue
    = Ok (tt, w2') /\
    bare w1' = bare w2'.
Proof.
  apply (telemetry_never_steers_play [KEYDOWN K_DOWN; KEYDOWN K_DOWN]
           corridor_run corridor_run_with_queue).
  vm_compute. reflexivity.
Defined.

(** ** The development client *)

Lemma local_is_valid_move_open (g : LocalDev.MazeGame) (x y : Z) :
  LocalDev.is_valid_move g x y = Ok (is_open (LocalDev.maze g) x y).
Proof. now apply (valid_move_is_open (LocalDev.maze g) x y). Qed.

Lemma local_table_serves (n : Z) :
  1 <= n <= 3 ->
  exists sd, LocalDev.get_stage (Some LocalDev.stages) n = Some sd.
Proof.
  intros H. assert (n = 1 \/ n = 2 \/ n = 3) as [-> | [-> | ->]] by lia;
    eexists; reflexivity.
Qed.

Lemma local_load_in_step (n : Z) (g : LocalDev.MazeGame) :
  LocalDev.db_handler g = Some LocalDev.stages ->
  LocalDev.total_stages g = 3 ->
  LocalDev.current_stage g = n ->
  1 <= n <= 3 ->
  local_in_step (snd (LocalDev.load_stage n g)).
Proof.
  intros Db T C R. destruct (local_table_serves n R) as (sd & S).
  unfold LocalDev.load_stage. rewrite Db, S. rewrite <- C in S.
  in_step sd.
Qed.

Lemma local_movement_in_step (key : Z) (g g' : LocalDev.MazeGame) :
  local_in_step g ->
  LocalDev.game_state g = STATE_PLAYING ->
  LocalGame.handle_movement key g = Ok g' ->
  local_in_step g'.
Proof.
  intros (Db & T & C & (sd & Sd & Gs & Mz) & _ & _) P.
  unfold LocalGame.handle_movement.
  destruct (if key =? K_UP then _ else _) as [x y].
  rewrite local_is_valid_move_open.
  destruct (is_open (LocalDev.maze g) x y).
  - cbn zeta.
    assert (local_in_step (LocalGame.set_player x y g)) as In
      by (in_step sd; congruence).
    destruct (_ && _); intros E; injection E as <-; [|exact In].
    unfold LocalGame.stage_completed.
    cbn [LocalDev.current_stage LocalDev.total_stages LocalGame.set_player].
    rewrite T.
    destruct (Z.geb_spec (LocalDev.current_stage g) 3); in_step sd.
  - intros E. injection E as <-. in_step sd; congruence.
Qed.

Lemma local_reachable_in_step (g : LocalDev.MazeGame) :
  LocalGame.reachable g -> local_in_step g.
Proof.
  induction 1 as [g I|event g g' R IH E|g g' R IH E].
  - unfold LocalDev.initialize in I. cbn in I.
    replace g with (snd (LocalDev.load_stage 1
                           (LocalDev.mkMazeGame (Some LocalDev.stages) 1 3
                              None [] 0 0 0 0 STATE_PLAYING true None)))
      by (cbn; now injection I).
    apply local_load_in_step; cbn; try reflexivity. lia.
  - pose proof IH as (Db & T & C & (sd & Sd & Gs & Mz) & Sc & Gc).
    destruct event as [|key|pos|]; cbn [LocalGame.handle_event] in E.
    + injection E as <-. in_step sd.
    + destruct (GameState_eqb _ _) eqn:P.
      * apply GameState_eqb_eq in P.
        exact (local_movement_in_step key g g' IH P E).
      * now injection E as <-.
    + destruct (GameState_eqb (LocalDev.game_state g) STATE_STAGE_COMPLETE)
        eqn:S.
      { apply GameState_eqb_eq in S. specialize (Sc S).
        destruct (LocalGame.button_hit g pos); injection E as <-;
          [|exact IH].
        unfold LocalGame.next_stage. cbn zeta.
        cbn [LocalDev.current_stage LocalDev.total_stages
               LocalGame.set_current_stage].
        rewrite T.
        destruct (Z.leb_spec (LocalDev.current_stage g + 1) 3); [|lia].
        apply local_load_in_step; cbn; try assumption; try reflexivity.
        lia. }
      destruct (GameState_eqb (LocalDev.game_state g) STATE_GAME_COMPLETE)
        eqn:G; [|now injection E as <-].
      destruct (LocalGame.button_hit g pos); injection E as <-; [|exact IH].
      unfold LocalGame.restart_game. cbn zeta.
      apply local_load_in_step; cbn; try assumption; try reflexivity. lia.
    + now injection E as <-.
  - pose proof IH as (Db & T & C & (sd & Sd & Gs & Mz) & Sc & Gc).
    unfold LocalGame.draw in E.
    destruct (LocalDev.game_state g) eqn:S.
    + destruct (py_index (LocalDev.maze g) 0); [|discriminate].
      now injection E as <-.
    + injection E as <-. in_step sd; rewrite S in *; auto.
    + injection E as <-. in_step sd; rewrite S in *; auto.
Qed.

(** X12. The development client cannot lose a level.  In every state of
    its runs the handler is connected, the stage is between 1 and 3, the
    level loaded is the row of the table for that stage and the grid is its
    parsed layout, the game-complete phase is on stage 3 and the
    stage-complete phase before it; every event is handled without an
    exception and every frame is drawn. *)
Theorem local_run_stays_in_step (g : LocalDev.MazeGame) :
  LocalGame.reachable g ->
  local_in_step g /\
  (forall event : PgEvent,
      exists g',
        LocalGame.handle_event event g = Ok g' /\ LocalGame.reachable g') /\
  (exists g', LocalGame.draw g = Ok g' /\ LocalGame.reachable g').
Proof.
  intros R. pose proof (local_reachable_in_step g R) as In.
  split; [exact In|]. split.
  - intros event.
    assert (exists g', LocalGame.handle_event event g = Ok g')
      as (g' & E).
    { destruct event as [|key|pos|]; cbn [LocalGame.handle_event];
        try (eexists; reflexivity).
      - destruct (GameState_eqb _ _); [|eexists; reflexivity].
        unfold LocalGame.handle_movement.
        destruct (if key =? K_UP then _ else _) as [x y].
        rewrite local_is_valid_move_open.
        destruct (is_open _ _ _); [|eexists; reflexivity].
        cbn zeta. destruct (_ && _); eexists; reflexivity.
      - destruct (GameState_eqb _ STATE_STAGE_COMPLETE).
        + destruct (LocalGame.button_hit g pos); eexists; reflexivity.
        + destruct (GameState_eqb _ STATE_GAME_COMPLETE);
            [destruct (LocalGame.button_hit g pos)|]; eexists; reflexivity. }
    exists g'. split; [exact E|].
    exact (LocalGame.reach_event event g g' R E).
  - assert (exists g', LocalGame.draw g = Ok g') as (g' & E).
    { unfold LocalGame.draw. destruct (LocalDev.game_state g);
        try (eexists; reflexivity).
      destruct In as (_ & _ & _ & (sd & _ & _ & Mz) & _).
      pose proof (parse_layout_nonempty (sd_layout sd)) as NE.
      rewrite <- Mz in NE.
      destruct (LocalDev.maze g) as [|row rows]; [contradiction|].
      eexists. reflexivity. }
    exists g'. split; [exact E|]. exact (LocalGame.reach_draw g g' R E).
Qed.

Lemma local_run_stays_in_step_witness :
  local_in_step local_started /\
  exists g',
    LocalGame.handle_event (KEYDOWN K_RIGHT) local_started = Ok g' /\
    LocalGame.reachable g'.
Proof.
  destruct (local_run_stays_in_step local_started) as (In & Ev & _).
  - apply LocalGame.reach_initialize. reflexivity.
  - split; [exact In|]. apply Ev.
Defined.

Lemma local_destination (key : Z) (l : LocalDev.MazeGame) :
  (if key =? K_UP then (LocalDev.player_x l, LocalDev.player_y l - 1)
   else if key =? K_DOWN then (LocalDev.player_x l, LocalDev.player_y l + 1)
   else if key =? K_LEFT then (LocalDev.player_x l - 1, LocalDev.player_y l)
   else if key =? K_RIGHT then (LocalDev.player_x l + 1, LocalDev.player_y l)
   else (LocalDev.player_x l, LocalDev.player_y l))
  = match direction_of key with
    | Some d =>
        (LocalDev.player_x l + fst (delta d),
         LocalDev.player_y l + snd (delta d))
    | None => (LocalDev.player_x l, LocalDev.player_y l)
    end.
Proof.
  unfold direction_of.
  destruct (key =? K_UP); [cbn; f_equal; lia|].
  destruct (key =? K_DOWN); [cbn; f_equal; lia|].
  destruct (key =? K_LEFT); [cbn; f_equal; lia|].
  destruct (key =? K_RIGHT); [cbn; f_equal; lia|].
  reflexivity.
Qed.

(** X13. The two clients differ on keys that are not arrow keys.  The API
    client returns at once.  The development client takes the player's own
    cell as the destination: the player stays where it is, but when it
    stands on the goal and that cell is open the stage is completed, by any
    key. *)
Theorem local_client_completes_on_any_key (key : Z) :
  direction_of key = None ->
  (forall w : World, handle_movement key w = Ok (tt, w)) /\
  (forall g : LocalDev.MazeGame,
      exists g',
        LocalGame.handle_movement key g = Ok g' /\
        LocalDev.maze g' = LocalDev.maze g /\
        LocalDev.player_x g' = LocalDev.player_x g /\
        LocalDev.player_y g' = LocalDev.player_y g /\
        LocalDev.game_state g'
        = if is_open (LocalDev.maze g) (LocalDev.player_x g)
               (LocalDev.player_y g)
             && (LocalDev.player_x g =? LocalDev.end_x g)
             && (LocalDev.player_y g =? LocalDev.end_y g)
          then if LocalDev.current_stage g >=? LocalDev.total_stages g
               then STATE_GAME_COMPLETE else STATE_STAGE_COMPLETE
          else LocalDev.game_state g).
Proof.
  intros D. split; [intros w; now apply handle_movement_other_key|].
  intros g. unfold LocalGame.handle_movement. cbn zeta.
  rewrite local_destination, D. cbv beta iota zeta.
  rewrite local_is_valid_move_open.
  destruct (is_open _ _ _); cbn [andb]; [|eexists; repeat split].
  cbn [LocalDev.player_x LocalDev.player_y LocalDev.end_x LocalDev.end_y
         LocalGame.set_player].
  destruct (_ && _); [|eexists; repeat split].
  unfold LocalGame.stage_completed.
  cbn [LocalDev.current_stage LocalDev.total_stages LocalGame.set_player].
  destruct (_ >=? _); eexists; repeat split.
Qed.

Lemma local_client_completes_on_any_key_witness :
  handle_movement 32 corridor_run = Ok (tt, corridor_run) /\
  exists g',
    LocalGame.handle_movement 32 local_on_goal = Ok g' /\
    LocalDev.game_state local_on_goal = STATE_PLAYING /\
    LocalDev.game_state g' = STATE_STAGE_COMPLETE.
Proof.
  destruct (local_client_completes_on_any_key 32) as [Api Dev];
    [reflexivity|].
  split; [apply Api|].
  destruct (Dev local_on_goal) as (g' & E & _ & _ & _ & St).
  exists g'. split; [exact E|]. split; [reflexivity|].
  rewrite St. vm_compute. reflexivity.
Defined.

(** X14. On arrow keys the two clients move alike: from the same board
    (grid, player, goal, stage, number of stages, phase) the same arrow key
    leads both to the same board, without an exception in either. *)
Theorem clients_move_alike (d : Direction) (w : World)
    (l : LocalDev.MazeGame) :
  same_board (self w) l ->
  exists w' l',
    handle_movement (key_of d) w = Ok (tt, w') /\
    LocalGame.handle_movement (key_of d) l = Ok l' /\
    same_board (self w') l'.
Proof.
  intros (Mz & Px & Py & Ex & Ey & Cs & Ts & Gs).
  rewrite handle_movement_eq. unfold LocalGame.handle_movement. cbn zeta.
  rewrite local_destination, direction_of_key. cbv beta iota zeta.
  rewrite local_is_valid_move_open.
  unfold after_key. rewrite direction_of_key. unfold target.
  rewrite Mz, Px, Py.
  destruct (is_open (maze (self w)) (player_x (self w) + fst (delta d))
              (player_y (self w) + snd (delta d))).
  - cbn zeta.
    cbn [LocalDev.player_x LocalDev.player_y LocalDev.end_x LocalDev.end_y
           LocalGame.set_player].
    rewrite Ex, Ey. destruct (_ && _).
    + eexists _, _. split; [reflexivity|]. split; [reflexivity|].
      rewrite completed_self. unfold LocalGame.stage_completed.
      cbn [self LocalDev.current_stage LocalDev.total_stages
             LocalGame.set_player].
      rewrite Cs, Ts.
      assert (current_stage
                (moved (self w) (player_x (self w) + fst (delta d))
                   (player_y (self w) + snd (delta d)))
              = current_stage (self w) /\
              total_stages
                (moved (self w) (player_x (self w) + fst (delta d))
                   (player_y (self w) + snd (delta d)))
              = total_stages (self w)) as [-> ->]
        by (destruct (self w); split; reflexivity).
      destruct (_ >=? _); unfold same_board; destruct (self w); cbn in *;
        repeat split; assumption.
    + eexists _, _. split; [reflexivity|]. split; [reflexivity|].
      unfold same_board. destruct (self w); cbn in *.
      repeat split; assumption.
  - eexists _, _. split; [reflexivity|]. split; [reflexivity|].
    unfold same_board. repeat split; assumption.
Qed.

Lemma clients_move_alike_witness :
  exists w' l',
    handle_movement K_RIGHT
      (mkWorld (board_of local_started) (env_of (fun _ _ => None)))
    = Ok (tt, w') /\
    LocalGame.handle_movement K_RIGHT local_started = Ok l' /\
    same_board (self w') l'.
Proof.
  apply (clients_move_alike Right
           (mkWorld (board_of local_started) (env_of (fun _ _ => None)))
           local_started).
  repeat split.
Defined.

(** ** The grid a layout parses to *)

Lemma lstrip_incl (s : str) (c : char) : In c (lstrip s) -> In c s.
Proof.
  induction s as [|x s IH]; cbn; [tauto|].
  destruct (isspace x); [intros H; right; now apply IH|now cbn].
Qed.

Lemma rstrip_incl (s : str) (c : char) : In c (rstrip s) -> In c s.
Proof.
  unfold rstrip. intros H. apply in_rev in H. apply lstrip_incl in H.
  now apply in_rev.
Qed.

Lemma rstrip_app_not_blank (a l : str) :
  blank l = false -> rstrip (a ++ l) = a ++ rstrip l.
Proof.
  intros B. unfold rstrip. rewrite rev_app_distr.
  rewrite lstrip_app_not_blank by (now rewrite blank_rev).
  now rewrite rev_app_distr, rev_involutive.
Qed.

Lemma join_nl_last (rows : list str) (l : str) :
  join_nl (rows ++ [l])
  = List.concat (map (fun r => r ++ [NL]) rows) ++ l.
Proof.
  induction rows as [|r rows IH]; [reflexivity|].
  cbn [app map List.concat]. rewrite join_nl_cons.
  destruct (rows ++ [l]) eqn:D; [now destruct rows|].
  rewrite IH, <- !app_assoc. reflexivity.
Qed.

(** X15. The grid of a layout.  When every row of the layout holds a
    character that is not white space, the grid has the rows of the layout,
    except that the first row has lost its leading white space and the last
    row its trailing white space: open cells written as spaces at those two
    ends shift the row or shorten it.  White space and blank lines before
    the layout are ignored. *)
Theorem parse_layout_grid :
  (forall rows : list str,
      rows <> [] ->
      Forall (fun r => ~ In NL r /\ blank r = false) rows ->
      parse_layout (join_nl rows) = trim_ends rows) /\
  (forall layout w : str,
      blank w = true -> parse_layout (w ++ layout) = parse_layout layout).
Proof.
  split.
  - intros rows NE F. rewrite parse_layout_rows.
    destruct rows as [|r rest]; [congruence|]. clear NE.
    pose proof (Forall_inv F) as [Nr Br]. cbn beta in Nr, Br.
    pose proof (Forall_inv_tail F) as Frest.
    assert (lstrip (join_nl (r :: rest)) = join_nl (lstrip r :: rest)) as L.
    { rewrite !join_nl_cons. now apply lstrip_app_not_blank. }
    unfold strip. rewrite L.
    destruct rest as [|r' rest'].
    + cbn [join_nl trim_ends]. unfold split_nl.
      rewrite split_rows_one; [reflexivity|].
      intros I. apply Nr. now apply lstrip_incl, rstrip_incl.
    + destruct (@exists_last _ (r' :: rest')) as (init & l & E);
        [discriminate|].
      cbn [trim_ends]. rewrite E in *.
      rewrite removelast_last, last_last.
      apply Forall_app in Frest as [Finit Fl].
      pose proof (Forall_inv Fl) as [Nl Bl]. cbn beta in Nl, Bl.
      change (lstrip r :: init ++ [l]) with ((lstrip r :: init) ++ [l]).
      rewrite join_nl_last, rstrip_app_not_blank by exact Bl.
      rewrite <- join_nl_last. apply split_join; [discriminate|].
      cbn [app]. constructor.
      * intros I. apply Nr. now apply lstrip_incl.
      * apply Forall_app. split.
        -- eapply Forall_impl; [|exact Finit]. cbn. tauto.
        -- constructor; [|constructor]. intros I. apply Nl.
           now apply rstrip_incl.
  - intros layout w B. rewrite !parse_layout_rows. unfold strip.
    now rewrite lstrip_app_blank.
Qed.

Lemma parse_layout_grid_witness :
  parse_layout (join_nl indented_rows) = [lit "#"; lit "##"] /\
  parse_layout (lit "  " ++ join_nl corridor_rows)
  = parse_layout (join_nl corridor_rows).
Proof.
  destruct parse_layout_grid as [Grid Leading]. split.
  - rewrite (Grid indented_rows); [reflexivity|discriminate|].
    repeat constructor; cbn; intuition discriminate.
  - apply (Leading (join_nl corridor_rows) (lit "  ")). reflexivity.
Defined.

(* ================================================================== *)
(** * The level service and its client *)

Import Lambda.

(** ** The computations of the service *)

Lemma grows_refl (P : Call -> Prop) (w : Container) : grows P w w.
Proof. exists []. split; [now rewrite app_nil_r | constructor]. Qed.

Lemma grows_trans (P : Call -> Prop) (w1 w2 w3 : Container) :
  grows P w1 w2 -> grows P w2 w3 -> grows P w1 w3.
Proof.
  intros [l1 [E1 F1]] [l2 [E2 F2]]. exists (l1 ++ l2). split.
  - now rewrite E2, E1, app_assoc.
  - apply Forall_app. now split.
Qed.

Lemma grows_call (P : Call -> Prop) (w : Container) (c : Call) :
  P c -> grows P w (set_calls (calls w ++ [c]) w).
Proof. intros H. exists [c]. split; [reflexivity | now constructor]. Qed.

(** [get_db_credentials] leaves the pooled connection alone and calls
    nothing but Secrets Manager. *)
Lemma get_db_credentials_effect (B : Backend) (w : Container) :
  db_connection (snd (get_db_credentials B w)) = db_connection w
  /\ grows (fun c => is_query c = false) w (snd (get_db_credentials B w)).
Proof.
  unfold get_db_credentials, fetch_db_credentials, bind, global, ret, raise,
    call, assign.
  destruct (db_credentials_cache w) as [[|f s]|]; cbn;
    destruct (SECRET_ARN B) as [[|a arn]|]; cbn;
    try (split; [reflexivity | apply grows_refl]);
    match goal with
    | |- context [secretsmanager B ?k ?a] =>
        destruct (secretsmanager B k a) as [secret|code e|e]; cbn;
        repeat match goal with
               | |- context [if ?b then _ else _] => destruct b; cbn
               end;
        (split; [reflexivity
                | exists [get_secret_value a]; split;
                  [reflexivity | now constructor]])
    end.
Qed.

Lemma get_db_credentials_cached (B : Backend) (w : Container) (secret : Dict) :
  db_credentials_cache w = Some secret -> secret <> [] ->
  get_db_credentials B w = (Return secret, w).
Proof.
  intros E N. unfold get_db_credentials, bind, global. rewrite E.
  destruct secret; [contradiction | reflexivity].
Qed.

Lemma new_db_connection_effect (B : Backend) (w : Container)
    (r : Outcome Conn) (w' : Container) :
  new_db_connection B w = (r, w') ->
  grows (fun c => is_query c = false) w w'
  /\ match r with
     | Return c => db_connection w' = Some c /\ last_checks B (calls w') c
     | Raised _ => db_connection w' = db_connection w
     end.
Proof.
  unfold new_db_connection, bind at 1.
  pose proof (get_db_credentials_effect B w) as [C G].
  destruct (get_db_credentials B w) as [[credentials|e] w1]; cbn in C, G;
    [|intros [= <- <-]; split; [exact G | exact C]].
  unfold bind at 1, lift.
  destruct (connect_kwargs credentials) as [kwargs|e]; cbn;
    [|unfold raise; intros [= <- <-]; split; [exact G | exact C]].
  unfold bind, call, assign, ret, raise. cbn.
  assert (G' : grows (fun c => is_query c = false) w
                 (set_calls (calls w1 ++ [connect kwargs]) w1)).
  { apply (grows_trans _ w w1 _ G). now apply grows_call. }
  destruct (psycopg2_connect B (List.length (calls w1)) kwargs)
    as [c|e|e] eqn:E; cbn; intros [= <- <-].
  - split.
    + destruct G' as [l [E1 F1]]. exists l. now split.
    + split; [reflexivity|].
      exists (calls w1), (connect kwargs). split; [reflexivity|].
      right. exists kwargs. split; [|exact E]. cbn.
      rewrite nth_error_app2 by apply Nat.le_refl.
      now rewrite Nat.sub_diag.
  - split; [exact G' | exact C].
  - split; [exact G' | exact C].
Qed.

Lemma get_db_connection_effect (B : Backend) (w : Container)
    (r : Outcome Conn) (w' : Container) :
  get_db_connection B w = (r, w') ->
  grows (fun c => is_query c = false) w w'
  /\ match r with
     | Return c => db_connection w' = Some c /\ last_checks B (calls w') c
     | Raised _ => db_connection w' = None
     end.
Proof.
  unfold get_db_connection, bind at 1, global.
  destruct (db_connection w) as [c0|] eqn:D.
  - unfold bind at 1, call.
    destruct (alive B (List.length (calls w)) c0) eqn:A.
    + cbn. intros [= <- <-]. split.
      * now apply grows_call.
      * split; [exact D|].
        exists (calls w), (select_1 c0). split; [reflexivity|].
        left. split; [|exact A]. cbn.
        rewrite nth_error_app2 by apply Nat.le_refl.
        now rewrite Nat.sub_diag.
    + unfold bind at 1, assign.
      set (w1 := set_db_connection None (set_calls (calls w ++ [select_1 c0]) w)).
      intros E.
      pose proof (new_db_connection_effect B w1 r w' E) as [G R].
      split.
      * apply (grows_trans _ w w1 _); [|exact G].
        exists [select_1 c0]. split; [reflexivity | now constructor].
      * destruct r; exact R.
  - intros E. pose proof (new_db_connection_effect B w r w' E) as [G R].
    split; [exact G|].
    destruct r; [exact R | now rewrite R].
Qed.

(** ** One invocation *)

(** What [answer] does with an event: it returns a 400 response, or fails on
    [pathParameters] being [null], in both cases before anything else
    happened; or it goes to the database with a stage number between 1 and
    10. *)
Lemma answer_cases (B : Backend) (int_of_str : str -> option Z)
    (event : Event) (w : Container) :
  (exists error,
      answer B int_of_str event w = (Return (bad_request error), w))
  \/ (pathParameters event = Null
      /\ answer B int_of_str event w
         = (Raised (AttributeError (lit "NoneType") "get"), w))
  \/ (exists n, 1 <= n <= 10
                /\ answer B int_of_str event w = from_database B n w).
Proof.
  assert (V : forall v, truthy v = true ->
            (exists error,
               (checked <- validate int_of_str v ;;
                match checked with
                | inr response => ret response
                | inl n => from_database B n
                end)%service w = (Return (bad_request error), w))
            \/ (exists n, 1 <= n <= 10 /\
               (checked <- validate int_of_str v ;;
                match checked with
                | inr response => ret response
                | inl n => from_database B n
                end)%service w = from_database B n w)).
  { assert (K : forall n,
              (exists error,
               (checked <- (if (n <? 1) || (n >? 10)
                            then ret (inr (bad_request "Stage number must be between 1 and 10"))
                            else ret (inl n)) ;;
                match checked with
                | inr response => ret response
                | inl n => from_database B n
                end)%service w = (Return (bad_request error), w))
            \/ (exists m, 1 <= m <= 10 /\
               (checked <- (if (n <? 1) || (n >? 10)
                            then ret (inr (bad_request "Stage number must be between 1 and 10"))
                            else ret (inl n)) ;;
                match checked with
                | inr response => ret response
                | inl n => from_database B n
                end)%service w = from_database B m w)).
    { intros n. destruct ((n <? 1) || (n >? 10)) eqn:R.
      - left. eexists. reflexivity.
      - right. exists n. split; [lia | reflexivity]. }
    intros [|n|s] T; [discriminate T | exact (K n) |].
    unfold validate. destruct (int_of_str s) as [n|].
    - exact (K n).
    - left. eexists. reflexivity. }
  destruct (pathParameters event) as [| |d] eqn:P.
  - left. unfold answer. rewrite P. eexists. reflexivity.
  - right. left. unfold answer. rewrite P. split; reflexivity.
  - assert (E : answer B int_of_str event w
               = (if negb (truthy (get d "stage_number"))
                  then ret (bad_request "Missing stage_number parameter")
                  else
                    checked <- validate int_of_str (get d "stage_number") ;;
                    match checked with
                    | inr response => ret response
                    | inl n => from_database B n
                    end)%service w).
    { unfold answer. rewrite P. reflexivity. }
    fold (answer B int_of_str event). rewrite E.
    destruct (truthy (get d "stage_number")) eqn:T; cbn [negb].
    + destruct (V _ T) as [H|H]; [left | right; right]; exact H.
    + left. eexists. reflexivity.
Qed.

(** What [from_database] does: the connection is obtained, then the query
    is the next call. *)
Lemma from_database_effect (B : Backend) (n : Z) (w : Container)
    (r : Outcome Response) (w' : Container) :
  from_database B n w = (r, w') ->
  (exists e, get_db_connection B w = (Raised e, w') /\ r = Raised e)
  \/ (exists c w1,
        get_db_connection B w = (Return c, w1)
        /\ w' = set_calls (calls w1 ++ [select_stage c n]) w1
        /\ r = match fetch_stage B (List.length (calls w1)) c n with
               | QueryRaises e => Raised e
               | Fetched None =>
                   Return (mkResponse 404 CORS
                             (error_body (lit "Stage " ++ str_of_int n
                                          ++ lit " not found")))
               | Fetched (Some result) =>
                   Return (mkResponse 200 CORS (success_body result))
               end).
Proof.
  unfold from_database, bind at 1.
  destruct (get_db_connection B w) as [[c|e] w1].
  - unfold bind, call, ret, raise. cbn.
    destruct (fetch_stage B (List.length (calls w1)) c n) as [[row|]|e]
      eqn:F;
      intros [= <- <-]; right; exists c, w1;
      (split; [reflexivity | split; [reflexivity | now rewrite F]]).
  - intros [= <- <-]. left. exists e. split; reflexivity.
Qed.

Lemma lambda_handler_cases (B : Backend) (int_of_str : str -> option Z)
    (event : Event) (w : Container) :
  (exists error,
      lambda_handler B int_of_str event w = (bad_request error, w))
  \/ (pathParameters event = Null
      /\ lambda_handler B int_of_str event w
         = (mkResponse 500 CORS
              (internal_error_body (AttributeError (lit "NoneType") "get")),
            w))
  \/ (exists n r w',
        1 <= n <= 10 /\ from_database B n w = (r, w')
        /\ lambda_handler B int_of_str event w
           = (match r with
              | Return response => response
              | Raised e => mkResponse 500 CORS (internal_error_body e)
              end, w')).
Proof.
  unfold lambda_handler.
  destruct (answer_cases B int_of_str event w) as [[error E]|[[P E]|[n [R E]]]];
    rewrite E.
  - left. now exists error.
  - right. left. now split.
  - right. right. destruct (from_database B n w) as [r w'] eqn:F.
    exists n, r, w'. split; [exact R|]. split; [exact F|].
    now destruct r.
Qed.

(** X16. A request is rejected before the backend is touched.  Whenever
    the handler answers 400 the container is as it was: no call on Secrets
    Manager or on the database was made, and the pooled connection and the
    cached credentials are unchanged.  An event whose [pathParameters] is
    [null] is not answered 400 but 500, with the type [AttributeError], also
    without any call; an event without the key is answered 400. *)
Theorem rejected_requests_touch_nothing (B : Backend)
    (int_of_str : str -> option Z) (event : Event) (w : Container) :
  (statusCode (fst (lambda_handler B int_of_str event w)) = 400 ->
   snd (lambda_handler B int_of_str event w) = w)
  /\ (pathParameters event = Null ->
      lambda_handler B int_of_str event w
      = (mkResponse 500 CORS
           (internal_error_body (AttributeError (lit "NoneType") "get")), w))
  /\ (pathParameters event = Absent ->
      statusCode (fst (lambda_handler B int_of_str event w)) = 400).
Proof.
  split; [|split].
  - destruct (lambda_handler_cases B int_of_str event w)
      as [[error E]|[[P E]|[n [r [w' [R [F E]]]]]]]; rewrite E; cbn.
    + reflexivity.
    + reflexivity.
    + intros S. exfalso.
      destruct (from_database_effect B n w r w' F)
        as [[e [_ ->]]|[c [w1 [_ [_ ->]]]]]; [discriminate S|].
      destruct (fetch_stage B (List.length (calls w1)) c n) as [[row|]|e];
        discriminate S.
  - intros P.
    destruct (lambda_handler_cases B int_of_str event w)
      as [[error E]|[[_ E]|[n [r [w' [R [F E]]]]]]].
    + exfalso. unfold lambda_handler, answer in E. rewrite P in E.
      discriminate E.
    + exact E.
    + unfold lambda_handler, answer. now rewrite P.
  - intros P. unfold lambda_handler, answer. now rewrite P.
Qed.

Lemma rejected_requests_touch_nothing_witness :
  snd (lambda_handler backend_1 decimal (level "11") warm) = warm
  /\ snd (lambda_handler backend_1 decimal (level "one") warm) = warm
  /\ lambda_handler backend_1 decimal (mkEvent Null) warm
     = (mkResponse 500 CORS
          (internal_error_body (AttributeError (lit "NoneType") "get")),
        warm).
Proof.
  split; [|split].
  - apply (proj1 (rejected_requests_touch_nothing
                    backend_1 decimal (level "11") warm)).
    vm_compute. reflexivity.
  - apply (proj1 (rejected_requests_touch_nothing
                    backend_1 decimal (level "one") warm)).
    vm_compute. reflexivity.
  - apply (proj1 (proj2 (rejected_requests_touch_nothing
                           backend_1 decimal (mkEvent Null) warm))).
    reflexivity.
Defined.

(** ** The trace of a container *)

Lemma checks_app (B : Backend) (trace l : list Call) (j : nat) (c : Conn) :
  checks B trace j c -> checks B (trace ++ l) j c.
Proof.
  assert (K : forall x, nth_error trace j = Some x ->
                        nth_error (trace ++ l) j = Some x).
  { intros x H. rewrite nth_error_app1; [exact H|].
    apply nth_error_Some. now rewrite H. }
  intros [[H A]|[kwargs [H A]]].
  - left. split; [now apply K | exact A].
  - right. exists kwargs. split; [now apply K | exact A].
Qed.

Lemma sound_app_quiet (B : Backend) (trace l : list Call) :
  sound B trace -> Forall (fun c => is_query c = false) l ->
  sound B (trace ++ l).
Proof.
  intros So Q i c n H.
  destruct (Nat.lt_ge_cases i (List.length trace)) as [L|L].
  - rewrite nth_error_app1 in H by exact L.
    destruct (So i c n H) as [R [j [-> C]]].
    split; [exact R|]. exists j. split; [reflexivity|].
    now apply checks_app.
  - rewrite nth_error_app2 in H by exact L.
    apply nth_error_In in H. rewrite Forall_forall in Q.
    specialize (Q _ H). discriminate Q.
Qed.

Lemma sound_query (B : Backend) (trace : list Call) (c : Conn) (n : Z) :
  sound B trace -> last_checks B trace c -> 1 <= n <= 10 ->
  sound B (trace ++ [select_stage c n]).
Proof.
  intros So [prefix [last [E C]]] R i c' n' H.
  destruct (Nat.lt_ge_cases i (List.length trace)) as [L|L].
  - rewrite nth_error_app1 in H by exact L.
    destruct (So i c' n' H) as [R' [j [-> C']]].
    split; [exact R'|]. exists j. split; [reflexivity|].
    now apply checks_app.
  - rewrite nth_error_app2 in H by exact L.
    destruct (i - List.length trace)%nat as [|k] eqn:D.
    + cbn in H. injection H as <- <-. split; [exact R|].
      exists (List.length prefix). split.
      * assert (List.length trace = S (List.length prefix)) as T.
        { rewrite E, length_app. cbn. apply Nat.add_1_r. }
        lia.
      * now apply checks_app.
    + cbn in H. destruct k; discriminate H.
Qed.

Lemma lambda_handler_sound (B : Backend) (int_of_str : str -> option Z)
    (event : Event) (w : Container) :
  sound B (calls w) ->
  sound B (calls (snd (lambda_handler B int_of_str event w))).
Proof.
  intros So.
  destruct (lambda_handler_cases B int_of_str event w)
    as [[error E]|[[P E]|[n [r [w' [R [F E]]]]]]]; rewrite E; cbn;
    [exact So | exact So |].
  destruct (from_database_effect B n w r w' F)
    as [[e [G _]]|[c [w1 [G [-> _]]]]].
  - destruct (get_db_connection_effect B w _ _ G) as [[l [-> Q]] _].
    now apply sound_app_quiet.
  - destruct (get_db_connection_effect B w _ _ G) as [[l [T Q]] [_ C]].
    cbn. apply sound_query; [|exact C | exact R].
    rewrite T. now apply sound_app_quiet.
Qed.

(** X17. Every query is for a validated stage, on a checked connection.
    Over any sequence of invocations that starts from a trace with this
    property (the empty trace of the cold container has it), each query for a
    stage in the trace is for a number between 1 and 10 and comes directly
    after the call that showed its connection to be live: the probe
    [SELECT 1] that succeeded on it, or the [connect] that returned it. *)
Theorem queries_are_validated_and_checked (B : Backend)
    (int_of_str : str -> option Z) (w : Container) (events : list Event) :
  sound B (calls w) ->
  sound B (calls (serve B int_of_str events w)).
Proof.
  revert w. induction events as [|event events IH]; intros w So.
  - exact So.
  - cbn. apply IH. now apply lambda_handler_sound.
Qed.

Lemma queries_are_validated_and_checked_witness :
  sound backend_2
    (calls (serve backend_2 decimal [level "1"; level "0"; level "3"] cold)).
Proof.
  apply (queries_are_validated_and_checked backend_2 decimal cold
           [level "1"; level "0"; level "3"]).
  intros [|i] c n H; discriminate H.
Defined.

(** ** The credentials *)

Lemma grows_weaken (P Q : Call -> Prop) (w w' : Container) :
  (forall c, P c -> Q c) -> grows P w w' -> grows Q w w'.
Proof.
  intros I [l [E F]]. exists l. split; [exact E|].
  eapply Forall_impl; [exact I | exact F].
Qed.

Lemma get_db_connection_cached (B : Backend) (w : Container) (secret : Dict)
    (r : Outcome Conn) (w' : Container) :
  db_credentials_cache w = Some secret -> secret <> [] ->
  get_db_connection B w = (r, w') ->
  db_credentials_cache w' = Some secret /\ grows (uses secret) w w'.
Proof.
  intros E N.
  assert (K : forall w0 r w', db_credentials_cache w0 = Some secret ->
            new_db_connection B w0 = (r, w') ->
            db_credentials_cache w' = Some secret
            /\ grows (uses secret) w0 w').
  { clear w r w' E. intros w r w' E. unfold new_db_connection, bind at 1.
    rewrite (get_db_credentials_cached B w secret E N).
    unfold bind at 1, lift.
    destruct (connect_kwargs secret) as [kwargs|e] eqn:A; cbn.
    - unfold bind, call, assign, ret, raise.
      destruct (psycopg2_connect B (List.length (calls w)) kwargs);
        cbn; intros [= <- <-]; (split; [exact E|]);
        exists [connect kwargs]; (split; [reflexivity|]);
        constructor; [exact A | constructor | exact A | constructor
                     | exact A | constructor].
    - unfold raise. intros [= <- <-]. split; [exact E | apply grows_refl]. }
  unfold get_db_connection, bind at 1, global.
  destruct (db_connection w) as [c0|].
  - unfold bind at 1, call.
    destruct (alive B (List.length (calls w)) c0).
    + cbn. intros [= <- <-]. split; [exact E|].
      exists [select_1 c0]. split; [reflexivity|]. now constructor.
    + unfold bind at 1, assign. intros H.
      destruct (K (set_db_connection None
                     (set_calls (calls w ++ [select_1 c0]) w)) _ _ E H)
        as [E' G].
      split; [exact E'|].
      eapply grows_trans; [|exact G].
      exists [select_1 c0]. split; [reflexivity|]. now constructor.
  - intros H. exact (K _ _ _ E H).
Qed.

Lemma lambda_handler_cached (B : Backend) (int_of_str : str -> option Z)
    (event : Event) (w : Container) (secret : Dict) :
  db_credentials_cache w = Some secret -> secret <> [] ->
  db_credentials_cache (snd (lambda_handler B int_of_str event w))
  = Some secret
  /\ grows (uses secret) w (snd (lambda_handler B int_of_str event w)).
Proof.
  intros C N.
  destruct (lambda_handler_cases B int_of_str event w)
    as [[error E]|[[P E]|[n [r [w' [R [F E]]]]]]]; rewrite E; cbn;
    try (split; [exact C | apply grows_refl]).
  destruct (from_database_effect B n w r w' F)
    as [[e [G _]]|[c [w1 [G [-> _]]]]].
  - exact (get_db_connection_cached B w secret _ _ C N G).
  - destruct (get_db_connection_cached B w secret _ _ C N G) as [C1 G1].
    split; [exact C1|].
    eapply grows_trans; [exact G1|].
    exists [select_stage c n]. split; [reflexivity|]. now constructor.
Qed.

(** X18. The credentials are fetched once per container.  When the cache
    holds a secret that is not empty, no sequence of invocations changes it
    or calls Secrets Manager again, and every [psycopg2.connect] made uses
    the fields of that secret: a secret rotated in the meantime is never
    read, whatever the backend answers. *)
Theorem credentials_are_fetched_once (B : Backend)
    (int_of_str : str -> option Z) (secret : Dict) (w : Container)
    (events : list Event) :
  db_credentials_cache w = Some secret -> secret <> [] ->
  db_credentials_cache (serve B int_of_str events w) = Some secret
  /\ grows (uses secret) w (serve B int_of_str events w).
Proof.
  intros C N. revert w C.
  induction events as [|event events IH]; intros w C.
  - split; [exact C | apply grows_refl].
  - cbn. destruct (lambda_handler_cached B int_of_str event w secret C N)
      as [C1 G1].
    destruct (IH _ C1) as [C2 G2]. split; [exact C2|].
    eapply grows_trans; [exact G1 | exact G2].
Qed.

Lemma credentials_are_fetched_once_witness :
  db_credentials_cache
    (serve backend_2 decimal [level "1"; level "2"; level "1"] warm)
  = Some secret_1
  /\ grows (uses secret_1) warm
       (serve backend_2 decimal [level "1"; level "2"; level "1"] warm).
Proof.
  apply (credentials_are_fetched_once backend_2 decimal secret_1 warm
           [level "1"; level "2"; level "1"]).
  - vm_compute. reflexivity.
  - discriminate.
Defined.

(** ** The connection *)

Lemma split_parts_first (sep : char) (s : str) :
  ~ In sep (fst (split_parts sep s))
  /\ (s = fst (split_parts sep s)
      \/ exists rest, s = fst (split_parts sep s) ++ sep :: rest).
Proof.
  induction s as [|c s [N D]]; cbn.
  - split; [intros [] | now left].
  - destruct (split_parts sep s) as [r rs]. cbn in N, D.
    destruct (c =? sep)%N eqn:E; cbn.
    + apply N.eqb_eq in E. subst c. split; [intros [] |].
      right. now exists s.
    + apply N.eqb_neq in E. split.
      * intros [H|H]; [now apply E | now apply N].
      * destruct D as [D|[rest D]]; [left | right; exists rest];
          now rewrite D at 1.
Qed.

(** X19. The host given to the driver is the [host] of the secret up to its
    first colon: it holds no colon, and the [host] of the secret is that
    prefix, alone or followed by a colon and a rest that is dropped.  The
    other arguments are the fields [port], [database], [username] and
    [password] of the secret as they are; the port comes from [port] also
    when [host] names one. *)
Theorem connect_host_drops_the_port (credentials : Dict)
    (kwargs : ConnectArgs) :
  connect_kwargs credentials = Return kwargs ->
  ~ In COLON (host kwargs)
  /\ (exists h, lookup credentials (lit "host") = Some (VStr h)
                /\ (h = host kwargs
                    \/ exists rest, h = host kwargs ++ COLON :: rest))
  /\ lookup credentials (lit "port") = Some (port kwargs)
  /\ lookup credentials (lit "database") = Some (database kwargs)
  /\ lookup credentials (lit "username") = Some (user kwargs)
  /\ lookup credentials (lit "password") = Some (password kwargs).
Proof.
  unfold connect_kwargs, getitem.
  destruct (lookup credentials (lit "host")) as [[|n|h]|]; try discriminate.
  destruct (lookup credentials (lit "port")) as [p|]; try discriminate.
  destruct (lookup credentials (lit "database")) as [d|]; try discriminate.
  destruct (lookup credentials (lit "username")) as [u|]; try discriminate.
  destruct (lookup credentials (lit "password")) as [pw|]; try discriminate.
  intros [= <-]. cbn [host port database user password].
  assert (E : hd [] (split_on COLON h) = fst (split_parts COLON h)).
  { unfold split_on. now destruct (split_parts COLON h). }
  rewrite E. destruct (split_parts_first COLON h) as [N D].
  split; [exact N|]. split; [|repeat split].
  exists h. split; [reflexivity | exact D].
Qed.

Lemma connect_host_drops_the_port_witness :
  ~ In COLON (lit "db.internal")
  /\ (exists h, lookup secret_1 (lit "host") = Some (VStr h)
                /\ (h = lit "db.internal"
                    \/ exists rest, h = lit "db.internal" ++ COLON :: rest))
  /\ lookup secret_1 (lit "port") = Some (VInt 5432)
  /\ lookup secret_1 (lit "database") = Some (VStr (lit "maze"))
  /\ lookup secret_1 (lit "username") = Some (VStr (lit "game"))
  /\ lookup secret_1 (lit "password") = Some (VStr (lit "pw")).
Proof.
  apply (connect_host_drops_the_port secret_1
           (mkConnectArgs (lit "db.internal") (VInt 5432)
              (VStr (lit "maze")) (VStr (lit "game")) (VStr (lit "pw")))).
  vm_compute. reflexivity.
Defined.

(** ** The status of a response *)

(** X20. The status of a response tells what happened in the container.
    After a 200 the last call is the query, made on the connection that is
    now pooled, it returned a row, and the body carries that row; after a 404
    the same query returned no row.  After a 500 either [pathParameters] was
    [null] and nothing happened, or no connection is pooled (none could be
    obtained, and a connection that failed its probe was dropped), or the
    query itself raised and its connection stays pooled.  There is no other
    status than 200, 400, 404 and 500. *)
Theorem status_tells_what_happened (B : Backend)
    (int_of_str : str -> option Z) (event : Event) (w : Container) :
  let response := fst (lambda_handler B int_of_str event w) in
  let w' := snd (lambda_handler B int_of_str event w) in
  (statusCode response = 200 ->
   exists c n result,
     1 <= n <= 10 /\ queried B w' c n (Fetched (Some result))
     /\ body response = success_body result)
  /\ (statusCode response = 404 ->
      exists c n, 1 <= n <= 10 /\ queried B w' c n (Fetched None))
  /\ (statusCode response = 500 ->
      (pathParameters event = Null /\ w' = w)
      \/ db_connection w' = None
      \/ exists c n e, 1 <= n <= 10 /\ queried B w' c n (QueryRaises e))
  /\ (statusCode response = 200 \/ statusCode response = 400
      \/ statusCode response = 404 \/ statusCode response = 500).
Proof.
  cbv zeta.
  destruct (lambda_handler_cases B int_of_str event w)
    as [[error E]|[[P E]|[n [r [w' [R [F E]]]]]]]; rewrite E; cbn.
  - repeat split; try discriminate. right. now left.
  - repeat split; try discriminate.
    + intros _. left. now split.
    + now do 3 right.
  - destruct (from_database_effect B n w r w' F)
      as [[e [G ->]]|[c [w1 [G [-> ->]]]]].
    + destruct (get_db_connection_effect B w _ _ G) as [_ D]. cbn.
      repeat split; try discriminate.
      * intros _. right. now left.
      * now do 3 right.
    + destruct (get_db_connection_effect B w _ _ G) as [_ [D _]].
      assert (Q : forall o, fetch_stage B (List.length (calls w1)) c n = o ->
                queried B (set_calls (calls w1 ++ [select_stage c n]) w1)
                        c n o).
      { intros o H. exists (calls w1). now repeat split. }
      destruct (fetch_stage B (List.length (calls w1)) c n) as [[row|]|e]
        eqn:O; cbn; repeat split; try discriminate.
      * intros _. exists c, n, row. split; [exact R|]. split; [|reflexivity].
        now apply Q.
      * now left.
      * intros _. exists c, n. split; [exact R | now apply Q].
      * right. right. now left.
      * intros _. right. right. exists c, n, e. split; [exact R | now apply Q].
      * now do 3 right.
Qed.

Lemma status_tells_what_happened_witness :
  exists c n result,
    1 <= n <= 10
    /\ queried backend_1 warm c n (Fetched (Some result))
    /\ body (fst (lambda_handler backend_1 decimal (level "1") cold))
       = success_body result.
Proof.
  apply (proj1 (status_tells_what_happened
                  backend_1 decimal (level "1") cold)).
  vm_compute. reflexivity.
Defined.

(** ** The client of the service *)

(** X21. The client against the service.  When the JSON document that
    [get_level_data] receives is the body of a response of the handler, it
    returns [None] for every response other than the handler's 200, and for
    every HTTP status from 400 to 599 whatever the body; for the handler's
    200 under any other HTTP status it returns the dictionary of the nine
    columns of the row. *)
Theorem client_accepts_only_the_success_body (B : Backend)
    (int_of_str : str -> option Z) (event : Event) (w : Container)
    (requests_get : APIClient.Transport) (api_url : str) (n status_code : Z) :
  let response := fst (lambda_handler B int_of_str event w) in
  requests_get (APIClient.url api_url n)
  = APIClient.Answers status_code (Some (body response)) ->
  (statusCode response <> 200 ->
   APIClient.get_level_data requests_get api_url n = None)
  /\ (400 <= status_code < 600 ->
      APIClient.get_level_data requests_get api_url n = None)
  /\ (statusCode response = 200 -> ~ 400 <= status_code < 600 ->
      exists result,
        body response = success_body result
        /\ APIClient.get_level_data requests_get api_url n
           = Some (JObj (stage_data result))).
Proof.
  cbv zeta. intros H. unfold APIClient.get_level_data. rewrite H. clear H.
  destruct ((400 <=? status_code) && (status_code <? 600)) eqn:S.
  - split; [reflexivity|]. split; [reflexivity|]. intros _ N. exfalso.
    apply N. lia.
  - assert (N : ~ 400 <= status_code < 600) by lia.
    destruct (lambda_handler_cases B int_of_str event w)
      as [[error E]|[[P E]|[m [r [w' [R [F E]]]]]]]; rewrite E; cbn.
    + split; [reflexivity|]. split; [reflexivity | discriminate].
    + split; [reflexivity|]. split; [reflexivity | discriminate].
    + destruct (from_database_effect B m w r w' F)
        as [[e [_ ->]]|[c [w1 [_ [_ ->]]]]].
      * split; [reflexivity|]. split; [reflexivity | discriminate].
      * destruct (fetch_stage B (List.length (calls w1)) c m)
          as [[row|]|e]; cbn.
        -- split; [intros K; now contradiction K|].
           split; [intros K; now contradiction N|].
           intros _ _. exists row. split; reflexivity.
        -- split; [reflexivity|]. split; [reflexivity | discriminate].
        -- split; [reflexivity|]. split; [reflexivity | discriminate].
Qed.

Lemma client_accepts_only_the_success_body_witness :
  APIClient.get_level_data
    (fun _ => APIClient.Answers 200
                (Some (body (fst (lambda_handler backend_1 decimal
                                    (level "2") cold)))))
    (lit "https://api/level") 2
  = None
  /\ exists result,
       body (fst (lambda_handler backend_1 decimal (level "1") cold))
       = success_body result
       /\ APIClient.get_level_data
            (fun _ => APIClient.Answers 200
                        (Some (body (fst (lambda_handler backend_1 decimal
                                            (level "1") cold)))))
            (lit "https://api/level") 1
          = Some (JObj (stage_data result)).
Proof.
  split.
  - apply (proj1 (client_accepts_only_the_success_body
                    backend_1 decimal (level "2") cold
                    (fun _ => APIClient.Answers 200
                       (Some (body (fst (lambda_handler backend_1 decimal
                                           (level "2") cold)))))
                    (lit "https://api/level") 2 200 eq_refl)).
    vm_compute. discriminate.
  - apply (proj2 (proj2 (client_accepts_only_the_success_body
                    backend_1 decimal (level "1") cold
                    (fun _ => APIClient.Answers 200
                       (Some (body (fst (lambda_handler backend_1 decimal
                                           (level "1") cold)))))
                    (lit "https://api/level") 1 200 eq_refl))).
    + vm_compute. reflexivity.
    + lia.
Defined.

Lemma lstrip_char_repeat (c : char) (s : str) :
  exists k, s = repeat c k ++ lstrip_char c s
            /\ forall t, lstrip_char c s <> c :: t.
Proof.
  induction s as [|d s [k [E N]]]; cbn.
  - exists 0%nat. split; [reflexivity | discriminate].
  - destruct (d =? c)%N eqn:D.
    + apply N.eqb_eq in D. subst d. exists (S k). cbn. split.
      * now rewrite <- E.
      * exact N.
    + apply N.eqb_neq in D. exists 0%nat. split; [reflexivity|].
      intros t [= K _]. now apply D.
Qed.

Lemma rstrip_char_repeat (c : char) (s : str) :
  exists k, s = rstrip_char c s ++ repeat c k
            /\ forall t, rstrip_char c s <> t ++ [c].
Proof.
  unfold rstrip_char. destruct (lstrip_char_repeat c (rev s)) as [k [E N]].
  exists k. split.
  - rewrite <- (rev_involutive s) at 1. rewrite E at 1.
    rewrite rev_app_distr. f_equal.
    clear E. induction k as [|k IH]; [reflexivity|].
    cbn [repeat rev]. rewrite IH. change (c :: repeat c k) with (repeat c (S k)).
    now rewrite <- repeat_cons.
  - intros t H. apply (N (rev t)).
    rewrite <- (rev_involutive (lstrip_char c (rev s))), H.
    rewrite rev_app_distr. reflexivity.
Qed.

Lemma rstrip_char_app (c : char) (s : str) (k : nat) :
  rstrip_char c (s ++ repeat c k) = rstrip_char c s.
Proof.
  unfold rstrip_char. f_equal. rewrite rev_app_distr.
  assert (R : rev (repeat c k) = repeat c k).
  { induction k as [|k IH]; [reflexivity|].
    cbn [repeat rev]. rewrite IH. change (c :: repeat c k) with (repeat c (S k)).
    now rewrite <- repeat_cons. }
  rewrite R. clear R. induction k as [|k IH]; [reflexivity|].
  cbn. now rewrite N.eqb_refl.
Qed.

(** X22. Trailing slashes of [API_GATEWAY_URL] do not matter.  For a URL
    that is not empty, [__init__] keeps a base that does not end in a slash
    and from which the URL differs by trailing slashes only; adding slashes
    to the URL gives the same base, and the request for stage [n] goes to the
    base, one slash and [n] in decimal. *)
Theorem trailing_slashes_do_not_change_the_request (api_url : str)
    (k : nat) :
  api_url <> [] ->
  exists base,
    APIClient.init (Some api_url) = Some base
    /\ APIClient.init (Some (api_url ++ repeat SLASH k)) = Some base
    /\ (forall t, base <> t ++ [SLASH])
    /\ (exists j, api_url = base ++ repeat SLASH j)
    /\ forall n, APIClient.url base n = base ++ SLASH :: str_of_int n.
Proof.
  intros N. exists (rstrip_char SLASH api_url).
  destruct (rstrip_char_repeat SLASH api_url) as [j [E T]].
  split; [|split; [|split; [exact T | split; [now exists j | reflexivity]]]].
  - unfold APIClient.init. destruct api_url; [contradiction | reflexivity].
  - unfold APIClient.init. rewrite rstrip_char_app.
    destruct api_url; [contradiction | reflexivity].
Qed.

Lemma trailing_slashes_do_not_change_the_request_witness :
  exists base,
    APIClient.init (Some (lit "https://api/level")) = Some base
    /\ APIClient.init (Some (lit "https://api/level" ++ repeat SLASH 2))
       = Some base
    /\ (forall t, base <> t ++ [SLASH])
    /\ (exists j, lit "https://api/level" = base ++ repeat SLASH j)
    /\ forall n, APIClient.url base n = base ++ SLASH :: str_of_int n.
Proof.
  apply (trailing_slashes_do_not_change_the_request
           (lit "https://api/level") 2).
  discriminate.
Defined.
